(** * Planetary explorer: coordinate, alignment and tile-address engine

    A shallow embedding of the TypeScript sources of the planetary explorer:
    - [src/app/lib/planetary/geodesy.ts] (longitude conventions and the
      simple-cylindrical projection),
    - the alignment-correction resolver ([applyAlignmentCorrectionForward],
      [applyAlignmentCorrectionInverse], [resolveDynamicOffsets]),
    - the tile URL builders ([getTileUrl] of the tile viewer and of
      [PlanetaryMap.tsx]),
    - the reverse (nearest-feature) search of the tile viewer,
    - the dataset registry of [src/app/lib/planetary/datasets.ts].

    JavaScript numbers are modelled as exact rationals extended with the
    IEEE special values [Infinity], [-Infinity] and [NaN]; rounding and the
    sign of zero are not modelled.  The distance computation of the
    reverse search, which needs the trigonometric functions, is modelled
    over the reals. *)

From Stdlib Require Import QArith Qround ZArith List String Bool Lia Lqa Sorted Permutation DecimalString.
From Stdlib Require Reals Lra.
Import ListNotations.

(* ------------------------------------------------------------------ *)
(** ** JavaScript numbers *)

Module JsNum.

Local Open Scope Q_scope.

Inductive num : Type :=
| Fin (q : Q)
| PosInf
| NegInf
| NaN.

Definition is_finite (x : num) : bool :=
  match x with Fin _ => true | _ => false end.

Definition is_nan (x : num) : bool :=
  match x with NaN => true | _ => false end.

Definition inf_of (positive : bool) : num :=
  if positive then PosInf else NegInf.

Definition Qpos_bool (q : Q) : bool := negb (Qle_bool q 0).

(** unary minus *)
Definition nopp (x : num) : num :=
  match x with
  | Fin q => Fin (- q)
  | PosInf => NegInf
  | NegInf => PosInf
  | NaN => NaN
  end.

(** [x + y] *)
Definition nadd (x y : num) : num :=
  match x, y with
  | NaN, _ | _, NaN => NaN
  | Fin a, Fin b => Fin (a + b)
  | PosInf, NegInf | NegInf, PosInf => NaN
  | PosInf, _ | _, PosInf => PosInf
  | NegInf, _ | _, NegInf => NegInf
  end.

(** [x - y] *)
Definition nsub (x y : num) : num := nadd x (nopp y).

(** [x * y] *)
Definition nmul (x y : num) : num :=
  match x, y with
  | NaN, _ | _, NaN => NaN
  | Fin a, Fin b => Fin (a * b)
  | Fin a, PosInf | PosInf, Fin a =>
      if Qeq_bool a 0 then NaN else inf_of (Qpos_bool a)
  | Fin a, NegInf | NegInf, Fin a =>
      if Qeq_bool a 0 then NaN else inf_of (negb (Qpos_bool a))
  | PosInf, PosInf | NegInf, NegInf => PosInf
  | PosInf, NegInf | NegInf, PosInf => NegInf
  end.

(** [x / y] (a zero divisor is taken as [+0]) *)
Definition ndiv (x y : num) : num :=
  match x, y with
  | NaN, _ | _, NaN => NaN
  | Fin a, Fin b =>
      if Qeq_bool b 0
      then (if Qeq_bool a 0 then NaN else inf_of (Qpos_bool a))
      else Fin (a / b)
  | Fin _, PosInf | Fin _, NegInf => Fin 0
  | PosInf, Fin b => if Qle_bool 0 b then PosInf else NegInf
  | NegInf, Fin b => if Qle_bool 0 b then NegInf else PosInf
  | _, _ => NaN
  end.

(** truncation towards zero of a rational *)
Definition qtrunc (q : Q) : Z := Z.quot (Qnum q) (Zpos (Qden q)).

(** [a % b] on finite numbers: the remainder of the truncated division *)
Definition qrem (a b : Q) : Q := a - b * inject_Z (qtrunc (a / b)).

(** [x % y] *)
Definition nmod (x y : num) : num :=
  match x, y with
  | Fin a, Fin b => if Qeq_bool b 0 then NaN else Fin (qrem a b)
  | Fin a, PosInf | Fin a, NegInf => Fin a
  | _, _ => NaN
  end.

(** [x < y] *)
Definition nlt (x y : num) : bool :=
  match x, y with
  | NaN, _ | _, NaN => false
  | Fin a, Fin b => Qpos_bool (b - a)
  | Fin _, PosInf | NegInf, Fin _ | NegInf, PosInf => true
  | _, _ => false
  end.

(** [x <= y] *)
Definition nle (x y : num) : bool :=
  match x, y with
  | NaN, _ | _, NaN => false
  | Fin a, Fin b => Qle_bool a b
  | _, PosInf | NegInf, _ => true
  | _, _ => false
  end.

(** [x === y] *)
Definition neqb (x y : num) : bool :=
  match x, y with
  | Fin a, Fin b => Qeq_bool a b
  | PosInf, PosInf | NegInf, NegInf => true
  | _, _ => false
  end.

(** [Math.min(x, y)] and [Math.max(x, y)] *)
Definition nmin (x y : num) : num :=
  if is_nan x || is_nan y then NaN else if nlt y x then y else x.

Definition nmax (x y : num) : num :=
  if is_nan x || is_nan y then NaN else if nlt x y then y else x.

(** JavaScript falsiness of a number: [0] and [NaN] *)
Definition falsy (x : num) : bool :=
  match x with Fin a => Qeq_bool a 0 | NaN => true | _ => false end.

(** [x || d] on numbers *)
Definition nor (x d : num) : num := if falsy x then d else x.

(** [x ?? d]: [undefined] and [null] are [None] *)
Definition nullish (x : option num) (d : num) : num :=
  match x with Some v => v | None => d end.

(** Equality of values up to the representation of rationals. *)
Definition neqv (x y : num) : Prop :=
  match x, y with
  | Fin a, Fin b => a == b
  | PosInf, PosInf | NegInf, NegInf | NaN, NaN => True
  | _, _ => False
  end.

(** *** Truncated division *)

Lemma qtrunc_nonneg (q : Q) : 0 <= q -> qtrunc q = Qfloor q.
Proof.
  destruct q as [n d]; unfold qtrunc, Qfloor, Qle; simpl; intros H.
  apply Z.quot_div_nonneg; lia.
Qed.

Lemma qtrunc_opp (q : Q) : qtrunc (- q) = (- qtrunc q)%Z.
Proof.
  destruct q as [n d]; unfold qtrunc; simpl.
  apply Z.quot_opp_l; lia.
Qed.

Lemma Qfloor_unique (q : Q) (z : Z) :
  inject_Z z <= q -> q < inject_Z z + 1 -> Qfloor q = z.
Proof.
  intros H1 H2.
  pose proof (Qfloor_le q) as F1. pose proof (Qlt_floor q) as F2.
  assert (A : (z < Qfloor q + 1)%Z).
  { rewrite Zlt_Qlt. eapply Qle_lt_trans; eauto. }
  assert (B : (Qfloor q < z + 1)%Z).
  { rewrite Zlt_Qlt, inject_Z_plus. eapply Qle_lt_trans; eauto. }
  lia.
Qed.

Lemma qtrunc_pos_spec (q : Q) (z : Z) :
  0 <= q -> inject_Z z <= q -> q < inject_Z z + 1 -> qtrunc q = z.
Proof.
  intros H0 H1 H2. rewrite qtrunc_nonneg by exact H0.
  apply Qfloor_unique; assumption.
Qed.

Lemma qtrunc_neg_spec (q : Q) (z : Z) :
  q <= 0 -> inject_Z z - 1 < q -> q <= inject_Z z -> qtrunc q = z.
Proof.
  intros H0 H1 H2.
  assert (E : qtrunc q = (- qtrunc (- q))%Z).
  { rewrite qtrunc_opp. lia. }
  rewrite E, (qtrunc_pos_spec (- q) (- z)); [lia | | |].
  - apply Qopp_le_compat in H0. exact H0.
  - rewrite inject_Z_opp. apply Qopp_le_compat. exact H2.
  - rewrite inject_Z_opp.
    apply Qplus_lt_l with (z := q - 1 + inject_Z z).
    ring_simplify. ring_simplify in H1. exact H1.
Qed.

Lemma Qle_lt_div (a b k : Q) :
  0 < b -> k * b <= a -> a < (k + 1) * b -> k <= a / b /\ a / b < k + 1.
Proof.
  intros Hb H1 H2. split.
  - apply Qle_shift_div_l; assumption.
  - apply Qlt_shift_div_r; assumption.
Qed.

(** [a % b] for a non-negative [a] in the [k]-th period *)
Lemma qrem_pos (a b : Q) (k : Z) :
  0 < b -> 0 <= a -> inject_Z k * b <= a -> a < (inject_Z k + 1) * b ->
  qrem a b == a - inject_Z k * b.
Proof.
  intros Hb Ha H1 H2. unfold qrem.
  destruct (Qle_lt_div a b (inject_Z k) Hb H1 H2) as [D1 D2].
  rewrite (qtrunc_pos_spec (a / b) k); [ring | | exact D1 | exact D2].
  apply Qle_shift_div_l; [exact Hb|]. rewrite Qmult_0_l. exact Ha.
Qed.

(** [a % b] for a non-positive [a] in the [k]-th period below zero *)
Lemma qrem_neg (a b : Q) (k : Z) :
  0 < b -> a <= 0 -> - (inject_Z k + 1) * b < a -> a <= - inject_Z k * b ->
  qrem a b == a + inject_Z k * b.
Proof.
  intros Hb Ha H1 H2. unfold qrem.
  assert (D1 : inject_Z (- k) - 1 < a / b).
  { apply Qlt_shift_div_l; [exact Hb|]. rewrite inject_Z_opp.
    setoid_replace ((- inject_Z k - 1) * b) with (- (inject_Z k + 1) * b) by ring.
    exact H1. }
  assert (D2 : a / b <= inject_Z (- k)).
  { apply Qle_shift_div_r; [exact Hb|]. rewrite inject_Z_opp. exact H2. }
  rewrite (qtrunc_neg_spec (a / b) (- k)); [rewrite inject_Z_opp; ring | | exact D1 | exact D2].
  apply Qle_shift_div_r; [exact Hb|]. rewrite Qmult_0_l. exact Ha.
Qed.

(** the remainder by a positive divisor keeps the sign of the dividend
    and lies strictly within one period *)
Lemma qrem_range_pos (a b : Q) :
  0 < b -> 0 <= a -> 0 <= qrem a b /\ qrem a b < b.
Proof.
  intros Hb Ha. unfold qrem.
  assert (Hq : 0 <= a / b).
  { apply Qle_shift_div_l; [exact Hb|]. rewrite Qmult_0_l. exact Ha. }
  rewrite qtrunc_nonneg by exact Hq.
  pose proof (Qfloor_le (a / b)) as F1. pose proof (Qlt_floor (a / b)) as F2.
  rewrite inject_Z_plus in F2.
  set (f := inject_Z (Qfloor (a / b))) in *.
  assert (E : a == (a / b) * b) by (field; intro E; rewrite E in Hb; discriminate).
  split.
  - apply (Qmult_le_compat_r _ _ b) in F1; [|apply Qlt_le_weak; exact Hb].
    rewrite <- E in F1.
    apply Qle_minus_iff in F1.
    setoid_replace (a - b * f) with (a + - (f * b)) by ring. exact F1.
  - apply (Qmult_lt_compat_r _ _ b) in F2; [|exact Hb].
    rewrite <- E in F2.
    apply Qplus_lt_l with (z := b * f).
    setoid_replace (a - b * f + b * f) with a by ring.
    setoid_replace (b + b * f) with ((f + 1) * b) by ring. exact F2.
Qed.

Lemma qtrunc_div_opp (a b : Q) : qtrunc (- a / b) = (- qtrunc (a / b))%Z.
Proof.
  destruct a as [n d], b as [m e]; unfold qtrunc, Qdiv, Qmult, Qopp, Qinv; simpl.
  destruct m; simpl; rewrite ?Z.mul_opp_l; apply Z.quot_opp_l; lia.
Qed.

Lemma qrem_opp (a b : Q) : qrem (- a) b == - qrem a b.
Proof.
  unfold qrem. rewrite qtrunc_div_opp, inject_Z_opp. ring.
Qed.

(** the remainder of any dividend lies strictly within one period *)
Lemma qrem_range (a b : Q) : 0 < b -> - b < qrem a b /\ qrem a b < b.
Proof.
  intros Hb. destruct (Qlt_le_dec a 0) as [Ha | Ha].
  - assert (Hn : 0 <= - a).
    { apply Qlt_le_weak, Qopp_le_compat in Ha. exact Ha. }
    destruct (qrem_range_pos (- a) b Hb Hn) as [R1 R2].
    rewrite qrem_opp in R1, R2. split.
    + apply Qopp_lt_compat in R2. rewrite Qopp_involutive in R2. exact R2.
    + apply Qopp_le_compat in R1. rewrite Qopp_involutive in R1.
      eapply Qle_lt_trans; [exact R1| exact Hb].
  - destruct (qrem_range_pos a b Hb Ha) as [R1 R2]. split; [|exact R2].
    eapply Qlt_le_trans; [|exact R1].
    apply Qopp_lt_compat in Hb. exact Hb.
Qed.

(** *** Arithmetic on finite values *)

Lemma nadd_fin (a b : Q) : nadd (Fin a) (Fin b) = Fin (a + b).
Proof. reflexivity. Qed.

Lemma nsub_fin (a b : Q) : nsub (Fin a) (Fin b) = Fin (a + - b).
Proof. reflexivity. Qed.

Lemma nmul_fin (a b : Q) : nmul (Fin a) (Fin b) = Fin (a * b).
Proof. reflexivity. Qed.

Lemma ndiv_fin (a b : Q) : ~ b == 0 -> ndiv (Fin a) (Fin b) = Fin (a / b).
Proof.
  intros H. unfold ndiv. destruct (Qeq_bool b 0) eqn:E; [|reflexivity].
  apply Qeq_bool_iff in E. contradiction.
Qed.

Lemma nopp_fin (a : Q) : nopp (Fin a) = Fin (- a).
Proof. reflexivity. Qed.

End JsNum.

(* ------------------------------------------------------------------ *)
(** ** Longitude conventions ([geodesy.ts]) *)

Module Geodesy.

Import JsNum.
Local Open Scope Q_scope.

(** [type LongitudeConvention = "east-180" | "east-360" | "west-360"] *)
Inductive LongitudeConvention : Type :=
| East180
| East360
| West360.

Definition convention_eqb (a b : LongitudeConvention) : bool :=
  match a, b with
  | East180, East180 | East360, East360 | West360, West360 => true
  | _, _ => false
  end.

(** [wrapLongitude180]: [-180] is turned into [180] *)
Definition wrapLongitude180 (value : num) : num :=
  let wrapped :=
    nsub (nmod (nadd (nmod (nadd value (Fin 180)) (Fin 360)) (Fin 360)) (Fin 360))
         (Fin 180) in
  if neqb wrapped (Fin (-180)) then Fin 180 else wrapped.

Definition wrapLongitude360 (value : num) : num :=
  nmod (nadd (nmod value (Fin 360)) (Fin 360)) (Fin 360).

Definition toEast180 (value : num) (from : LongitudeConvention) : num :=
  match from with
  | East180 => wrapLongitude180 value
  | East360 =>
      let wrapped := wrapLongitude360 value in
      if nlt (Fin 180) wrapped then nsub wrapped (Fin 360) else wrapped
  | West360 =>
      let wrapped := wrapLongitude360 value in
      wrapLongitude180 (nopp wrapped)
  end.

Definition fromEast180 (value : num) (to : LongitudeConvention) : num :=
  let east180 := wrapLongitude180 value in
  match to with
  | East180 => east180
  | East360 =>
      let adjusted := if nlt east180 (Fin 0) then nadd east180 (Fin 360) else east180 in
      wrapLongitude360 adjusted
  | West360 => wrapLongitude360 (nopp east180)
  end.

Definition convertLongitude (value : num) (from to : LongitudeConvention) : num :=
  if convention_eqb from to then
    match to with
    | East180 => wrapLongitude180 value
    | East360 | West360 => wrapLongitude360 value
    end
  else fromEast180 (toEast180 value from) to.

Definition normalizeLongitude (value : num) (convention : LongitudeConvention) : num :=
  convertLongitude value convention convention.

(** *** Range lemmas of the wrapping functions *)

Ltac qlit :=
  change (inject_Z 0) with 0 in *; change (inject_Z 1) with 1 in *;
  change (inject_Z 2) with 2 in *.


Lemma Qpos_bool_true (q : Q) : 0 < q -> Qpos_bool q = true.
Proof.
  intros H. unfold Qpos_bool. destruct (Qle_bool q 0) eqn:E; [|reflexivity].
  apply Qle_bool_iff in E. lra.
Qed.

Lemma Qpos_bool_false (q : Q) : q <= 0 -> Qpos_bool q = false.
Proof.
  intros H. unfold Qpos_bool. apply Qle_bool_iff in H. rewrite H. reflexivity.
Qed.

Lemma Qeq_bool_false (a b : Q) : ~ a == b -> Qeq_bool a b = false.
Proof.
  intros H. destruct (Qeq_bool a b) eqn:E; [|reflexivity].
  apply Qeq_bool_iff in E. contradiction.
Qed.

Lemma wrap180_fin (x : Q) :
  wrapLongitude180 (Fin x) =
  (let w := qrem (qrem (x + 180) 360 + 360) 360 + - 180 in
   if Qeq_bool w (-180) then Fin 180 else Fin w).
Proof. reflexivity. Qed.

Lemma wrap360_fin (x : Q) :
  wrapLongitude360 (Fin x) = Fin (qrem (qrem x 360 + 360) 360).
Proof. reflexivity. Qed.

Lemma wrap180_id (x : Q) :
  -180 < x <= 180 -> exists y, wrapLongitude180 (Fin x) = Fin y /\ y == x.
Proof.
  intros H. rewrite wrap180_fin; cbv zeta.
  destruct (Qlt_le_dec x 180) as [Hx | Hx].
  - assert (E1 : qrem (x + 180) 360 == x + 180).
    { rewrite (qrem_pos _ _ 0); qlit; lra. }
    assert (E2 : qrem (qrem (x + 180) 360 + 360) 360 == x + 180).
    { rewrite (qrem_pos _ _ 1); qlit; try rewrite E1; lra. }
    rewrite Qeq_bool_false by (rewrite E2; lra).
    eexists; split; [reflexivity|]. rewrite E2; ring.
  - assert (E1 : qrem (x + 180) 360 == 0).
    { rewrite (qrem_pos _ _ 1); qlit; lra. }
    assert (E2 : qrem (qrem (x + 180) 360 + 360) 360 == 0).
    { rewrite (qrem_pos _ _ 1); qlit; try rewrite E1; lra. }
    replace (Qeq_bool _ _) with true
      by (symmetry; apply Qeq_bool_iff; rewrite E2; reflexivity).
    eexists; split; [reflexivity|]. lra.
Qed.

Lemma wrap180_low (x : Q) :
  -540 < x <= -180 -> exists y, wrapLongitude180 (Fin x) = Fin y /\ y == x + 360.
Proof.
  intros H. rewrite wrap180_fin; cbv zeta.
  assert (E1 : qrem (x + 180) 360 == x + 180).
  { rewrite (qrem_neg _ _ 0); qlit; lra. }
  destruct (Qlt_le_dec x (-180)) as [Hx | Hx].
  - assert (E2 : qrem (qrem (x + 180) 360 + 360) 360 == x + 540).
    { rewrite (qrem_pos _ _ 0); qlit; try rewrite E1; lra. }
    rewrite Qeq_bool_false by (rewrite E2; lra).
    eexists; split; [reflexivity|]. rewrite E2; ring.
  - assert (E2 : qrem (qrem (x + 180) 360 + 360) 360 == 0).
    { rewrite (qrem_pos _ _ 1); qlit; try rewrite E1; lra. }
    replace (Qeq_bool _ _) with true
      by (symmetry; apply Qeq_bool_iff; rewrite E2; reflexivity).
    eexists; split; [reflexivity|]. lra.
Qed.

Lemma wrap180_range (x : Q) :
  exists y, wrapLongitude180 (Fin x) = Fin y /\ -180 < y <= 180.
Proof.
  rewrite wrap180_fin; cbv zeta.
  destruct (qrem_range (x + 180) 360) as [R1 R2]; [lra|].
  destruct (qrem_range_pos (qrem (x + 180) 360 + 360) 360) as [R3 R4]; [lra|lra|].
  destruct (Qeq_bool _ (-180)) eqn:E.
  - eexists; split; [reflexivity|]. lra.
  - apply Qeq_bool_neq in E. eexists; split; [reflexivity|]. lra.
Qed.

Lemma wrap360_id (x : Q) :
  0 <= x < 360 -> exists y, wrapLongitude360 (Fin x) = Fin y /\ y == x.
Proof.
  intros H. rewrite wrap360_fin. eexists; split; [reflexivity|].
  assert (E1 : qrem x 360 == x) by (rewrite (qrem_pos x _ 0); qlit; lra).
  rewrite (qrem_pos _ _ 1); qlit; rewrite ?E1; lra.
Qed.

Lemma wrap360_neg (x : Q) :
  -360 < x < 0 -> exists y, wrapLongitude360 (Fin x) = Fin y /\ y == x + 360.
Proof.
  intros H. rewrite wrap360_fin. eexists; split; [reflexivity|].
  assert (E1 : qrem x 360 == x) by (rewrite (qrem_neg x _ 0); qlit; lra).
  rewrite (qrem_pos _ _ 0); qlit; rewrite ?E1; lra.
Qed.

Lemma wrap360_range (x : Q) :
  exists y, wrapLongitude360 (Fin x) = Fin y /\ 0 <= y < 360.
Proof.
  rewrite wrap360_fin. eexists; split; [reflexivity|].
  destruct (qrem_range x 360) as [R1 R2]; [lra|].
  apply qrem_range_pos; lra.
Qed.

(** *** Angles modulo one turn *)

(** [cong a b]: [a] and [b] denote the same meridian *)
Definition cong (a b : Q) : Prop := exists k : Z, a - b == 360 * inject_Z k.

Lemma cong_eqv (a b : Q) : a == b -> cong a b.
Proof. intros H. exists 0%Z. qlit. lra. Qed.

Lemma cong_sym (a b : Q) : cong a b -> cong b a.
Proof.
  intros [k Hk]. exists (- k)%Z. rewrite inject_Z_opp. lra.
Qed.

Lemma cong_trans (a b c : Q) : cong a b -> cong b c -> cong a c.
Proof.
  intros [k Hk] [l Hl]. exists (k + l)%Z. rewrite inject_Z_plus. lra.
Qed.

Lemma cong_compat (a a' b b' : Q) : a == a' -> b == b' -> cong a b -> cong a' b'.
Proof. intros Ha Hb [k Hk]. exists k. rewrite <- Ha, <- Hb. exact Hk. Qed.

Lemma cong_opp (a b : Q) : cong a b -> cong (- a) (- b).
Proof. intros [k Hk]. exists (- k)%Z. rewrite inject_Z_opp. lra. Qed.

Lemma cong_shift (a b : Q) (k : Z) : a == b + 360 * inject_Z k -> cong a b.
Proof. intros H. exists k. lra. Qed.

Lemma cong_plus (a b c : Q) : cong a b -> cong (a + c) (b + c).
Proof. intros [k Hk]. exists k. lra. Qed.

Lemma cong_qrem (a : Q) : cong (qrem a 360) a.
Proof.
  unfold qrem. exists (- qtrunc (a / 360))%Z. rewrite inject_Z_opp. lra.
Qed.

(** two representatives of one meridian in a half-open turn are equal *)
Lemma cong_unique (a b lo : Q) :
  lo <= a < lo + 360 -> lo <= b < lo + 360 -> cong a b -> a == b.
Proof.
  intros Ha Hb [k Hk].
  assert (K1 : (-1 < k)%Z).
  { rewrite Zlt_Qlt. change (inject_Z (-1)) with (-1). lra. }
  assert (K2 : (k < 1)%Z).
  { rewrite Zlt_Qlt. change (inject_Z 1) with 1. lra. }
  assert (k = 0%Z) by lia. subst k. qlit. lra.
Qed.

Lemma cong_unique' (a b lo : Q) :
  lo < a <= lo + 360 -> lo < b <= lo + 360 -> cong a b -> a == b.
Proof.
  intros Ha Hb [k Hk].
  assert (K1 : (-1 < k)%Z).
  { rewrite Zlt_Qlt. change (inject_Z (-1)) with (-1). lra. }
  assert (K2 : (k < 1)%Z).
  { rewrite Zlt_Qlt. change (inject_Z 1) with 1. lra. }
  assert (k = 0%Z) by lia. subst k. qlit. lra.
Qed.

Lemma wrap180_spec (x : Q) :
  exists y, wrapLongitude180 (Fin x) = Fin y /\ -180 < y <= 180 /\ cong y x.
Proof.
  rewrite wrap180_fin; cbv zeta.
  destruct (qrem_range (x + 180) 360) as [R1 R2]; [lra|].
  destruct (qrem_range_pos (qrem (x + 180) 360 + 360) 360) as [R3 R4]; [lra|lra|].
  assert (C : cong (qrem (qrem (x + 180) 360 + 360) 360 + - 180) x).
  { eapply cong_trans; [apply cong_plus, cong_qrem|].
    eapply cong_trans; [apply cong_plus, cong_plus, cong_qrem|].
    apply (cong_shift _ _ 1); qlit; lra. }
  destruct (Qeq_bool _ (-180)) eqn:E.
  - apply Qeq_bool_iff in E. eexists; split; [reflexivity|]. split; [lra|].
    eapply cong_trans; [|exact C]. apply (cong_shift _ _ 1); qlit; lra.
  - apply Qeq_bool_neq in E. eexists; split; [reflexivity|]. split; [lra|exact C].
Qed.

Lemma wrap360_spec (x : Q) :
  exists y, wrapLongitude360 (Fin x) = Fin y /\ 0 <= y < 360 /\ cong y x.
Proof.
  rewrite wrap360_fin. eexists; split; [reflexivity|].
  destruct (qrem_range x 360) as [R1 R2]; [lra|]. split.
  - apply qrem_range_pos; lra.
  - eapply cong_trans; [apply cong_qrem|].
    eapply cong_trans; [|apply cong_qrem].
    apply (cong_shift _ _ 1); qlit; lra.
Qed.

(** *** Conventions as sets of representatives *)

(** the half-open range a convention writes its values in *)
Definition in_domain (c : LongitudeConvention) (x : Q) : Prop :=
  match c with
  | East180 => -180 < x <= 180
  | East360 | West360 => 0 <= x < 360
  end.

(** the direction of a convention: east-positive or west-positive *)
Definition direction (c : LongitudeConvention) : Q :=
  match c with East180 | East360 => 1 | West360 => -1 end.

Lemma toEast180_spec (c : LongitudeConvention) (x : Q) :
  exists y, toEast180 (Fin x) c = Fin y /\ -180 < y <= 180 /\ cong y (direction c * x).
Proof.
  destruct c; cbn [toEast180 fromEast180 direction in_domain].
  - destruct (wrap180_spec x) as [y [E [R C]]]. exists y. rewrite E.
    split; [reflexivity|]. split; [exact R|].
    eapply cong_compat; [reflexivity| |exact C]. ring.
  - destruct (wrap360_spec x) as [w [E [R C]]]. rewrite E.
    unfold nlt, nsub, nopp, nadd.
    destruct (Qlt_le_dec 180 w) as [Hw | Hw].
    + rewrite Qpos_bool_true by lra. eexists; split; [reflexivity|].
      split; [lra|]. eapply cong_trans; [apply (cong_shift _ w (-1)); reflexivity|].
      eapply cong_compat; [reflexivity| |exact C]. ring.
    + rewrite Qpos_bool_false by lra. eexists; split; [reflexivity|].
      split; [lra|]. eapply cong_compat; [reflexivity| |exact C]. ring.
  - destruct (wrap360_spec x) as [w [E [R C]]]. rewrite E. cbn [nopp].
    destruct (wrap180_spec (- w)) as [y [E2 [R2 C2]]]. exists y. rewrite E2.
    split; [reflexivity|]. split; [exact R2|].
    eapply cong_trans; [exact C2|].
    eapply cong_compat; [reflexivity| |apply cong_opp, C]. ring.
Qed.

Lemma fromEast180_spec (c : LongitudeConvention) (e : Q) :
  exists y, fromEast180 (Fin e) c = Fin y /\ in_domain c y /\ cong (direction c * y) e.
Proof.
  unfold fromEast180.
  destruct (wrap180_spec e) as [w [E [R C]]]. rewrite E.
  destruct c; cbn [toEast180 fromEast180 direction in_domain].
  - exists w. split; [reflexivity|]. split; [exact R|].
    eapply cong_compat; [| reflexivity | exact C]. ring.
  - unfold nlt. destruct (Qlt_le_dec w 0) as [Hw | Hw].
    + rewrite Qpos_bool_true by lra. unfold nadd.
      destruct (wrap360_spec (w + 360)) as [y [E2 [R2 C2]]]. exists y. rewrite E2.
      split; [reflexivity|]. split; [exact R2|].
      eapply cong_trans; [|exact C]. eapply cong_trans; [|apply (cong_shift _ w 1); qlit; reflexivity].
      eapply cong_compat; [| reflexivity | exact C2]. ring.
    + rewrite Qpos_bool_false by lra.
      destruct (wrap360_spec w) as [y [E2 [R2 C2]]]. exists y. rewrite E2.
      split; [reflexivity|]. split; [exact R2|].
      eapply cong_trans; [|exact C].
      eapply cong_compat; [| reflexivity | exact C2]. ring.
  - cbn [nopp]. destruct (wrap360_spec (- w)) as [y [E2 [R2 C2]]]. exists y. rewrite E2.
    split; [reflexivity|]. split; [exact R2|].
    eapply cong_trans; [|exact C].
    eapply cong_compat; [| | apply cong_opp, C2]; ring.
Qed.

Lemma convertLongitude_spec (x : Q) (from to : LongitudeConvention) :
  exists y, convertLongitude (Fin x) from to = Fin y /\ in_domain to y /\
            cong (direction to * y) (direction from * x).
Proof.
  unfold convertLongitude.
  destruct (convention_eqb from to) eqn:Eq.
  - assert (from = to) by (destruct from, to; simpl in Eq; congruence). subst from.
    destruct to; cbn [direction in_domain].
    + destruct (wrap180_spec x) as [y [E [R C]]]. exists y. rewrite E.
      split; [reflexivity|]. split; [exact R|].
      eapply cong_compat; [ | | exact C]; ring.
    + destruct (wrap360_spec x) as [y [E [R C]]]. exists y. rewrite E.
      split; [reflexivity|]. split; [exact R|].
      eapply cong_compat; [ | | exact C]; ring.
    + destruct (wrap360_spec x) as [y [E [R C]]]. exists y. rewrite E.
      split; [reflexivity|]. split; [exact R|].
      eapply cong_compat; [ | | apply cong_opp, C]; ring.
  - destruct (toEast180_spec from x) as [e [E [R C]]]. rewrite E.
    destruct (fromEast180_spec to e) as [y [E2 [R2 C2]]]. exists y. rewrite E2.
    split; [reflexivity|]. split; [exact R2|]. eapply cong_trans; eauto.
Qed.

Lemma direction_cancel (c : LongitudeConvention) (a b : Q) :
  cong (direction c * a) (direction c * b) -> cong a b.
Proof.
  destruct c; cbn [direction in_domain]; intros H.
  1, 2: eapply cong_compat; [ | | exact H]; ring.
  apply cong_opp in H. eapply cong_compat; [ | | exact H]; ring.
Qed.

Lemma in_domain_cong (c : LongitudeConvention) (a b : Q) :
  in_domain c a -> in_domain c b -> cong a b -> a == b.
Proof.
  destruct c; cbn [direction in_domain]; intros Ha Hb C.
  - apply (cong_unique' a b (-180)); lra || exact C.
  - apply (cong_unique a b 0); lra || exact C.
  - apply (cong_unique a b 0); lra || exact C.
Qed.

End Geodesy.

(* ------------------------------------------------------------------ *)
(** ** The coordinates library ([lib/coordinates]) and its callers *)

Module Coordinates.

Import JsNum.
Local Open Scope Q_scope.

Inductive LongitudeDirection : Type := east | west.
Inductive LongitudeDomain : Type := d180 | d360.

(** [LongitudeConvention] of the library: both fields optional ([None] is
    an absent field) *)
Record LongitudeConvention : Type := {
  direction : option LongitudeDirection;
  domain : option LongitudeDomain
}.

Definition DEFAULT_CONVENTION : LongitudeConvention :=
  {| direction := Some east; domain := Some d360 |}.

(** the fields of [{ ...DEFAULT_CONVENTION, ...convention }] *)
Definition merged_direction (convention : LongitudeConvention) : LongitudeDirection :=
  match direction convention with Some d => d | None => east end.

Definition merged_domain (convention : LongitudeConvention) : LongitudeDomain :=
  match domain convention with Some d => d | None => d360 end.

Definition wrapLongitude360 (value : num) : num :=
  if negb (is_finite value) then value
  else nmod (nadd (nmod value (Fin 360)) (Fin 360)) (Fin 360).

Definition wrapLongitude180 (value : num) : num :=
  if negb (is_finite value) then value
  else nsub (nmod (nadd (nmod (nadd value (Fin 180)) (Fin 360)) (Fin 360)) (Fin 360)) (Fin 180).

Definition normalizeLongitude (value : num) (convention : LongitudeConvention) : num :=
  if negb (is_finite value) then value
  else
    let direction := merged_direction convention in
    let domain := merged_domain convention in
    let lon := match domain with d360 => wrapLongitude360 value | d180 => wrapLongitude180 value end in
    let lon := match direction with
               | west => match domain with
                         | d360 => wrapLongitude360 (nsub (Fin 360) lon)
                         | d180 => nopp lon
                         end
               | east => lon
               end in
    wrapLongitude180 lon.

Definition denormalizeLongitude (canonicalValue : num) (convention : LongitudeConvention) : num :=
  if negb (is_finite canonicalValue) then canonicalValue
  else
    let direction := merged_direction convention in
    let domain := merged_domain convention in
    let lon := wrapLongitude180 canonicalValue in
    let lon := match direction with west => nopp lon | east => lon end in
    match domain with d360 => wrapLongitude360 lon | d180 => wrapLongitude180 lon end.

(** the display modes ["east-360"] and ["east-180"] *)
Inductive DisplayMode : Type := mode_east360 | mode_east180.

Definition canonicalToDisplay (canonicalValue : num) (mode : DisplayMode) : num :=
  let lon := wrapLongitude180 canonicalValue in
  match mode with
  | mode_east360 => wrapLongitude360 (nadd lon (Fin 180))
  | mode_east180 => lon
  end.

(** the horizontal position of a [Pin] marker, in percent of the map width *)
Definition Pin_xPercent (lon : num) : num :=
  let canonicalLon := wrapLongitude180 lon in
  nmul (ndiv (canonicalToDisplay canonicalLon mode_east360) (Fin 360)) (Fin 100).

(** *** Lemmas *)

(** the sign a convention's direction puts on a longitude *)
Definition sign (d : LongitudeDirection) : Q := match d with east => 1 | west => -1 end.

(** the half-open turn a domain writes its values in *)
Definition in_dom (d : LongitudeDomain) (x : Q) : Prop :=
  match d with d360 => 0 <= x < 360 | d180 => -180 <= x < 180 end.

Lemma coord_wrap360_spec (x : Q) :
  exists y, wrapLongitude360 (Fin x) = Fin y /\ 0 <= y < 360 /\ Geodesy.cong y x.
Proof. exact (Geodesy.wrap360_spec x). Qed.

Lemma coord_wrap180_spec (x : Q) :
  exists y, wrapLongitude180 (Fin x) = Fin y /\ -180 <= y < 180 /\ Geodesy.cong y x.
Proof.
  exists (qrem (qrem (x + 180) 360 + 360) 360 + - 180). split; [reflexivity|].
  destruct (qrem_range (x + 180) 360) as [R1 R2]; [lra|].
  destruct (qrem_range_pos (qrem (x + 180) 360 + 360) 360) as [R3 R4]; [lra|lra|].
  split; [lra|].
  eapply Geodesy.cong_trans; [apply Geodesy.cong_plus, Geodesy.cong_qrem|].
  eapply Geodesy.cong_trans; [apply Geodesy.cong_plus, Geodesy.cong_plus, Geodesy.cong_qrem|].
  apply (Geodesy.cong_shift _ _ 1). change (inject_Z 1) with 1. lra.
Qed.

Lemma dom_spec (d : LongitudeDomain) (x : Q) :
  exists y, match d with d360 => wrapLongitude360 (Fin x) | d180 => wrapLongitude180 (Fin x) end
            = Fin y /\ in_dom d y /\ Geodesy.cong y x.
Proof. destruct d; [apply coord_wrap180_spec | apply coord_wrap360_spec]. Qed.

Lemma cong_neg (a b : Q) : Geodesy.cong a b -> Geodesy.cong (- a) (- b).
Proof. apply Geodesy.cong_opp. Qed.

Lemma normalize_spec (x : Q) (c : LongitudeConvention) :
  exists y, normalizeLongitude (Fin x) c = Fin y /\ -180 <= y < 180 /\
            Geodesy.cong y (sign (merged_direction c) * x).
Proof.
  unfold normalizeLongitude. cbn [is_finite negb]. cbv zeta.
  destruct (dom_spec (merged_domain c) x) as [l1 [E1 [R1 C1]]]. rewrite E1.
  destruct (merged_direction c); cbn [sign].
  - destruct (coord_wrap180_spec l1) as [y [E [R C]]]. exists y. rewrite E.
    split; [reflexivity|]. split; [exact R|].
    eapply Geodesy.cong_trans; [exact C|].
    eapply Geodesy.cong_compat; [reflexivity| |exact C1]. ring.
  - destruct (merged_domain c).
    + cbn [nopp]. destruct (coord_wrap180_spec (- l1)) as [y [E [R C]]]. exists y. rewrite E.
      split; [reflexivity|]. split; [exact R|].
      eapply Geodesy.cong_trans; [exact C|].
      eapply Geodesy.cong_compat; [reflexivity| |apply cong_neg, C1]. ring.
    + rewrite nsub_fin.
      destruct (coord_wrap360_spec (360 + - l1)) as [l2 [E2 [R2 C2]]]. rewrite E2.
      destruct (coord_wrap180_spec l2) as [y [E [R C]]]. exists y. rewrite E.
      split; [reflexivity|]. split; [exact R|].
      eapply Geodesy.cong_trans; [exact C|].
      eapply Geodesy.cong_trans; [exact C2|].
      eapply Geodesy.cong_trans; [apply (Geodesy.cong_shift _ (- l1) 1); change (inject_Z 1) with 1; lra|].
      eapply Geodesy.cong_compat; [reflexivity| |apply cong_neg, C1]. ring.
Qed.

Lemma denormalize_spec (x : Q) (c : LongitudeConvention) :
  exists y, denormalizeLongitude (Fin x) c = Fin y /\ in_dom (merged_domain c) y /\
            Geodesy.cong (sign (merged_direction c) * y) x.
Proof.
  unfold denormalizeLongitude. cbn [is_finite negb]. cbv zeta.
  destruct (coord_wrap180_spec x) as [l1 [E1 [R1 C1]]]. rewrite E1.
  destruct (merged_direction c); cbn [sign nopp].
  - destruct (dom_spec (merged_domain c) l1) as [y [E [R C]]]. exists y. rewrite E.
    split; [reflexivity|]. split; [exact R|].
    eapply Geodesy.cong_trans; [|exact C1].
    eapply Geodesy.cong_compat; [| reflexivity |exact C]. ring.
  - destruct (dom_spec (merged_domain c) (- l1)) as [y [E [R C]]]. exists y. rewrite E.
    split; [reflexivity|]. split; [exact R|].
    eapply Geodesy.cong_trans; [|exact C1].
    eapply Geodesy.cong_compat; [| | apply cong_neg, C]; ring.
Qed.

Lemma sign_sqr (d : LongitudeDirection) (x : Q) : sign d * (sign d * x) == x.
Proof. destruct d; cbn [sign]; ring. Qed.

Lemma in_dom_unique (d : LongitudeDomain) (a b : Q) :
  in_dom d a -> in_dom d b -> Geodesy.cong a b -> a == b.
Proof.
  destruct d; cbn [in_dom]; intros Ha Hb C.
  - apply (Geodesy.cong_unique a b (-180)); lra || exact C.
  - apply (Geodesy.cong_unique a b 0); lra || exact C.
Qed.

End Coordinates.


(* ------------------------------------------------------------------ *)
(** ** Alignment corrections ([alignments.ts]) *)

Module Alignments.

Import JsNum.
Local Open Scope Q_scope.

Record PixelOffset : Type := { px : num; py : num }.

Record AlignmentDynamicZoomEntry : Type := {
  zoom : num;
  ze_lat_offset_deg : option num;
  ze_lon_offset_deg : option num;
  ze_pixel_offset : option PixelOffset
}.

Record AlignmentLatBandEntry : Type := {
  min_lat : num;
  max_lat : num;
  lb_lat_offset_deg : option num;
  lb_lon_offset_deg : option num
}.

Record AlignmentDynamic : Type := {
  zoom_levels : option (list AlignmentDynamicZoomEntry);
  lat_bands : option (list AlignmentLatBandEntry)
}.

(** [AlignmentCorrection] ([updated_at] is never read and is left out) *)
Record AlignmentCorrection : Type := {
  lat_offset_deg : option num;
  lon_offset_deg : option num;
  pixel_offset : option PixelOffset;
  lat_scale : option num;
  lon_scale : option num;
  dynamic : option AlignmentDynamic
}.

Record AlignmentRequest : Type := {
  datasetId : string;
  req_lat : num;
  req_lon : num;
  req_zoom : option num
}.

Record AlignmentResult : Type := {
  res_lat : num;
  res_lon : num;
  pixelOffsetX : num;
  pixelOffsetY : num
}.

Record ResolvedOffsets : Type := {
  latOffset : num;
  lonOffset : num;
  offPixelX : num;
  offPixelY : num
}.

(** [correction?.f ?? 0] *)
Definition field_or0 {A} (c : option A) (f : A -> option num) : num :=
  match c with Some r => nullish (f r) (Fin 0) | None => Fin 0 end.

(** [correction?.f ?? 1] *)
Definition field_or1 {A} (c : option A) (f : A -> option num) : num :=
  match c with Some r => nullish (f r) (Fin 1) | None => Fin 1 end.

Definition pixel_x (p : option PixelOffset) : option num := option_map px p.
Definition pixel_y (p : option PixelOffset) : option num := option_map py p.

Definition dyn_bands (c : option AlignmentCorrection) : option (list AlignmentLatBandEntry) :=
  match c with
  | Some r => match dynamic r with Some d => lat_bands d | None => None end
  | None => None
  end.

Definition dyn_zooms (c : option AlignmentCorrection) : option (list AlignmentDynamicZoomEntry) :=
  match c with
  | Some r => match dynamic r with Some d => zoom_levels d | None => None end
  | None => None
  end.

(** one iteration of [for (const band of lat_bands)] *)
Definition band_step (lat : num) (acc : num * num) (band : AlignmentLatBandEntry) : num * num :=
  let '(la, lo) := acc in
  if nle (min_lat band) lat && nle lat (max_lat band)
  then (nadd la (nullish (lb_lat_offset_deg band) (Fin 0)),
        nadd lo (nullish (lb_lon_offset_deg band) (Fin 0)))
  else (la, lo).

(** [entries.slice().sort((a, b) => a.zoom - b.zoom)]: a stable sort that
    places [a] after [b] exactly when the comparator is positive *)
Definition zoom_cmp (a b : AlignmentDynamicZoomEntry) : num := nsub (zoom a) (zoom b).

Fixpoint insert_entry (e : AlignmentDynamicZoomEntry) (l : list AlignmentDynamicZoomEntry)
  : list AlignmentDynamicZoomEntry :=
  match l with
  | [] => [e]
  | x :: r => if nlt (Fin 0) (zoom_cmp x e) then e :: x :: r else x :: insert_entry e r
  end.

Definition sort_entries (l : list AlignmentDynamicZoomEntry) : list AlignmentDynamicZoomEntry :=
  fold_left (fun acc e => insert_entry e acc) l [].

(** the bracketing loop: [lower] is the last entry with [entry.zoom <= zoom]
    before the first entry with [entry.zoom >= zoom], which is [upper] *)
Fixpoint bracket (z : num) (lower upper : AlignmentDynamicZoomEntry)
    (l : list AlignmentDynamicZoomEntry) : AlignmentDynamicZoomEntry * AlignmentDynamicZoomEntry :=
  match l with
  | [] => (lower, upper)
  | e :: r =>
      let lower' := if nle (zoom e) z then e else lower in
      if nle z (zoom e) then (lower', e) else bracket z lower' upper r
  end.

(** [(start ?? 0) + t * ((end ?? 0) - (start ?? 0))] *)
Definition interp (t : num) (start end_ : option num) : num :=
  nadd (nullish start (Fin 0)) (nmul t (nsub (nullish end_ (Fin 0)) (nullish start (Fin 0)))).

Record ZoomContribution : Type := {
  zc_lat : num; zc_lon : num; zc_px : num; zc_py : num
}.

(** the interpolated contribution of a non-empty list of breakpoints *)
Definition zoom_contribution (z : num) (first : AlignmentDynamicZoomEntry)
    (rest : list AlignmentDynamicZoomEntry) : ZoomContribution :=
  let entries := sort_entries (first :: rest) in
  let lower0 := hd first entries in
  let upper0 := last entries first in
  let '(lower, upper) := bracket z lower0 upper0 entries in
  let span := nor (nsub (zoom upper) (zoom lower)) (Fin 1) in
  let t := nmax (Fin 0) (nmin (Fin 1) (ndiv (nsub z (zoom lower)) span)) in
  {| zc_lat := interp t (ze_lat_offset_deg lower) (ze_lat_offset_deg upper);
     zc_lon := interp t (ze_lon_offset_deg lower) (ze_lon_offset_deg upper);
     zc_px := interp t (pixel_x (ze_pixel_offset lower)) (pixel_x (ze_pixel_offset upper));
     zc_py := interp t (pixel_y (ze_pixel_offset lower)) (pixel_y (ze_pixel_offset upper)) |}.

Definition resolveDynamicOffsets (correction : option AlignmentCorrection) (lat : num)
    (zoom_ : option num) : ResolvedOffsets :=
  let latOffset0 := field_or0 correction lat_offset_deg in
  let lonOffset0 := field_or0 correction lon_offset_deg in
  let pixelOffsetX0 := field_or0 correction (fun r => pixel_x (pixel_offset r)) in
  let pixelOffsetY0 := field_or0 correction (fun r => pixel_y (pixel_offset r)) in
  let '(latOffset1, lonOffset1) :=
    match dyn_bands correction with
    | Some (b :: bs) => fold_left (band_step lat) (b :: bs) (latOffset0, lonOffset0)
    | _ => (latOffset0, lonOffset0)
    end in
  match zoom_, dyn_zooms correction with
  | Some z, Some (e :: es) =>
      let c := zoom_contribution z e es in
      {| latOffset := nadd latOffset1 (zc_lat c);
         lonOffset := nadd lonOffset1 (zc_lon c);
         offPixelX := nadd pixelOffsetX0 (zc_px c);
         offPixelY := nadd pixelOffsetY0 (zc_py c) |}
  | _, _ =>
      {| latOffset := latOffset1; lonOffset := lonOffset1;
         offPixelX := pixelOffsetX0; offPixelY := pixelOffsetY0 |}
  end.

Section WithTable.

(** [ALIGNMENT_DATA]: the correction table imported from
    [@/data/alignment_corrections.json] (any table) *)
Variable ALIGNMENT_DATA : string -> option AlignmentCorrection.

Definition getAlignmentCorrection (id : string) : option AlignmentCorrection :=
  ALIGNMENT_DATA id.

Definition applyAlignmentCorrectionForward (req : AlignmentRequest) : AlignmentResult :=
  let correction := getAlignmentCorrection (datasetId req) in
  let r := resolveDynamicOffsets correction (req_lat req) (req_zoom req) in
  let latScale := field_or1 correction lat_scale in
  let lonScale := field_or1 correction lon_scale in
  {| res_lat := nadd (nmul (req_lat req) latScale) (latOffset r);
     res_lon := nadd (nmul (req_lon req) lonScale) (lonOffset r);
     pixelOffsetX := offPixelX r;
     pixelOffsetY := offPixelY r |}.

Definition applyAlignmentCorrectionInverse (req : AlignmentRequest) : AlignmentResult :=
  let correction := getAlignmentCorrection (datasetId req) in
  let r := resolveDynamicOffsets correction (req_lat req) (req_zoom req) in
  let latScale := field_or1 correction lat_scale in
  let lonScale := field_or1 correction lon_scale in
  {| res_lat := ndiv (nsub (req_lat req) (latOffset r)) (nor latScale (Fin 1));
     res_lon := ndiv (nsub (req_lon req) (lonOffset r)) (nor lonScale (Fin 1));
     pixelOffsetX := nopp (offPixelX r);
     pixelOffsetY := nopp (offPixelY r) |}.

End WithTable.

End Alignments.

(* ------------------------------------------------------------------ *)
(** ** Bodies and the simple-cylindrical projection ([constants.ts], [geodesy.ts]) *)

Module Projection.

Import JsNum Geodesy Alignments.
Local Open Scope Q_scope.

Inductive PlanetaryBodyKey : Type := moon | mars | mercury | ceres | vesta.

Inductive LongitudeDirection : Type := East | West.
Inductive LongitudeDomain : Type := Dom180 | Dom360.

Record PlanetaryBodyDefinition : Type := {
  body_id : PlanetaryBodyKey;
  body_name : string;
  meanRadiusMeters : num;
  flattening : num;
  body_primeMeridianOffsetDeg : num;
  defaultLongitudeDirection : LongitudeDirection;
  defaultLongitudeDomain : LongitudeDomain
}.

Definition PLANETARY_BODIES (b : PlanetaryBodyKey) : PlanetaryBodyDefinition :=
  match b with
  | moon => {| body_id := moon; body_name := "Moon"; meanRadiusMeters := Fin 1737400;
               flattening := Fin 0; body_primeMeridianOffsetDeg := Fin 0;
               defaultLongitudeDirection := East; defaultLongitudeDomain := Dom360 |}
  | mars => {| body_id := mars; body_name := "Mars"; meanRadiusMeters := Fin 3389500;
               flattening := Fin 0; body_primeMeridianOffsetDeg := Fin 0;
               defaultLongitudeDirection := East; defaultLongitudeDomain := Dom360 |}
  | mercury => {| body_id := mercury; body_name := "Mercury"; meanRadiusMeters := Fin 2439700;
               flattening := Fin 0; body_primeMeridianOffsetDeg := Fin 0;
               defaultLongitudeDirection := East; defaultLongitudeDomain := Dom360 |}
  | ceres => {| body_id := ceres; body_name := "Ceres"; meanRadiusMeters := Fin 473000;
               flattening := Fin 0; body_primeMeridianOffsetDeg := Fin 0;
               defaultLongitudeDirection := East; defaultLongitudeDomain := Dom360 |}
  | vesta => {| body_id := vesta; body_name := "Vesta"; meanRadiusMeters := Fin 262700;
               flattening := Fin 0; body_primeMeridianOffsetDeg := Fin 0;
               defaultLongitudeDirection := East; defaultLongitudeDomain := Dom360 |}
  end.

Record SimpleCylindricalProjection : Type := {
  proj_body : PlanetaryBodyKey;
  centralMeridianDeg : num;
  primeMeridianOffsetDeg : num;
  lonDirection : LongitudeDirection;
  lonDomain : LongitudeDomain;
  radiusMeters : option num;
  nativeConvention : option LongitudeConvention
}.

Record ProjectionContext : Type := {
  ctx_datasetId : string;
  projection : SimpleCylindricalProjection
}.

Record PixelDimensions : Type := { width : num; height : num }.

Record CoordinateTransformOptions : Type := {
  targetConvention : option LongitudeConvention;
  applyCorrections : option bool;
  zoomLevel : option num
}.

Record NormalizedCoordinate : Type := {
  u : num;
  v : num;
  norm_pixelOffsetX : num;
  norm_pixelOffsetY : num
}.

Record GeoCoordinate : Type := { geo_lat : num; geo_lon : num }.

Record PixelCoordinate : Type := { pix_x : num; pix_y : num }.

Definition createDefaultProjection (body : PlanetaryBodyKey) : SimpleCylindricalProjection :=
  let def := PLANETARY_BODIES body in
  {| proj_body := body;
     centralMeridianDeg := Fin 0;
     primeMeridianOffsetDeg := body_primeMeridianOffsetDeg def;
     lonDirection := defaultLongitudeDirection def;
     lonDomain := defaultLongitudeDomain def;
     radiusMeters := Some (meanRadiusMeters def);
     nativeConvention :=
       Some (match defaultLongitudeDomain def with Dom360 => East360 | Dom180 => East180 end) |}.

(** [options?.zoomLevel] *)
Definition opt_zoom (options : option CoordinateTransformOptions) : option num :=
  match options with Some o => zoomLevel o | None => None end.

(** [options?.applyCorrections !== false] *)
Definition opt_apply (options : option CoordinateTransformOptions) : bool :=
  match options with
  | Some o => match applyCorrections o with Some false => false | _ => true end
  | None => true
  end.

(** [options?.targetConvention ?? "east-180"] *)
Definition opt_target (options : option CoordinateTransformOptions) : LongitudeConvention :=
  match options with
  | Some o => match targetConvention o with Some c => c | None => East180 end
  | None => East180
  end.

Section WithTable.

Variable ALIGNMENT_DATA : string -> option AlignmentCorrection.

Definition latLonToNormalized (latDeg lonDeg : num) (context : ProjectionContext)
    (options : option CoordinateTransformOptions) : NormalizedCoordinate :=
  let proj := projection context in
  let zoomLevel := opt_zoom options in
  let applyCorrections := opt_apply options in
  let lonCanonical := wrapLongitude180 lonDeg in
  let latClamped := nmax (Fin (-90)) (nmin (Fin 90) latDeg) in
  let corrected :=
    if applyCorrections
    then applyAlignmentCorrectionForward ALIGNMENT_DATA
           {| datasetId := ctx_datasetId context; req_lat := latClamped;
              req_lon := lonCanonical; req_zoom := zoomLevel |}
    else {| res_lat := latClamped; res_lon := lonCanonical;
            pixelOffsetX := Fin 0; pixelOffsetY := Fin 0 |} in
  let lonPrimeAdjusted := wrapLongitude180 (nsub (res_lon corrected) (primeMeridianOffsetDeg proj)) in
  let lonRelative := wrapLongitude180 (nsub lonPrimeAdjusted (centralMeridianDeg proj)) in
  let lon360 := convertLongitude lonRelative East180 East360 in
  {| u := ndiv lon360 (Fin 360);
     v := ndiv (nsub (Fin 90) (res_lat corrected)) (Fin 180);
     norm_pixelOffsetX := pixelOffsetX corrected;
     norm_pixelOffsetY := pixelOffsetY corrected |}.

Definition latLonToPixel (latDeg lonDeg : num) (context : ProjectionContext)
    (dimensions : PixelDimensions) (options : option CoordinateTransformOptions)
    : PixelCoordinate :=
  let normalized := latLonToNormalized latDeg lonDeg context options in
  {| pix_x := nadd (nmul (u normalized) (width dimensions)) (norm_pixelOffsetX normalized);
     pix_y := nadd (nmul (v normalized) (height dimensions)) (norm_pixelOffsetY normalized) |}.

Definition pixelToLatLon (x y : num) (context : ProjectionContext)
    (dimensions : PixelDimensions) (options : option CoordinateTransformOptions)
    : GeoCoordinate :=
  let proj := projection context in
  let zoomLevel := opt_zoom options in
  let applyCorrections := opt_apply options in
  let target := opt_target options in
  let u := ndiv x (width dimensions) in
  let v := ndiv y (height dimensions) in
  let lonRelative := convertLongitude (nmul u (Fin 360)) East360 East180 in
  let lonPrimeAdjusted := wrapLongitude180 (nadd lonRelative (centralMeridianDeg proj)) in
  let lonCanonical := wrapLongitude180 (nadd lonPrimeAdjusted (primeMeridianOffsetDeg proj)) in
  let latCanonical := nsub (Fin 90) (nmul v (Fin 180)) in
  if negb applyCorrections then
    {| geo_lat := latCanonical; geo_lon := convertLongitude lonCanonical East180 target |}
  else
    let inverted := applyAlignmentCorrectionInverse ALIGNMENT_DATA
          {| datasetId := ctx_datasetId context; req_lat := latCanonical;
             req_lon := lonCanonical; req_zoom := zoomLevel |} in
    {| geo_lat := res_lat inverted;
       geo_lon := convertLongitude (res_lon inverted) East180 target |}.

End WithTable.

(** the options object [{ applyCorrections: false }] *)
Definition no_corrections : option CoordinateTransformOptions :=
  Some {| targetConvention := None; applyCorrections := Some false; zoomLevel := None |}.

Definition default_context (id : string) (body : PlanetaryBodyKey) : ProjectionContext :=
  {| ctx_datasetId := id; projection := createDefaultProjection body |}.

(** *** Lemmas on the projection *)

Lemma clamp_fin (lat : Q) :
  -90 <= lat <= 90 -> exists c, nmax (Fin (-90)) (nmin (Fin 90) (Fin lat)) = Fin c /\ c == lat.
Proof.
  intros H. unfold nmin, nmax, nlt; cbn [is_nan orb].
  destruct (Qpos_bool (90 - lat)) eqn:E1.
  - destruct (Qpos_bool (lat - -90)) eqn:E2.
    + exists lat. split; reflexivity.
    + exists (-90). split; [reflexivity|].
      unfold Qpos_bool in E2. apply negb_false_iff, Qle_bool_iff in E2. lra.
  - unfold Qpos_bool in E1. apply negb_false_iff, Qle_bool_iff in E1.
    rewrite Qpos_bool_true by lra. exists 90. split; [reflexivity|]. lra.
Qed.

Ltac finarith := repeat (rewrite ?nsub_fin, ?nadd_fin, ?nmul_fin, ?ndiv_fin by lra).

(** with corrections disabled, pixel coordinates read back as the clamped
    latitude and as the representative in (-180,180] of the longitude, for
    any central meridian and prime-meridian offset and positive dimensions *)
Lemma pixel_round_trip_no_corrections
    (tbl : string -> option AlignmentCorrection) (ctx : ProjectionContext)
    (dims : PixelDimensions) (p c W H lat lon : Q) :
  primeMeridianOffsetDeg (projection ctx) = Fin p ->
  centralMeridianDeg (projection ctx) = Fin c ->
  width dims = Fin W -> height dims = Fin H -> 0 < W -> 0 < H ->
  -90 <= lat <= 90 ->
  exists la lo,
    pixelToLatLon tbl (pix_x (latLonToPixel tbl (Fin lat) (Fin lon) ctx dims no_corrections))
      (pix_y (latLonToPixel tbl (Fin lat) (Fin lon) ctx dims no_corrections))
      ctx dims no_corrections = {| geo_lat := Fin la; geo_lon := Fin lo |} /\
    la == lat /\ -180 < lo <= 180 /\ cong lo lon.
Proof.
  intros Hp Hc HW HH W0 H0 Hlat.
  unfold latLonToPixel, latLonToNormalized, pixelToLatLon, no_corrections,
    opt_zoom, opt_apply, opt_target.
  cbn [applyCorrections zoomLevel targetConvention res_lat res_lon pixelOffsetX pixelOffsetY u v norm_pixelOffsetX
       norm_pixelOffsetY pix_x pix_y negb].
  rewrite Hp, Hc, HW, HH.
  destruct (clamp_fin lat Hlat) as [cl [Ecl Hcl]]. rewrite Ecl.
  destruct (wrap180_spec lon) as [l1 [E1 [R1 C1]]]. rewrite E1. finarith.
  destruct (wrap180_spec (l1 + - p)) as [l2 [E2 [R2 C2]]]. rewrite E2. finarith.
  destruct (wrap180_spec (l2 + - c)) as [l3 [E3 [R3 C3]]]. rewrite E3.
  destruct (convertLongitude_spec l3 East180 East360) as [l4 [E4 [R4 C4]]]. rewrite E4.
  finarith.
  destruct (convertLongitude_spec ((l4 / 360 * W + 0) / W * 360) East360 East180)
    as [l5 [E5 [R5 C5]]].
  rewrite E5. finarith.
  destruct (wrap180_spec (l5 + c)) as [l6 [E6 [R6 C6]]]. rewrite E6. finarith.
  destruct (wrap180_spec (l6 + p)) as [l7 [E7 [R7 C7]]]. rewrite E7.
  destruct (convertLongitude_spec l7 East180 East180) as [l8 [E8 [R8 C8]]]. rewrite E8.
  eexists; eexists; split; [reflexivity|].
  split; [rewrite <- Hcl; field; lra|].
  split; [exact R8|].
  cbn [direction in_domain] in *.
  assert (Hu : (l4 / 360 * W + 0) / W * 360 == l4) by (field; lra).
  (* chain the congruences back to [lon] *)
  assert (A8 : cong l8 l7) by (apply (cong_compat (1 * l8) _ (1 * l7)); [ring|ring|exact C8]).
  assert (A5 : cong l5 l4).
  { apply (cong_compat (1 * l5) _ (1 * ((l4 / 360 * W + 0) / W * 360))); [ring| |exact C5].
    rewrite Hu. ring. }
  assert (A4 : cong l4 l3) by (apply (cong_compat (1 * l4) _ (1 * l3)); [ring|ring|exact C4]).
  assert (A6 : cong l6 l2).
  { eapply cong_trans; [exact C6|].
    eapply cong_trans; [apply cong_plus, (cong_trans _ _ _ A5 A4)|].
    eapply cong_trans; [apply cong_plus, C3|].
    apply cong_eqv. ring. }
  assert (A7 : cong l7 l1).
  { eapply cong_trans; [exact C7|].
    eapply cong_trans; [apply cong_plus, A6|].
    eapply cong_trans; [apply cong_plus, C2|].
    apply cong_eqv. ring. }
  eapply cong_trans; [exact A8|]. eapply cong_trans; [exact A7|]. exact C1.
Qed.

(** [wrapLongitude180] turns every non-finite value into [NaN] *)
Lemma wrap180_nonfinite (x : num) : is_finite x = false -> wrapLongitude180 x = NaN.
Proof. destruct x; cbn [is_finite]; [discriminate | reflexivity..]. Qed.

(** [Math.max(-90, Math.min(90, lat))] on a finite latitude *)
Lemma clamp_any (lat : Q) :
  exists c, nmax (Fin (-90)) (nmin (Fin 90) (Fin lat)) = Fin c /\ -90 <= c <= 90 /\
    (-90 <= lat <= 90 -> c == lat) /\ (lat < -90 -> c == -90) /\ (90 < lat -> c == 90).
Proof.
  unfold nmin, nmax, nlt; cbn [is_nan orb].
  destruct (Qlt_le_dec lat 90) as [L1|L1].
  - rewrite (Qpos_bool_true (90 - lat)) by lra.
    destruct (Qlt_le_dec (-90) lat) as [L2|L2].
    + rewrite Qpos_bool_true by lra.
      exists lat. split; [reflexivity|]. repeat split; intros; lra.
    + rewrite Qpos_bool_false by lra.
      exists (-90). split; [reflexivity|]. repeat split; intros; lra.
  - rewrite (Qpos_bool_false (90 - lat)) by lra. rewrite Qpos_bool_true by lra.
    exists 90. split; [reflexivity|]. repeat split; intros; lra.
Qed.

End Projection.

(* ================================================================== *)
(** * Facts about the alignment resolver *)

Module AlignmentFacts.

Import JsNum Geodesy Alignments.
Local Open Scope Q_scope.

(** the rational value of a finite number *)
Definition fq (x : num) : Q := match x with Fin q => q | _ => 0 end.

(** the value of an optional offset field, a missing one counting as [0] *)
Definition fval (o : option num) : Q := match o with Some (Fin q) => q | _ => 0 end.

(** an optional offset field that is missing or finite *)
Definition fin_opt (o : option num) : Prop := nullish o (Fin 0) = Fin (fval o).

Definition zq (e : AlignmentDynamicZoomEntry) : Q := fq (zoom e).

Definition zle (a b : AlignmentDynamicZoomEntry) : Prop := zq a <= zq b.

(** the four offset fields a correction resolves *)
Inductive OffsetField : Type := FLat | FLon | FPx | FPy.

Definition entry_field (f : OffsetField) (e : AlignmentDynamicZoomEntry) : option num :=
  match f with
  | FLat => ze_lat_offset_deg e
  | FLon => ze_lon_offset_deg e
  | FPx => pixel_x (ze_pixel_offset e)
  | FPy => pixel_y (ze_pixel_offset e)
  end.

Definition resolved_field (f : OffsetField) (r : ResolvedOffsets) : num :=
  match f with
  | FLat => latOffset r
  | FLon => lonOffset r
  | FPx => offPixelX r
  | FPy => offPixelY r
  end.

Definition contribution_field (f : OffsetField) (c : ZoomContribution) : num :=
  match f with
  | FLat => zc_lat c
  | FLon => zc_lon c
  | FPx => zc_px c
  | FPy => zc_py c
  end.

(** a breakpoint with a finite zoom and finite (or missing) offsets *)
Definition entry_ok (e : AlignmentDynamicZoomEntry) : Prop :=
  zoom e = Fin (zq e) /\ forall f, fin_opt (entry_field f e).

(** a latitude band with finite bounds and finite (or missing) offsets *)
Definition band_ok (b : AlignmentLatBandEntry) : Prop :=
  min_lat b = Fin (fq (min_lat b)) /\ max_lat b = Fin (fq (max_lat b)) /\
  fin_opt (lb_lat_offset_deg b) /\ fin_opt (lb_lon_offset_deg b).

(** the bands of a correction, an absent list read as empty *)
Definition bands_of (c : option AlignmentCorrection) : list AlignmentLatBandEntry :=
  match dyn_bands c with Some l => l | None => [] end.

(** the interpolated value of one field for the pair found by [bracket] *)
Definition pair_value (z : num) (g : AlignmentDynamicZoomEntry -> option num)
    (p : AlignmentDynamicZoomEntry * AlignmentDynamicZoomEntry) : num :=
  let '(lower, upper) := p in
  let span := nor (nsub (zoom upper) (zoom lower)) (Fin 1) in
  let t := nmax (Fin 0) (nmin (Fin 1) (ndiv (nsub z (zoom lower)) span)) in
  interp t (g lower) (g upper).

(** the value the bracketing loop reaches, on rationals: [prev] is the
    entry seen last *)
Fixpoint loop_value (f : AlignmentDynamicZoomEntry -> Q) (z : Q)
    (prev : AlignmentDynamicZoomEntry) (rest : list AlignmentDynamicZoomEntry) : Q :=
  match rest with
  | [] => f prev
  | e :: rest' =>
      if Qle_bool z (zq prev) then f prev
      else if Qle_bool z (zq e)
      then f prev + (z - zq prev) / (zq e - zq prev) * (f e - f prev)
      else loop_value f z e rest'
  end.

(** spec side: the sum of the offsets of every band whose closed interval
    contains [lat] *)
Fixpoint band_total (g : AlignmentLatBandEntry -> option num) (lat : Q)
    (bands : list AlignmentLatBandEntry) : Q :=
  match bands with
  | [] => 0
  | b :: bs =>
      (if Qle_bool (fq (min_lat b)) lat && Qle_bool lat (fq (max_lat b))
       then fval (g b) else 0) + band_total g lat bs
  end.

(** *** Equality up to the representation of rationals *)

Lemma neqv_refl (x : num) : neqv x x.
Proof. destruct x; cbn; [reflexivity|exact I..]. Qed.

Lemma neqv_sym (x y : num) : neqv x y -> neqv y x.
Proof. destruct x, y; cbn; auto. intros H. symmetry. exact H. Qed.

Lemma neqv_trans (x y w : num) : neqv x y -> neqv y w -> neqv x w.
Proof.
  destruct x, y, w; cbn; try tauto. intros H1 H2. rewrite H1. exact H2.
Qed.

Lemma nadd_neqv (a a' b b' : num) : neqv a a' -> neqv b b' -> neqv (nadd a b) (nadd a' b').
Proof.
  destruct a, a', b, b'; cbn; try tauto. intros H1 H2. rewrite H1, H2. reflexivity.
Qed.

Lemma nadd_assoc_fin (x : num) (a b : Q) :
  neqv (nadd (nadd x (Fin a)) (Fin b)) (nadd x (Fin (a + b))).
Proof. destruct x; cbn; [ring|exact I..]. Qed.

Lemma nadd_zero (x : num) : neqv x (nadd x (Fin 0)).
Proof. destruct x; cbn; [ring|exact I..]. Qed.

Lemma Qle_bool_true (a b : Q) : a <= b -> Qle_bool a b = true.
Proof. apply Qle_bool_iff. Qed.

Lemma Qle_bool_false (a b : Q) : b < a -> Qle_bool a b = false.
Proof.
  intros H. destruct (Qle_bool a b) eqn:E; [|reflexivity].
  apply Qle_bool_iff in E. lra.
Qed.

Lemma Qle_bool_false_lt (a b : Q) : Qle_bool a b = false -> b < a.
Proof.
  intros E. destruct (Qlt_le_dec b a) as [H|H]; [exact H|].
  apply Qle_bool_iff in H. congruence.
Qed.

Lemma nor_fin (s : Q) : ~ s == 0 -> nor (Fin s) (Fin 1) = Fin s.
Proof. intros H. unfold nor, falsy. rewrite Qeq_bool_false by exact H. reflexivity. Qed.

(** *** Resolution without zoom and the latitude bands *)

Lemma resolve_none (c : option AlignmentCorrection) (lat : num) :
  latOffset (resolveDynamicOffsets c lat None) =
    fst (fold_left (band_step lat) (bands_of c)
           (field_or0 c lat_offset_deg, field_or0 c lon_offset_deg)) /\
  lonOffset (resolveDynamicOffsets c lat None) =
    snd (fold_left (band_step lat) (bands_of c)
           (field_or0 c lat_offset_deg, field_or0 c lon_offset_deg)).
Proof.
  unfold resolveDynamicOffsets, bands_of.
  destruct (dyn_bands c) as [[|b bs]|]; [split; reflexivity| |split; reflexivity].
  destruct (fold_left (band_step lat) (b :: bs)
              (field_or0 c lat_offset_deg, field_or0 c lon_offset_deg)) as [x y].
  split; reflexivity.
Qed.

Lemma fold_bands (lat : Q) (bands : list AlignmentLatBandEntry) (x y : num) :
  Forall band_ok bands ->
  neqv (fst (fold_left (band_step (Fin lat)) bands (x, y)))
       (nadd x (Fin (band_total lb_lat_offset_deg lat bands))) /\
  neqv (snd (fold_left (band_step (Fin lat)) bands (x, y)))
       (nadd y (Fin (band_total lb_lon_offset_deg lat bands))).
Proof.
  revert x y. induction bands as [|b bs IH]; intros x y Hok.
  - cbn [fold_left fst snd band_total]. split; apply nadd_zero.
  - inversion Hok as [|? ? [Hmin [Hmax [Hla Hlo]]] Hrest]; subst.
    destruct b as [[mn| | |] [mx| | |] o1 o2]; cbn in Hmin, Hmax; try discriminate.
    cbn [fold_left band_total band_step min_lat max_lat lb_lat_offset_deg lb_lon_offset_deg fq nle]
      in *.
    destruct (Qle_bool mn lat && Qle_bool lat mx).
    + rewrite Hla, Hlo.
      destruct (IH (nadd x (Fin (fval o1))) (nadd y (Fin (fval o2))) Hrest) as [A B].
      split.
      * eapply neqv_trans; [exact A|]. apply nadd_assoc_fin.
      * eapply neqv_trans; [exact B|]. apply nadd_assoc_fin.
    + destruct (IH x y Hrest) as [A B]. split.
      * eapply neqv_trans; [exact A|]. apply nadd_neqv; [apply neqv_refl|]. cbn. ring.
      * eapply neqv_trans; [exact B|]. apply nadd_neqv; [apply neqv_refl|]. cbn. ring.
Qed.

(** the offsets do not depend on the latitude when no band is declared *)
Lemma resolve_no_bands (c : option AlignmentCorrection) (lat lat' : num) (z : option num) :
  dyn_bands c = None \/ dyn_bands c = Some [] ->
  resolveDynamicOffsets c lat z = resolveDynamicOffsets c lat' z.
Proof. intros [H|H]; unfold resolveDynamicOffsets; rewrite H; reflexivity. Qed.

(** the pixel offsets never depend on the latitude *)
Lemma resolve_pixel_lat (c : option AlignmentCorrection) (lat lat' : num) (z : option num) :
  offPixelX (resolveDynamicOffsets c lat z) = offPixelX (resolveDynamicOffsets c lat' z) /\
  offPixelY (resolveDynamicOffsets c lat z) = offPixelY (resolveDynamicOffsets c lat' z).
Proof.
  unfold resolveDynamicOffsets.
  destruct (dyn_bands c) as [[|b bs]|];
    try destruct (fold_left (band_step lat) (b :: bs)
                    (field_or0 c lat_offset_deg, field_or0 c lon_offset_deg));
    try destruct (fold_left (band_step lat') (b :: bs)
                    (field_or0 c lat_offset_deg, field_or0 c lon_offset_deg));
    destruct z; destruct (dyn_zooms c) as [[|e es]|]; split; reflexivity.
Qed.

(** *** Resolution with a zoom *)

Lemma resolve_zoom_split (c : option AlignmentCorrection) (lat z : num)
    (e : AlignmentDynamicZoomEntry) (es : list AlignmentDynamicZoomEntry) (f : OffsetField) :
  dyn_zooms c = Some (e :: es) ->
  resolved_field f (resolveDynamicOffsets c lat (Some z)) =
    nadd (resolved_field f (resolveDynamicOffsets c lat None))
         (contribution_field f (zoom_contribution z e es)).
Proof.
  intros H. unfold resolveDynamicOffsets. rewrite H.
  destruct (match dyn_bands c with Some (b :: bs) => _ | _ => _ end).
  destruct f; reflexivity.
Qed.

Lemma contribution_pair (z : num) (e : AlignmentDynamicZoomEntry)
    (es : list AlignmentDynamicZoomEntry) (f : OffsetField) :
  contribution_field f (zoom_contribution z e es) =
    pair_value z (entry_field f)
      (bracket z (hd e (sort_entries (e :: es))) (last (sort_entries (e :: es)) e)
         (sort_entries (e :: es))).
Proof.
  unfold zoom_contribution, pair_value.
  destruct (bracket z _ _ _). destruct f; reflexivity.
Qed.

Lemma nmin_fin (a b : Q) : nmin (Fin a) (Fin b) = if Qpos_bool (a - b) then Fin b else Fin a.
Proof. reflexivity. Qed.

Lemma nmax_fin (a b : Q) : nmax (Fin a) (Fin b) = if Qpos_bool (b - a) then Fin b else Fin a.
Proof. reflexivity. Qed.

Lemma Qpos_bool_iff (q : Q) : Qpos_bool q = true <-> 0 < q.
Proof.
  unfold Qpos_bool. split.
  - intros H. apply negb_true_iff in H. apply Qle_bool_false_lt in H. exact H.
  - intros H. apply negb_true_iff. apply Qle_bool_false. exact H.
Qed.

(** a pair with the same entry on both ends yields that entry's value *)
Lemma pair_value_same (z : Q) (g : AlignmentDynamicZoomEntry -> option num)
    (p : AlignmentDynamicZoomEntry) :
  zoom p = Fin (zq p) -> fin_opt (g p) ->
  neqv (pair_value (Fin z) g (p, p)) (Fin (fval (g p))).
Proof.
  intros Hz Hg. unfold pair_value, interp. rewrite Hz, Hg.
  unfold nor, falsy. rewrite !nsub_fin.
  replace (Qeq_bool (zq p + - zq p) 0) with true
    by (symmetry; apply Qeq_bool_iff; ring).
  rewrite ndiv_fin by lra.
  rewrite nmin_fin.
  destruct (Qpos_bool (1 - (z + - zq p) / 1)); rewrite nmax_fin;
    match goal with |- context [Qpos_bool ?q] => destruct (Qpos_bool q) end;
    cbn [nadd nmul nopp neqv]; ring.
Qed.

(** a pair of distinct entries around [z] yields the linear interpolation *)
Lemma pair_value_lerp (z : Q) (g : AlignmentDynamicZoomEntry -> option num)
    (p e : AlignmentDynamicZoomEntry) :
  zoom p = Fin (zq p) -> zoom e = Fin (zq e) -> fin_opt (g p) -> fin_opt (g e) ->
  zq p < z -> z < zq e ->
  neqv (pair_value (Fin z) g (p, e))
       (Fin (fval (g p) + (z - zq p) / (zq e - zq p) * (fval (g e) - fval (g p)))).
Proof.
  intros Hzp Hze Hgp Hge H1 H2. unfold pair_value, interp.
  rewrite Hzp, Hze, Hgp, Hge, !nsub_fin, nor_fin by lra.
  rewrite ndiv_fin by lra.
  set (t := (z + - zq p) / (zq e + - zq p)).
  assert (Ht0 : 0 < t).
  { unfold t. apply Qlt_shift_div_l; lra. }
  assert (Ht1 : t < 1).
  { unfold t. apply Qlt_shift_div_r; lra. }
  rewrite nmin_fin. rewrite (proj2 (Qpos_bool_iff (1 - t))) by lra.
  rewrite nmax_fin. rewrite (proj2 (Qpos_bool_iff (t - 0))) by lra.
  cbn [nadd nmul nopp neqv]. unfold t, Qminus. reflexivity.
Qed.

(** the bracketing loop after its first entry *)
Lemma bracket_rec (z : Q) (g : AlignmentDynamicZoomEntry -> option num)
    (s : list AlignmentDynamicZoomEntry) :
  forall (prev d : AlignmentDynamicZoomEntry),
  Forall entry_ok (prev :: s) -> (forall x, In x (prev :: s) -> fin_opt (g x)) ->
  zq prev < z ->
  neqv (pair_value (Fin z) g (bracket (Fin z) prev (last (prev :: s) d) s))
       (Fin (loop_value (fun x => fval (g x)) z prev s)).
Proof.
  induction s as [|e s IH]; intros prev d Hok Hg Hlt.
  - inversion Hok as [|? ? [Hz _] _]; subst.
    cbn [bracket last loop_value]. apply pair_value_same; [exact Hz|apply Hg; left; reflexivity].
  - inversion Hok as [|? ? [Hzp _] Hrest]; subst.
    inversion Hrest as [|? ? [Hze _] Hrest']; subst.
    cbn [bracket loop_value]. rewrite Hze. cbn [nle].
    rewrite (Qle_bool_false z (zq prev)) by exact Hlt.
    destruct (Qle_bool z (zq e)) eqn:E1.
    + apply Qle_bool_iff in E1.
      destruct (Qle_bool (zq e) z) eqn:E2.
      * apply Qle_bool_iff in E2.
        eapply neqv_trans.
        { apply pair_value_same; [exact Hze|apply Hg; right; left; reflexivity]. }
        cbn [neqv].
        assert (Hq : (z - zq prev) / (zq e - zq prev) == 1).
        { assert (He : zq e == z) by lra. rewrite He. field. lra. }
        rewrite Hq. ring.
      * apply Qle_bool_false_lt in E2.
        apply pair_value_lerp;
          [exact Hzp|exact Hze|apply Hg; left; reflexivity|apply Hg; right; left; reflexivity|exact Hlt|exact E2].
    + apply Qle_bool_false_lt in E1.
      rewrite (Qle_bool_true (zq e) z) by lra.
      change (last (prev :: e :: s) d) with (last (e :: s) d).
      apply IH; [exact Hrest| |exact E1].
      intros x Hx. apply Hg. right. exact Hx.
Qed.

(** the whole bracketing loop over a list whose first entry is [s0] *)
Lemma bracket_top (z : Q) (g : AlignmentDynamicZoomEntry -> option num)
    (s0 d : AlignmentDynamicZoomEntry) (s : list AlignmentDynamicZoomEntry) :
  Forall entry_ok (s0 :: s) -> (forall x, In x (s0 :: s) -> fin_opt (g x)) ->
  neqv (pair_value (Fin z) g (bracket (Fin z) s0 (last (s0 :: s) d) (s0 :: s)))
       (Fin (loop_value (fun x => fval (g x)) z s0 s)).
Proof.
  intros Hok Hg.
  inversion Hok as [|? ? [Hz0 _] _]; subst.
  cbn [bracket]. rewrite Hz0. cbn [nle].
  destruct (Qle_bool z (zq s0)) eqn:E1.
  - destruct (Qle_bool (zq s0) z);
      (eapply neqv_trans;
       [apply pair_value_same; [exact Hz0|apply Hg; left; reflexivity]|]);
      destruct s; cbn [loop_value]; try rewrite E1; apply neqv_refl.
  - apply Qle_bool_false_lt in E1.
    rewrite (Qle_bool_true (zq s0) z) by lra.
    apply bracket_rec; [exact Hok|exact Hg|exact E1].
Qed.

(** *** The loop value on a sorted list *)

Lemma loop_value_below (f : AlignmentDynamicZoomEntry -> Q) (z : Q)
    (s0 : AlignmentDynamicZoomEntry) (s : list AlignmentDynamicZoomEntry) :
  z <= zq s0 -> loop_value f z s0 s = f s0.
Proof. intros H. destruct s; cbn [loop_value]; [reflexivity|]. rewrite Qle_bool_true by exact H. reflexivity. Qed.

Lemma loop_value_above (f : AlignmentDynamicZoomEntry -> Q) (z : Q)
    (s : list AlignmentDynamicZoomEntry) :
  forall s0 d, Forall (fun x => zq x < z) (s0 :: s) -> loop_value f z s0 s = f (last (s0 :: s) d).
Proof.
  induction s as [|e s IH]; intros s0 d H; [reflexivity|].
  inversion H as [|? ? H0 H1]; subst. inversion H1 as [|? ? H2 _]; subst.
  cbn [loop_value]. rewrite !Qle_bool_false by assumption.
  rewrite (IH e d H1). reflexivity.
Qed.

(** the bracketing loop reaches the interpolation between the consecutive
    breakpoints [a] and [b] of a sorted list with [zq a < z <= zq b] *)
Lemma loop_value_between (f : AlignmentDynamicZoomEntry -> Q) (z : Q)
    (a b : AlignmentDynamicZoomEntry) (post pre : list AlignmentDynamicZoomEntry) :
  forall s0 rest,
  s0 :: rest = pre ++ a :: b :: post ->
  StronglySorted zle (s0 :: rest) ->
  zq a < z <= zq b ->
  loop_value f z s0 rest = f a + (z - zq a) / (zq b - zq a) * (f b - f a).
Proof.
  induction pre as [|x pre IH]; intros s0 rest Hs Hsort [H1 H2].
  - cbn in Hs. injection Hs as -> ->. cbn [loop_value].
    rewrite Qle_bool_false by exact H1. rewrite Qle_bool_true by exact H2. reflexivity.
  - cbn in Hs. injection Hs as -> Hrest.
    apply StronglySorted_inv in Hsort as [Hsort Hx].
    assert (Ha : In a rest) by (rewrite Hrest; apply in_elt).
    assert (Hxa : zq x <= zq a) by (rewrite Forall_forall in Hx; exact (Hx a Ha)).
    destruct rest as [|y rest']; [destruct Ha|].
    assert (Hya : zq y <= zq a).
    { destruct Ha as [Ha|Ha]; [subst; apply Qle_refl|].
      apply StronglySorted_inv in Hsort as [_ Hy].
      rewrite Forall_forall in Hy. exact (Hy a Ha). }
    cbn [loop_value].
    rewrite (Qle_bool_false z (zq x)) by lra. rewrite (Qle_bool_false z (zq y)) by lra.
    apply (IH y rest' Hrest Hsort). split; assumption.
Qed.

(** *** The breakpoints are sorted by zoom, stably *)

Definition zfin (e : AlignmentDynamicZoomEntry) : Prop := zoom e = Fin (zq e).

Lemma insert_entry_perm (e : AlignmentDynamicZoomEntry) (l : list AlignmentDynamicZoomEntry) :
  Permutation (insert_entry e l) (e :: l).
Proof.
  induction l as [|x r IH]; cbn [insert_entry]; [reflexivity|].
  destruct (nlt (Fin 0) (zoom_cmp x e)); [reflexivity|].
  eapply perm_trans; [apply perm_skip, IH|]. apply perm_swap.
Qed.

Lemma insert_entry_cmp (x e : AlignmentDynamicZoomEntry) :
  zfin x -> zfin e -> nlt (Fin 0) (zoom_cmp x e) = Qpos_bool (zq x + - zq e - 0).
Proof. intros Hx He. unfold zoom_cmp. rewrite Hx, He. reflexivity. Qed.

Lemma insert_entry_sorted (e : AlignmentDynamicZoomEntry) (l : list AlignmentDynamicZoomEntry) :
  zfin e -> (forall x, In x l -> zfin x) -> Sorted zle l -> Sorted zle (insert_entry e l).
Proof.
  intros He. induction l as [|x r IH]; intros Hl Hs; cbn [insert_entry].
  - repeat constructor.
  - rewrite insert_entry_cmp by (auto; apply Hl; left; reflexivity).
    apply Sorted_inv in Hs as [Hr Hxr].
    destruct (Qpos_bool (zq x + - zq e - 0)) eqn:E.
    + apply Qpos_bool_iff in E. constructor; [constructor; assumption|].
      constructor. unfold zle. lra.
    + assert (Hxe : zle x e).
      { unfold zle. destruct (Qlt_le_dec (zq e) (zq x)) as [H|H]; [|exact H].
        rewrite (proj2 (Qpos_bool_iff _)) in E by lra. discriminate E. }
      constructor; [apply IH; [intros y Hy; apply Hl; right; exact Hy|exact Hr]|].
      destruct r as [|y r']; cbn [insert_entry]; [constructor; exact Hxe|].
      destruct (nlt (Fin 0) (zoom_cmp y e)); constructor; [exact Hxe|].
      inversion Hxr; assumption.
Qed.

Lemma sort_entries_spec (l : list AlignmentDynamicZoomEntry) :
  (forall x, In x l -> zfin x) ->
  Permutation (sort_entries l) l /\ Sorted zle (sort_entries l).
Proof.
  intros Hl. unfold sort_entries.
  assert (G : forall acc, (forall x, In x (l ++ acc) -> zfin x) -> Sorted zle acc ->
            Permutation (fold_left (fun acc e => insert_entry e acc) l acc) (l ++ acc) /\
            Sorted zle (fold_left (fun acc e => insert_entry e acc) l acc)).
  { clear Hl. induction l as [|e l IH]; intros acc Hin Hs; cbn [fold_left app].
    - split; [reflexivity|exact Hs].
    - destruct (IH (insert_entry e acc)) as [P S].
      + intros x Hx. apply in_app_or in Hx as [Hx|Hx].
        * apply Hin. right. apply in_or_app. left. exact Hx.
        * apply (Permutation_in _ (insert_entry_perm e acc)) in Hx.
          destruct Hx as [<-|Hx]; apply Hin; [left; reflexivity|].
          right. apply in_or_app. right. exact Hx.
      + apply insert_entry_sorted; [apply Hin; left; reflexivity| |exact Hs].
        intros x Hx. apply Hin. right. apply in_or_app. right. exact Hx.
      + split; [|exact S].
        eapply perm_trans; [exact P|].
        eapply perm_trans; [apply Permutation_app_head, insert_entry_perm|].
        symmetry. apply Permutation_middle. }
  destruct (G [] ltac:(rewrite app_nil_r; exact Hl) ltac:(constructor)) as [P S].
  rewrite app_nil_r in P. split; assumption.
Qed.

(** *** The resolved offsets with a zoom *)

(** with breakpoints whose zooms and offsets are finite, the breakpoints are
    sorted ascending (a stable permutation of the input) and, field by field,
    the resolved offset is the offset without zoom plus: the first sorted
    breakpoint's value when [z] is at or below every breakpoint, the last
    one's when [z] is above every breakpoint, and the linear interpolation
    between the consecutive sorted breakpoints [a], [b] with
    [zoom a < z <= zoom b] otherwise; a missing field counts as [0] *)
Lemma zoom_resolution (c : option AlignmentCorrection) (lat : num) (z : Q)
    (e : AlignmentDynamicZoomEntry) (es : list AlignmentDynamicZoomEntry) :
  dyn_zooms c = Some (e :: es) ->
  Forall entry_ok (e :: es) ->
  Permutation (sort_entries (e :: es)) (e :: es) /\
  Sorted zle (sort_entries (e :: es)) /\
  forall (f : OffsetField) (d : AlignmentDynamicZoomEntry),
  let s := sort_entries (e :: es) in
  let val x := fval (entry_field f x) in
  let base := resolved_field f (resolveDynamicOffsets c lat None) in
  let res := resolved_field f (resolveDynamicOffsets c lat (Some (Fin z))) in
  (Forall (fun x => z <= zq x) s -> neqv res (nadd base (Fin (val (hd d s))))) /\
  (Forall (fun x => zq x < z) s -> neqv res (nadd base (Fin (val (last s d))))) /\
  (forall pre a b post, s = pre ++ a :: b :: post -> zq a < z <= zq b ->
     neqv res (nadd base (Fin (val a + (z - zq a) / (zq b - zq a) * (val b - val a))))).
Proof.
  intros Hz Hok.
  rewrite Forall_forall in Hok.
  destruct (sort_entries_spec (e :: es)) as [P S];
    [intros x Hx; exact (proj1 (Hok x Hx))|].
  split; [exact P|]. split; [exact S|].
  intros f d. cbv zeta.
  set (val := fun x => fval (entry_field f x)).
  set (base := resolved_field f (resolveDynamicOffsets c lat None)).
  set (res := resolved_field f (resolveDynamicOffsets c lat (Some (Fin z)))).
  assert (Hres : neqv res (nadd base (Fin (loop_value val z
            (hd d (sort_entries (e :: es))) (tl (sort_entries (e :: es))))))).
  { unfold res, base. rewrite (resolve_zoom_split c lat (Fin z) e es f Hz).
    apply nadd_neqv; [apply neqv_refl|].
    rewrite contribution_pair.
    assert (Hs : forall x, In x (sort_entries (e :: es)) -> entry_ok x)
      by (intros x Hx; apply Hok; exact (Permutation_in _ P Hx)).
    destruct (sort_entries (e :: es)) as [|s0 srest] eqn:Es.
    { apply Permutation_length in P. discriminate P. }
    cbn [hd tl]. apply bracket_top.
    - rewrite Forall_forall. exact Hs.
    - intros x Hx. exact (proj2 (Hs x Hx) f). }
  destruct (sort_entries (e :: es)) as [|s0 srest] eqn:Es.
  { apply Permutation_length in P. discriminate P. }
  cbn [hd tl] in Hres.
  assert (Hval : forall q, loop_value val z s0 srest == q ->
                 neqv res (nadd base (Fin q))).
  { intros q Hq. eapply neqv_trans; [exact Hres|].
    apply nadd_neqv; [apply neqv_refl|exact Hq]. }
  split; [|split].
  - intros Hb. apply Hval. cbn [hd]. rewrite loop_value_below; [reflexivity|].
    inversion Hb; assumption.
  - intros Ha. apply Hval. rewrite (loop_value_above val z srest s0 d Ha). reflexivity.
  - intros pre a b post Hp Hab. apply Hval.
    rewrite (loop_value_between val z a b post pre s0 srest Hp); [reflexivity| |exact Hab].
    apply Sorted_StronglySorted; [|exact S].
    intros x y w Hxy Hyw. unfold zle in *. lra.
Qed.

End AlignmentFacts.

(* ================================================================== *)
(** * The dataset registry ([src/app/lib/planetary/datasets.ts]) *)

Module Datasets.

Import Projection.
Local Open Scope string_scope.

Inductive DatasetKind : Type := Base | Overlay | Hires | Elevation | Temporal.

Inductive TileScheme : Type := Wmts | Xyz.

Inductive TileYAxis : Type := NorthDown | SouthUp.

Record DatasetTilingMetadata : Type := {
  scheme : TileScheme;
  yAxis : TileYAxis;
  tileSize : Z;
  minZoom : nat;
  maxZoom : nat
}.

(** [DatasetMetadata]; the projection metadata and the optional fields
    ([attribution], [revision], [default], [tags], [overlayGroup],
    [temporal]) are read by none of the functions modelled here and are
    left out *)
Record DatasetMetadata : Type := {
  id : string;
  body : PlanetaryBodyKey;
  title : string;
  kind : DatasetKind;
  template : string;
  compatibilityKey : string;
  tiling : DatasetTilingMetadata
}.

Definition body_key (b : PlanetaryBodyKey) : string :=
  match b with
  | moon => "moon"
  | mars => "mars"
  | mercury => "mercury"
  | ceres => "ceres"
  | vesta => "vesta"
  end.

(** [TREK_COMPAT_KEY = (body) => `${body}-simplecyl-256`] *)
Definition TREK_COMPAT_KEY (b : PlanetaryBodyKey) : string := body_key b ++ "-simplecyl-256".

Definition SOLAR_SYSTEM_DATASETS : list DatasetMetadata := [
  {| id := "moon:lro_wac_global"; body := moon;
     title := "LRO WAC Global Mosaic"; kind := Base;
     template := "https://trek.nasa.gov/tiles/Moon/EQ/LRO_WAC_Mosaic_Global_303ppd_v02/1.0.0/default/default028mm/{z}/{row}/{col}.jpg";
     compatibilityKey := TREK_COMPAT_KEY moon;
     tiling := {| scheme := Wmts; yAxis := NorthDown; tileSize := 256;
                 minZoom := 0; maxZoom := 6 |} |};
  {| id := "moon:lro_nac_apollo"; body := moon;
     title := "LRO NAC Apollo Landing Sites"; kind := Hires;
     template := "https://trek.nasa.gov/tiles/Moon/EQ/LRO_NAC_ApolloLandingSites_100cm/1.0.0/default/default028mm/{z}/{row}/{col}.jpg";
     compatibilityKey := TREK_COMPAT_KEY moon;
     tiling := {| scheme := Wmts; yAxis := NorthDown; tileSize := 256;
                 minZoom := 2; maxZoom := 12 |} |};
  {| id := "moon:lro_lola_elevation"; body := moon;
     title := "LRO LOLA Elevation (Colorized)"; kind := Elevation;
     template := "https://trek.nasa.gov/tiles/Moon/EQ/LRO_LOLA_ClrShade_Global_128ppd_v04/1.0.0/default/default028mm/{z}/{row}/{col}.png";
     compatibilityKey := TREK_COMPAT_KEY moon;
     tiling := {| scheme := Wmts; yAxis := NorthDown; tileSize := 256;
                 minZoom := 0; maxZoom := 9 |} |};
  {| id := "moon:lro_diviner_rock"; body := moon;
     title := "LRO Diviner Rock Abundance"; kind := Overlay;
     template := "https://trek.nasa.gov/tiles/Moon/EQ/LRO_Diviner_Derived_RockAbundance_Global_128ppd_v01/1.0.0/default/default028mm/{z}/{row}/{col}.png";
     compatibilityKey := TREK_COMPAT_KEY moon;
     tiling := {| scheme := Wmts; yAxis := NorthDown; tileSize := 256;
                 minZoom := 0; maxZoom := 8 |} |};
  {| id := "moon:grail_gravity"; body := moon;
     title := "GRAIL Free-air Gravity"; kind := Overlay;
     template := "https://trek.nasa.gov/tiles/Moon/EQ/GRAIL_LGRS_Freair_Gravity_Global_128ppd_v03/1.0.0/default/default028mm/{z}/{row}/{col}.png";
     compatibilityKey := TREK_COMPAT_KEY moon;
     tiling := {| scheme := Wmts; yAxis := NorthDown; tileSize := 256;
                 minZoom := 0; maxZoom := 8 |} |};
  {| id := "mars:mars_mgs_mola"; body := mars;
     title := "MGS MOLA Colorized Shaded Relief"; kind := Base;
     template := "https://trek.nasa.gov/tiles/Mars/EQ/Mars_MGS_MOLA_ClrShade_merge_global_463m/1.0.0/default/default028mm/{z}/{row}/{col}.jpg";
     compatibilityKey := TREK_COMPAT_KEY mars;
     tiling := {| scheme := Wmts; yAxis := NorthDown; tileSize := 256;
                 minZoom := 0; maxZoom := 8 |} |};
  {| id := "mars:mars_viking_mosaic"; body := mars;
     title := "Viking MDIM 2.1 Global Mosaic"; kind := Base;
     template := "https://trek.nasa.gov/tiles/Mars/EQ/Mars_Viking_MDIM21_ClrMosaic_global_232m/1.0.0/default/default028mm/{z}/{row}/{col}.jpg";
     compatibilityKey := TREK_COMPAT_KEY mars;
     tiling := {| scheme := Wmts; yAxis := NorthDown; tileSize := 256;
                 minZoom := 0; maxZoom := 8 |} |};
  {| id := "mars:mars_hirise"; body := mars;
     title := "HiRISE High Resolution Imagery"; kind := Hires;
     template := "https://trek.nasa.gov/tiles/Mars/EQ/Mars_HiRISE_Mosaic_Global_256ppd/1.0.0/default/default028mm/{z}/{row}/{col}.jpg";
     compatibilityKey := TREK_COMPAT_KEY mars;
     tiling := {| scheme := Wmts; yAxis := NorthDown; tileSize := 256;
                 minZoom := 0; maxZoom := 12 |} |};
  {| id := "mars:mars_ctx_mosaic"; body := mars;
     title := "MRO CTX Global Mosaic"; kind := Overlay;
     template := "https://trek.nasa.gov/tiles/Mars/EQ/Mars_MRO_CTX_mosaic_beta01_200ppd/1.0.0/default/default028mm/{z}/{row}/{col}.jpg";
     compatibilityKey := TREK_COMPAT_KEY mars;
     tiling := {| scheme := Wmts; yAxis := NorthDown; tileSize := 256;
                 minZoom := 0; maxZoom := 9 |} |};
  {| id := "mars:mars_thermal_inertia"; body := mars;
     title := "TES Thermal Inertia"; kind := Overlay;
     template := "https://trek.nasa.gov/tiles/Mars/EQ/Mars_MGS_TES_ThermalInertia_mosaic_global_32ppd_v02/1.0.0/default/default028mm/{z}/{row}/{col}.png";
     compatibilityKey := TREK_COMPAT_KEY mars;
     tiling := {| scheme := Wmts; yAxis := NorthDown; tileSize := 256;
                 minZoom := 0; maxZoom := 7 |} |};
  {| id := "mercury:messenger_mdis_basemap"; body := mercury;
     title := "MESSENGER MDIS Basemap"; kind := Base;
     template := "https://trek.nasa.gov/tiles/Mercury/EQ/Mercury_MESSENGER_MDIS_Basemap_EnhancedColor_Mosaic_Global_665m/1.0.0/default/default028mm/{z}/{row}/{col}.jpg";
     compatibilityKey := TREK_COMPAT_KEY mercury;
     tiling := {| scheme := Wmts; yAxis := NorthDown; tileSize := 256;
                 minZoom := 1; maxZoom := 7 |} |};
  {| id := "mercury:messenger_global_mosaic"; body := mercury;
     title := "MESSENGER Global Mosaic"; kind := Base;
     template := "https://trek.nasa.gov/tiles/Mercury/EQ/MESSENGER_MDIS_Mosaic_Global_166m_v02/1.0.0/default/default028mm/{z}/{row}/{col}.jpg";
     compatibilityKey := TREK_COMPAT_KEY mercury;
     tiling := {| scheme := Wmts; yAxis := NorthDown; tileSize := 256;
                 minZoom := 1; maxZoom := 8 |} |};
  {| id := "mercury:messenger_bdr"; body := mercury;
     title := "MESSENGER BDR Mosaic"; kind := Overlay;
     template := "https://trek.nasa.gov/tiles/Mercury/EQ/MESSENGER_MDIS_BDR_Mosaic_Global_166m_v01/1.0.0/default/default028mm/{z}/{row}/{col}.jpg";
     compatibilityKey := TREK_COMPAT_KEY mercury;
     tiling := {| scheme := Wmts; yAxis := NorthDown; tileSize := 256;
                 minZoom := 1; maxZoom := 8 |} |};
  {| id := "mercury:messenger_elevation"; body := mercury;
     title := "MLA Elevation Model"; kind := Elevation;
     template := "https://trek.nasa.gov/tiles/Mercury/EQ/MESSENGER_MLA_DEM_Global_665m_v01/1.0.0/default/default028mm/{z}/{row}/{col}.png";
     compatibilityKey := TREK_COMPAT_KEY mercury;
     tiling := {| scheme := Wmts; yAxis := NorthDown; tileSize := 256;
                 minZoom := 1; maxZoom := 7 |} |};
  {| id := "mercury:messenger_slope"; body := mercury;
     title := "MLA Slope Map"; kind := Overlay;
     template := "https://trek.nasa.gov/tiles/Mercury/EQ/MESSENGER_MLA_Slopes_Global_665m_v01/1.0.0/default/default028mm/{z}/{row}/{col}.png";
     compatibilityKey := TREK_COMPAT_KEY mercury;
     tiling := {| scheme := Wmts; yAxis := NorthDown; tileSize := 256;
                 minZoom := 1; maxZoom := 7 |} |}
].

Definition getDatasetById (datasetId : string) : option DatasetMetadata :=
  find (fun dataset => String.eqb (id dataset) datasetId) SOLAR_SYSTEM_DATASETS.

Definition areDatasetsCompatible (primaryId secondaryId : string) : bool :=
  match getDatasetById primaryId, getDatasetById secondaryId with
  | Some primary, Some secondary => String.eqb (compatibilityKey primary) (compatibilityKey secondary)
  | _, _ => false
  end.

(** [dataset.body === body] *)
Definition PlanetaryBodyKey_eqb (a b : PlanetaryBodyKey) : bool :=
  String.eqb (body_key a) (body_key b).

Definition getDatasetsForBody (b : PlanetaryBodyKey) : list DatasetMetadata :=
  filter (fun dataset => PlanetaryBodyKey_eqb (body dataset) b) SOLAR_SYSTEM_DATASETS.

End Datasets.

(* ================================================================== *)
(** * Tile URL builders *)

Module Tiles.

Local Open Scope Z_scope.

(** [String(n)] of an integer *)
Definition String_of (n : Z) : string := DecimalString.NilZero.string_of_int (Z.to_int n).

(** [s.includes(p)] *)
Definition includes (s p : string) : bool :=
  match String.index 0 p s with Some _ => true | None => false end.

(** [s.replace(p, r)] with a string pattern: the first occurrence only *)
Fixpoint replace_first (p r s : string) : string :=
  if String.prefix p s then (r ++ substring (String.length p) (String.length s - String.length p) s)%string
  else match s with
       | EmptyString => EmptyString
       | String c s' => String c (replace_first p r s')
       end.

(** [s.replace(/p/g, r)] for a literal non-empty [p]: every occurrence,
    left to right and without overlap; [skip] counts the characters of the
    last match still to drop *)
Fixpoint replace_all_from (p r : string) (skip : nat) (s : string) : string :=
  match s with
  | EmptyString => EmptyString
  | String c s' =>
      match skip with
      | S k => replace_all_from p r k s'
      | O => if String.prefix p s
             then (r ++ replace_all_from p r (String.length p - 1) s')%string
             else String c (replace_all_from p r 0 s')
      end
  end.

Definition replace_all (p r s : string) : string := replace_all_from p r 0 s.

(** [getTileUrl] of the single-layer OpenSeadragon viewer (TileViewer,
    first tile source): levels, columns and rows are integers *)
Module SingleLayer.

Definition getTileUrl (tile_url_template : string) (minZoom : nat)
    (level : nat) (x y : Z) : string :=
  let maxTiles := 2 ^ Z.of_nat level in
  let x := Z.rem (Z.rem x maxTiles + maxTiles) maxTiles in
  if (y <? 0) || (maxTiles <=? y) then ""%string
  else
    let z := Z.of_nat (level + minZoom) in
    replace_first "{row}" (String_of y)
      (replace_first "{col}" (String_of x)
        (replace_first "{y}" (String_of y)
          (replace_first "{x}" (String_of x)
            (replace_first "{z}" (String_of z) tile_url_template)))).

End SingleLayer.

(** [getTileUrl] of the template-based OpenSeadragon viewer (TileViewer,
    second tile source); [minZoom] is [layerConfig.min_zoom ?? 0] *)
Module TemplateLayer.

Definition getTileUrl (template : string) (minZoom : nat)
    (level : nat) (x y : Z) : string :=
  let z := Z.of_nat (level + minZoom) in
  let maxTiles := 2 ^ Z.of_nat level in
  let wrappedX := Z.rem (Z.rem x maxTiles + maxTiles) maxTiles in
  if (y <? 0) || (maxTiles <=? y) then ""%string
  else
    let finalY := if includes template "gibs.earthdata.nasa.gov" then 2 ^ z - 1 - y else y in
    let finalX := wrappedX in
    replace_all "{y}" (String_of finalY)
      (replace_all "{x}" (String_of finalX)
        (replace_all "{col}" (String_of finalX)
          (replace_all "{row}" (String_of finalY)
            (replace_all "{z}" (String_of z) template)))).

End TemplateLayer.

(** [getTileUrl] of [createTileSource(dataset)] in [PlanetaryMap.tsx] *)
Module PlanetaryMap.

Import Datasets.

Definition getTileUrl (dataset : DatasetMetadata) (level : nat) (x y : Z) : string :=
  let z := Z.of_nat (level + minZoom (tiling dataset)) in
  let tilesPerAxis := 2 ^ Z.of_nat level in
  let wrappedX := Z.rem (Z.rem x tilesPerAxis + tilesPerAxis) tilesPerAxis in
  if (y <? 0) || (tilesPerAxis <=? y) then ""%string
  else
    let row := if includes (template dataset) "gibs.earthdata.nasa.gov" then 2 ^ z - 1 - y else y in
    let col := wrappedX in
    replace_all "{y}" (String_of row)
      (replace_all "{x}" (String_of col)
        (replace_all "{col}" (String_of col)
          (replace_all "{row}" (String_of row)
            (replace_all "{z}" (String_of z) (template dataset))))).

End PlanetaryMap.

(** *** Lemmas *)

Lemma wrap_column_mod (x n : Z) : 0 < n -> Z.rem (Z.rem x n + n) n = x mod n.
Proof.
  intros Hn.
  assert (Hb : Z.abs (Z.rem x n) < Z.abs n) by (apply Z.rem_bound_abs; lia).
  rewrite Z.rem_mod_nonneg by lia.
  rewrite <- (Z.mul_1_l n) at 2. rewrite Z.mod_add by lia.
  rewrite (Z.quot_rem' x n) at 2. rewrite Z.add_comm, Z.mul_comm, Z.mod_add by lia.
  reflexivity.
Qed.

Lemma wrap_column_period (x n : Z) : 0 < n ->
  Z.rem (Z.rem (x + n) n + n) n = Z.rem (Z.rem x n + n) n.
Proof.
  intros Hn. rewrite !wrap_column_mod by exact Hn.
  rewrite <- (Z.mul_1_l n) at 1. rewrite Z.mod_add by lia. reflexivity.
Qed.

Lemma pow2_pos (level : nat) : 0 < 2 ^ Z.of_nat level.
Proof. apply Z.pow_pos_nonneg; lia. Qed.

End Tiles.

(* ------------------------------------------------------------------ *)
(** ** Reverse search: the nearest feature *)

Module ReverseSearch.

Import Reals Lra.
Local Open Scope R_scope.

(** [BodyKey] of the tile viewer; [body] is a string cast to it *)
Inductive BodyKey : Type :=
| earth | milky_way | moon | mars | mercury | ceres | vesta | unknown.

Definition BodyKey_name (k : BodyKey) : string :=
  match k with
  | earth => "earth" | milky_way => "milky_way" | moon => "moon" | mars => "mars"
  | mercury => "mercury" | ceres => "ceres" | vesta => "vesta" | unknown => "unknown"
  end.

(** the members every object literal inherits from [Object.prototype] *)
Definition OBJECT_PROTOTYPE_MEMBERS : list string :=
  (["constructor"; "hasOwnProperty"; "isPrototypeOf"; "propertyIsEnumerable";
    "toLocaleString"; "toString"; "valueOf"; "__proto__"; "__defineGetter__";
    "__defineSetter__"; "__lookupGetter__"; "__lookupSetter__"])%string.

(** what the object literals [BODY_RADII_KM] and [BODY_LONGITUDE_CONVENTIONS]
    give when indexed by the string [body] ([body as BodyKey] checks
    nothing): the entry of one of their own keys, a member inherited from
    [Object.prototype] (a function, or the prototype object itself for
    [__proto__]: neither a number nor nullish), or [undefined] *)
Inductive KeyLookup : Type := Own (k : BodyKey) | Inherited | Missing.

Definition body_key_of (s : string) : KeyLookup :=
  match find (fun k => String.eqb (BodyKey_name k) s)
             [earth; milky_way; moon; mars; mercury; ceres; vesta; unknown] with
  | Some k => Own k
  | None => if existsb (String.eqb s) OBJECT_PROTOTYPE_MEMBERS then Inherited else Missing
  end.

Definition BODY_RADII_KM (k : BodyKey) : R :=
  match k with
  | earth => 6371 | milky_way => 6371 | moon => 17374 / 10 | mars => 33895 / 10
  | mercury => 24397 / 10 | ceres => 4697 / 10 | vesta => 2627 / 10 | unknown => 6371
  end.

Inductive LongitudeDirection := east | west.
Inductive LongitudeDomain := dom180 | dom360.

Record LongitudeConvention : Type := { direction : LongitudeDirection; domain : LongitudeDomain }.

Definition DEFAULT_CONVENTION : LongitudeConvention := {| direction := east; domain := dom360 |}.

Definition BODY_LONGITUDE_CONVENTIONS (k : BodyKey) : LongitudeConvention :=
  {| direction := east; domain := dom360 |}.

(** truncation towards zero and JavaScript's [%] on reals *)
Definition rtrunc (x : R) : Z :=
  if Rle_dec 0 x then Int_part x else (- Int_part (- x))%Z.

Definition rrem (a b : R) : R := a - b * IZR (rtrunc (a / b)).

(** [wrapLongitude360] and [wrapLongitude180] of [lib/coordinates] on finite values *)
Definition wrapLongitude360 (value : R) : R := rrem (rrem value 360 + 360) 360.

Definition wrapLongitude180 (value : R) : R := rrem (rrem (value + 180) 360 + 360) 360 - 180.

(** [normalizeLongitude] of [lib/coordinates] on finite values *)
Definition normalizeLongitude (value : R) (convention : LongitudeConvention) : R :=
  let lon := match domain convention with
             | dom360 => wrapLongitude360 value
             | dom180 => wrapLongitude180 value
             end in
  let lon := match direction convention with
             | west => match domain convention with
                       | dom360 => wrapLongitude360 (360 - lon)
                       | dom180 => - lon
                       end
             | east => lon
             end in
  wrapLongitude180 lon.

(** [Math.atan2] (signed zeros aside) *)
Definition atan2 (y x : R) : R :=
  if Rlt_dec 0 x then atan (y / x)
  else if Rlt_dec x 0 then (if Rle_dec 0 y then atan (y / x) + PI else atan (y / x) - PI)
  else if Rlt_dec 0 y then PI / 2
  else if Rlt_dec y 0 then - (PI / 2)
  else 0.

Record PlanetFeature : Type := {
  name : string; lat : R; lon : R; diamkm : option R
}.

(** a number of the search: a real, or [NaN] *)
Inductive jsnum : Type := JFin (r : R) | JNaN.

(** [x < y] on numbers: false when either side is [NaN] *)
Definition jlt (x y : jsnum) : bool :=
  match x, y with
  | JFin a, JFin b => if Rlt_dec a b then true else false
  | _, _ => false
  end.

(** the [calculateDistance] closure of [handleReverseSearch] *)
Definition calculateDistance (body : string) (lat1 lon1 lat2 lon2 : R) : jsnum :=
  let bodyKey := body_key_of body in
  (* [BODY_RADII_KM[bodyKey] ?? BODY_RADII_KM.unknown]: an inherited member
     is not nullish and is kept, and [R * c] turns it into NaN *)
  let R_ := match bodyKey with
            | Own k => JFin (BODY_RADII_KM k)
            | Missing => JFin (BODY_RADII_KM unknown)
            | Inherited => JNaN
            end in
  (* [BODY_LONGITUDE_CONVENTIONS[bodyKey]]: [undefined] takes the default
     parameter of [normalizeLongitude], and spreading an inherited member
     over [DEFAULT_CONVENTION] copies no field *)
  let conv := match bodyKey with Own k => BODY_LONGITUDE_CONVENTIONS k | _ => DEFAULT_CONVENTION end in
  let lon1Canonical := normalizeLongitude lon1 conv in
  let lon2Canonical := normalizeLongitude lon2 conv in
  let dLat := (lat2 - lat1) * PI / 180 in
  let dLon := (lon2Canonical - lon1Canonical) * PI / 180 in
  let a := sin (dLat / 2) * sin (dLat / 2) +
           cos (lat1 * PI / 180) * cos (lat2 * PI / 180) *
           sin (dLon / 2) * sin (dLon / 2) in
  let c := 2 * atan2 (sqrt a) (sqrt (1 - a)) in
  match R_ with JFin r => JFin (r * c) | JNaN => JNaN end.

(** the search of [handleReverseSearch] (tile viewer): with no feature
    loaded it returns early ([None]); otherwise the loop ends with
    [nearestFeature] and [minDistance], which the source passes on (the
    feature) and logs (the distance), returned here as a pair.  Coordinates
    are modelled as finite reals, distances as reals or NaN. *)
Definition handleReverseSearch (lat_ lon_ : R) (body : string) (features : list PlanetFeature)
    : option (PlanetFeature * jsnum) :=
  match features with
  | [] => None
  | f0 :: _ =>
      let minDistance := calculateDistance body lat_ lon_ (lat f0) (lon f0) in
      Some (fold_left
              (fun '(nearestFeature, minDistance) feature =>
                 let distance := calculateDistance body lat_ lon_ (lat feature) (lon feature) in
                 if jlt distance minDistance then (feature, distance)
                 else (nearestFeature, minDistance))
              features (f0, minDistance))
  end.

(** the haversine formula: [a] of two points, the central angle [c] of
    [a], and the distance on a sphere of radius [radius] *)
Definition hav_a (lat1 lon1 lat2 lon2 : R) : R :=
  let dLat := (lat2 - lat1) * PI / 180 in
  let dLon := (lon2 - lon1) * PI / 180 in
  sin (dLat / 2) ^ 2 + cos (lat1 * PI / 180) * cos (lat2 * PI / 180) * sin (dLon / 2) ^ 2.

Definition hav_c (a : R) : R := 2 * atan2 (sqrt a) (sqrt (1 - a)).

Definition haversine_km (radius lat1 lon1 lat2 lon2 : R) : R :=
  radius * hav_c (hav_a lat1 lon1 lat2 lon2).

(** the radius [BODY_RADII_KM[bodyKey] ?? BODY_RADII_KM.unknown] of the
    closure, for a body whose name is not an inherited member *)
Definition body_radius (body : string) : R :=
  match body_key_of body with Own k => BODY_RADII_KM k | _ => BODY_RADII_KM unknown end.

(** the search helpers of [part_011]: a module-level [calculateDistance]
    with a fixed radius and no longitude normalization, and the proximity
    filter that uses it *)
Module SearchHelpers.

Definition calculateDistance (lat1 lon1 lat2 lon2 : R) : R :=
  let R_ := 3390 in
  let dLat := (lat2 - lat1) * PI / 180 in
  let dLon := (lon2 - lon1) * PI / 180 in
  let a := sin (dLat / 2) * sin (dLat / 2) +
           cos (lat1 * PI / 180) * cos (lat2 * PI / 180) *
           sin (dLon / 2) * sin (dLon / 2) in
  let c := 2 * atan2 (sqrt a) (sqrt (1 - a)) in
  R_ * c.

(** [candidates.filter(f => calculateDistance(f.lat, f.lon, ref.lat, ref.lon) <= maxDistance)]
    with [maxDistance = proximity.km || 1000] ([km] absent or [0] gives 1000) *)
Definition proximity_filter (candidates : list PlanetFeature) (referenceFeature : PlanetFeature)
    (km : option R) : list PlanetFeature :=
  let maxDistance := match km with
                     | Some k => if Req_dec_T k 0 then 1000 else k
                     | None => 1000
                     end in
  filter (fun f => if Rle_dec (calculateDistance (lat f) (lon f)
                                 (lat referenceFeature) (lon referenceFeature)) maxDistance
                   then true else false) candidates.

End SearchHelpers.

Lemma rrem_shift (a : R) : exists k : Z, rrem a 360 = a + 360 * IZR k.
Proof. exists (- rtrunc (a / 360))%Z. unfold rrem. rewrite opp_IZR. ring. Qed.

Lemma wrap360_shift (a : R) : exists k : Z, wrapLongitude360 a = a + 360 * IZR k.
Proof.
  unfold wrapLongitude360.
  destruct (rrem_shift a) as [k1 E1]. rewrite E1.
  destruct (rrem_shift (a + 360 * IZR k1 + 360)) as [k2 E2]. rewrite E2.
  exists (k1 + 1 + k2)%Z. rewrite !plus_IZR. ring.
Qed.

Lemma wrap180_shift (a : R) : exists k : Z, wrapLongitude180 a = a + 360 * IZR k.
Proof.
  unfold wrapLongitude180.
  destruct (rrem_shift (a + 180)) as [k1 E1]. rewrite E1.
  destruct (rrem_shift (a + 180 + 360 * IZR k1 + 360)) as [k2 E2]. rewrite E2.
  exists (k1 + 1 + k2)%Z. rewrite !plus_IZR. ring.
Qed.

Lemma normalize_shift (a : R) (c : LongitudeConvention) :
  direction c = east -> exists k : Z, normalizeLongitude a c = a + 360 * IZR k.
Proof.
  intros Hd. unfold normalizeLongitude. rewrite Hd.
  destruct (domain c).
  - destruct (wrap180_shift a) as [k1 E1]. rewrite E1.
    destruct (wrap180_shift (a + 360 * IZR k1)) as [k2 E2]. rewrite E2.
    exists (k1 + k2)%Z. rewrite plus_IZR. ring.
  - destruct (wrap360_shift a) as [k1 E1]. rewrite E1.
    destruct (wrap180_shift (a + 360 * IZR k1)) as [k2 E2]. rewrite E2.
    exists (k1 + k2)%Z. rewrite plus_IZR. ring.
Qed.

Lemma sin_sqr_shift (x : R) (k : Z) : sin (x + IZR k * PI) ^ 2 = sin x ^ 2.
Proof.
  revert x. induction k using Z.peano_ind; intros x.
  - rewrite Rmult_0_l, Rplus_0_r. reflexivity.
  - rewrite succ_IZR.
    replace (x + (IZR k + 1) * PI) with ((x + IZR k * PI) + PI) by ring.
    rewrite neg_sin. rewrite <- IHk. ring.
  - rewrite <- Z.sub_1_r, minus_IZR.
    rewrite <- (IHk x).
    replace (x + IZR k * PI) with ((x + (IZR k - 1) * PI) + PI) by ring.
    rewrite neg_sin. ring.
Qed.

(** with an eastward convention, the [a] of the closure is [hav_a] of the
    points as given: normalizing a longitude moves it by whole turns *)
Lemma hav_a_normalized (c : LongitudeConvention) (lat1 lon1 lat2 lon2 : R) :
  direction c = east ->
  sin ((lat2 - lat1) * PI / 180 / 2) * sin ((lat2 - lat1) * PI / 180 / 2) +
  cos (lat1 * PI / 180) * cos (lat2 * PI / 180) *
  sin ((normalizeLongitude lon2 c - normalizeLongitude lon1 c) * PI / 180 / 2) *
  sin ((normalizeLongitude lon2 c - normalizeLongitude lon1 c) * PI / 180 / 2) =
  hav_a lat1 lon1 lat2 lon2.
Proof.
  intros Hc. unfold hav_a. cbv zeta.
  destruct (normalize_shift lon1 c Hc) as [k1 E1].
  destruct (normalize_shift lon2 c Hc) as [k2 E2].
  rewrite E1, E2.
  assert (Hs := sin_sqr_shift ((lon2 - lon1) * PI / 180 / 2) (k2 - k1)).
  replace ((lon2 - lon1) * PI / 180 / 2 + IZR (k2 - k1) * PI)
    with ((lon2 + 360 * IZR k2 - (lon1 + 360 * IZR k1)) * PI / 180 / 2) in Hs
    by (rewrite minus_IZR; field).
  assert (Ha : forall (s1 c1 c2 s2 : R),
             s1 * s1 + c1 * c2 * s2 * s2 = s1 ^ 2 + c1 * c2 * s2 ^ 2) by (intros; ring).
  rewrite Ha, Hs. reflexivity.
Qed.

(** the code's distance is the haversine distance with the body's own radius *)
Lemma calculateDistance_haversine (k : BodyKey) (lat1 lon1 lat2 lon2 : R) :
  calculateDistance (BodyKey_name k) lat1 lon1 lat2 lon2 =
  JFin (haversine_km (BODY_RADII_KM k) lat1 lon1 lat2 lon2).
Proof.
  assert (Hk : body_key_of (BodyKey_name k) = Own k) by (destruct k; reflexivity).
  unfold calculateDistance, haversine_km, hav_c. rewrite Hk. cbv beta iota zeta.
  rewrite hav_a_normalized by (destruct k; reflexivity). reflexivity.
Qed.

Lemma jlt_fin (a b : R) : jlt (JFin a) (JFin b) = true <-> a < b.
Proof.
  cbn [jlt]. destruct (Rlt_dec a b); split; intros H; (lra || discriminate H || reflexivity).
Qed.

Lemma jlt_fin_false (a b : R) : jlt (JFin a) (JFin b) = false -> b <= a.
Proof. cbn [jlt]. destruct (Rlt_dec a b); intros H; [discriminate H|lra]. Qed.

Lemma fold_nearest (dist : PlanetFeature -> jsnum) (dr : PlanetFeature -> R)
    (Hd : forall g, dist g = JFin (dr g)) (l : list PlanetFeature) :
  forall f,
  let '(f', d') :=
    fold_left (fun '(nearestFeature, minDistance) feature =>
                 if jlt (dist feature) minDistance then (feature, dist feature)
                 else (nearestFeature, minDistance)) l (f, dist f) in
  d' = dist f' /\ dr f' <= dr f /\ (f' = f \/ In f' l) /\ (forall g, In g l -> dr f' <= dr g).
Proof.
  induction l as [|x l IH]; intros f; cbn [fold_left].
  - split; [reflexivity|]. split; [lra|]. split; [left; reflexivity|]. intros g [].
  - destruct (jlt (dist x) (dist f)) eqn:J; rewrite !Hd in J;
      [apply jlt_fin in J as Hlt|apply jlt_fin_false in J as Hge].
    + specialize (IH x).
      destruct (fold_left _ l (x, dist x)) as [f' d'].
      destruct IH as [E [Le [Hin Hmin]]].
      split; [exact E|]. split; [lra|]. split.
      * right. destruct Hin as [->|Hin]; [left; reflexivity|right; exact Hin].
      * intros g [<-|Hg]; [exact Le|exact (Hmin g Hg)].
    + specialize (IH f).
      destruct (fold_left _ l (f, dist f)) as [f' d'].
      destruct IH as [E [Le [Hin Hmin]]].
      split; [exact E|]. split; [exact Le|]. split.
      * destruct Hin as [->|Hin]; [left; reflexivity|right; right; exact Hin].
      * intros g [<-|Hg]; [lra|exact (Hmin g Hg)].
Qed.

Lemma nearest_spec (dist : PlanetFeature -> jsnum) (dr : PlanetFeature -> R)
    (Hd : forall g, dist g = JFin (dr g)) (f0 : PlanetFeature) (fs : list PlanetFeature) :
  let '(f', d') :=
    fold_left (fun '(nearestFeature, minDistance) feature =>
                 if jlt (dist feature) minDistance then (feature, dist feature)
                 else (nearestFeature, minDistance)) (f0 :: fs) (f0, dist f0) in
  In f' (f0 :: fs) /\ d' = JFin (dr f') /\ (forall g, In g (f0 :: fs) -> dr f' <= dr g).
Proof.
  pose proof (fold_nearest dist dr Hd (f0 :: fs) f0) as H.
  destruct (fold_left _ (f0 :: fs) (f0, dist f0)) as [f' d'].
  destruct H as [E [_ [Hin Hmin]]].
  split; [destruct Hin as [->|Hin]; [left; reflexivity|exact Hin]|].
  split; [rewrite E; apply Hd|exact Hmin].
Qed.

(** when every distance is NaN no comparison succeeds: the loop keeps its start *)
Lemma fold_nan (dist : PlanetFeature -> jsnum) (Hd : forall g, dist g = JNaN)
    (l : list PlanetFeature) :
  forall f,
  fold_left (fun '(nearestFeature, minDistance) feature =>
               if jlt (dist feature) minDistance then (feature, dist feature)
               else (nearestFeature, minDistance)) l (f, JNaN) = (f, JNaN).
Proof.
  induction l as [|x l IH]; intros f; cbn [fold_left]; [reflexivity|].
  rewrite Hd. cbn [jlt]. exact (IH f).
Qed.

(** [c] grows with [a] on [0,1) *)
Lemma hav_c_lt (a1 a2 : R) : 0 <= a1 -> a1 < a2 -> a2 < 1 -> hav_c a1 < hav_c a2.
Proof.
  intros H0 H12 H1. unfold hav_c, atan2.
  assert (P1 : 0 < sqrt (1 - a1)) by (apply sqrt_lt_R0; lra).
  assert (P2 : 0 < sqrt (1 - a2)) by (apply sqrt_lt_R0; lra).
  destruct (Rlt_dec 0 (sqrt (1 - a1))) as [_|N]; [|lra].
  destruct (Rlt_dec 0 (sqrt (1 - a2))) as [_|N]; [|lra].
  apply Rmult_lt_compat_l; [lra|]. apply atan_increasing.
  assert (S12 : sqrt a1 < sqrt a2) by (apply sqrt_lt_1; lra).
  assert (T21 : sqrt (1 - a2) < sqrt (1 - a1)) by (apply sqrt_lt_1; lra).
  assert (S0 : 0 <= sqrt a1) by apply sqrt_pos.
  apply Rle_lt_trans with (sqrt a1 / sqrt (1 - a2)).
  - unfold Rdiv. apply Rmult_le_compat_l; [exact S0|].
    apply Rinv_le_contravar; lra.
  - unfold Rdiv. apply Rmult_lt_compat_r; [apply Rinv_0_lt_compat; lra|exact S12].
Qed.

Lemma PI_bounds : 3 < PI <= 4.
Proof. pose proof PI2_3_2. pose proof PI_4. lra. Qed.

(** [a] for two points [m] degrees apart in both latitude and longitude *)
Lemma hav_a_diag (lat1 lon1 lat2 lon2 m : R) :
  lat2 - lat1 = m -> lon2 - lon1 = m ->
  -90 <= lat1 <= 90 -> -90 <= lat2 <= 90 ->
  sin (m * PI / 360) ^ 2 <= hav_a lat1 lon1 lat2 lon2 <= 2 * sin (m * PI / 360) ^ 2.
Proof.
  intros Hla Hlo L1 L2. unfold hav_a. cbv zeta.
  replace ((lat2 - lat1) * PI / 180 / 2) with (m * PI / 360) by (rewrite Hla; field).
  replace ((lon2 - lon1) * PI / 180 / 2) with (m * PI / 360) by (rewrite Hlo; field).
  pose proof PI_bounds.
  assert (C1 : 0 <= cos (lat1 * PI / 180)) by (apply cos_ge_0; nra).
  assert (C2 : 0 <= cos (lat2 * PI / 180)) by (apply cos_ge_0; nra).
  pose proof (COS_bound (lat1 * PI / 180)). pose proof (COS_bound (lat2 * PI / 180)).
  set (p := cos (lat1 * PI / 180) * cos (lat2 * PI / 180)).
  assert (P0 : 0 <= p) by (apply Rmult_le_pos; assumption).
  assert (P1 : p <= 1) by (unfold p; nra).
  set (s := sin (m * PI / 360) ^ 2).
  assert (S0 : 0 <= s) by (unfold s; apply pow2_ge_0).
  split; nra.
Qed.

Lemma sin_sqr_neg (x : R) : sin (- x) ^ 2 = sin x ^ 2.
Proof. rewrite sin_neg. ring. Qed.

(** a small angle [y] at least twice [x]: [2 sin^2 x < sin^2 y] *)
Lemma sin_double_bound (x y : R) :
  0 < x -> x <= 1 / 2 -> 2 * x <= y -> y <= PI / 2 -> 2 * sin x ^ 2 < sin y ^ 2.
Proof.
  intros X0 X1 XY Y1. pose proof PI_bounds.
  assert (Sx : 0 < sin x) by (apply sin_gt_0; lra).
  assert (Lx : sin x < x) by (apply sin_lt_x; lra).
  assert (Cx : 0 < cos x) by (apply cos_gt_0; lra).
  assert (Pyth : sin x ^ 2 + cos x ^ 2 = 1) by (pose proof (sin2_cos2 x); unfold Rsqr in *; nra).
  assert (D : sin (2 * x) <= sin y).
  { destruct (Rle_lt_or_eq_dec _ _ XY) as [Lt|Eq].
    - left. apply sin_increasing_1; lra.
    - rewrite Eq. lra. }
  rewrite sin_2a in D.
  assert (S4 : sin x ^ 2 < 1 / 4) by nra.
  assert (Q : 3 * sin x ^ 2 < (2 * sin x * cos x) ^ 2).
  { replace ((2 * sin x * cos x) ^ 2) with (4 * sin x ^ 2 * (1 - sin x ^ 2)) by (rewrite <- Pyth; ring).
    assert (0 < sin x ^ 2) by (apply pow_lt; exact Sx). nra. }
  assert (0 < 2 * sin x * cos x) by (apply Rmult_lt_0_compat; lra).
  nra.
Qed.

Lemma sin_sqr_small (y : R) : 0 < y -> y <= 1 / 2 -> sin y ^ 2 < 1 / 4.
Proof.
  intros Y0 Y1. pose proof PI_bounds.
  assert (0 < sin y) by (apply sin_gt_0; lra).
  assert (sin y < y) by (apply sin_lt_x; lra).
  nra.
Qed.

Lemma sin_sqr_abs (m : R) : sin (m * PI / 360) ^ 2 = sin (Rabs m * PI / 360) ^ 2.
Proof.
  unfold Rabs. destruct (Rcase_abs m); [|reflexivity].
  replace (- m * PI / 360) with (- (m * PI / 360)) by field. rewrite sin_sqr_neg. reflexivity.
Qed.

(** a point [m] degrees away (diagonally) is nearer than one at least
    twice as far *)
Lemma haversine_lt (radius lat1 lon1 lat2 lon2 lat3 lon3 m n : R) :
  0 < radius -> lat2 - lat1 = m -> lon2 - lon1 = m -> lat3 - lat1 = n -> lon3 - lon1 = n ->
  -90 <= lat1 <= 90 -> -90 <= lat2 <= 90 -> -90 <= lat3 <= 90 ->
  0 < Rabs m -> 2 * Rabs m <= Rabs n -> Rabs n <= 45 ->
  haversine_km radius lat1 lon1 lat2 lon2 < haversine_km radius lat1 lon1 lat3 lon3.
Proof.
  intros R0 H2a H2o H3a H3o L1 L2 L3 M0 MN N1. pose proof PI_bounds.
  pose proof (hav_a_diag lat1 lon1 lat2 lon2 m H2a H2o L1 L2) as [A2l A2u].
  pose proof (hav_a_diag lat1 lon1 lat3 lon3 n H3a H3o L1 L3) as [A3l A3u].
  rewrite sin_sqr_abs in A2l, A2u, A3l, A3u.
  assert (D : 2 * sin (Rabs m * PI / 360) ^ 2 < sin (Rabs n * PI / 360) ^ 2)
    by (apply sin_double_bound; nra).
  assert (Sm : sin (Rabs n * PI / 360) ^ 2 < 1 / 4) by (apply sin_sqr_small; nra).
  assert (S0 : 0 <= sin (Rabs m * PI / 360) ^ 2) by apply pow2_ge_0.
  unfold haversine_km. apply Rmult_lt_compat_l; [exact R0|].
  apply hav_c_lt; lra.
Qed.

Definition feature_at (n : string) (la lo : R) : PlanetFeature :=
  {| name := n; lat := la; lon := lo; diamkm := None |}.

Definition feature_A := feature_at "A" 0 0.
Definition feature_B := feature_at "B" 10 10.
Definition feature_C := feature_at "C" (-5) (-5).
Definition mars_features := [feature_A; feature_B; feature_C].

Ltac rabs := unfold Rabs; repeat destruct Rcase_abs; lra.

(** one iteration of the search loop on a concrete feature *)
Ltac nearest_step :=
  match goal with
  | |- context [Rlt_dec (haversine_km ?r ?a ?b ?c ?d) ?m] =>
      destruct (Rlt_dec (haversine_km r a b c d) m); [try lra | try lra]
  end;
  cbn [jlt lat lon feature_A feature_B feature_C feature_at];
  rewrite ?calculateDistance_haversine; cbn [jlt].

Lemma mars_radius_pos : 0 < BODY_RADII_KM mars.
Proof. cbn [BODY_RADII_KM]. lra. Qed.

Lemma mars_nearest_1_1 : handleReverseSearch 1 1 "mars" mars_features =
              Some (feature_A, JFin (haversine_km (BODY_RADII_KM mars) 1 1 0 0)).
Proof.
  pose proof mars_radius_pos.
  assert (HB : haversine_km (BODY_RADII_KM mars) 1 1 0 0 < haversine_km (BODY_RADII_KM mars) 1 1 10 10)
    by (apply (haversine_lt _ _ _ _ _ _ _ (-1) 9); (lra || rabs)).
  assert (HC : haversine_km (BODY_RADII_KM mars) 1 1 0 0 < haversine_km (BODY_RADII_KM mars) 1 1 (-5) (-5))
    by (apply (haversine_lt _ _ _ _ _ _ _ (-1) (-6)); (lra || rabs)).
  unfold handleReverseSearch, mars_features. cbv zeta. cbn [fold_left].
  cbn [lat lon feature_A feature_B feature_C feature_at].
  change "mars"%string with (BodyKey_name mars). rewrite !calculateDistance_haversine.
  cbn [jlt]. repeat nearest_step. reflexivity.
Qed.

Lemma mars_nearest_m4_m4 : handleReverseSearch (-4) (-4) "mars" mars_features =
              Some (feature_C, JFin (haversine_km (BODY_RADII_KM mars) (-4) (-4) (-5) (-5))).
Proof.
  pose proof mars_radius_pos.
  assert (HB : haversine_km (BODY_RADII_KM mars) (-4) (-4) 0 0 < haversine_km (BODY_RADII_KM mars) (-4) (-4) 10 10)
    by (apply (haversine_lt _ _ _ _ _ _ _ 4 14); (lra || rabs)).
  assert (HC : haversine_km (BODY_RADII_KM mars) (-4) (-4) (-5) (-5) < haversine_km (BODY_RADII_KM mars) (-4) (-4) 0 0)
    by (apply (haversine_lt _ _ _ _ _ _ _ (-1) 4); (lra || rabs)).
  unfold handleReverseSearch, mars_features. cbv zeta. cbn [fold_left].
  cbn [lat lon feature_A feature_B feature_C feature_at].
  change "mars"%string with (BodyKey_name mars). rewrite !calculateDistance_haversine.
  cbn [jlt]. repeat nearest_step. reflexivity.
Qed.

Lemma nearest_is_argmin (k : BodyKey) (lat_ lon_ : R) (f0 : PlanetFeature) (fs : list PlanetFeature) :
  exists f d, handleReverseSearch lat_ lon_ (BodyKey_name k) (f0 :: fs) = Some (f, JFin d) /\
    In f (f0 :: fs) /\ d = haversine_km (BODY_RADII_KM k) lat_ lon_ (lat f) (lon f) /\
    (forall g, In g (f0 :: fs) -> d <= haversine_km (BODY_RADII_KM k) lat_ lon_ (lat g) (lon g)).
Proof.
  pose proof (nearest_spec (fun g => calculateDistance (BodyKey_name k) lat_ lon_ (lat g) (lon g))
                (fun g => haversine_km (BODY_RADII_KM k) lat_ lon_ (lat g) (lon g))
                (fun g => calculateDistance_haversine k lat_ lon_ (lat g) (lon g)) f0 fs) as H.
  cbv beta in H. unfold handleReverseSearch. cbv zeta.
  destruct (fold_left _ (f0 :: fs) _) as [f d].
  destruct H as [Hin [E Hmin]]. subst d.
  exists f, (haversine_km (BODY_RADII_KM k) lat_ lon_ (lat f) (lon f)).
  split; [reflexivity|]. split; [exact Hin|]. split; [reflexivity|exact Hmin].
Qed.

(** C8: for every body key and every non-empty feature list, the search
    of [handleReverseSearch] ends with a listed feature minimizing the
    haversine distance computed with that body's own radius
    [BODY_RADII_KM], and with that distance (the longitude normalization
    of the source does not change it); Mars's radius is 3389.5 km, and
    with Mars features A(0,0), B(10,10), C(-5,-5) the search from (1,1)
    ends with A and the search from (-4,-4) ends with C, each with its
    haversine distance on a sphere of radius 3389.5 km. *)
Theorem C8_nearest_feature :
  (forall (k : BodyKey) (lat_ lon_ : R) (f0 : PlanetFeature) (fs : list PlanetFeature),
     exists f d,
       handleReverseSearch lat_ lon_ (BodyKey_name k) (f0 :: fs) = Some (f, JFin d) /\
       In f (f0 :: fs) /\
       d = haversine_km (BODY_RADII_KM k) lat_ lon_ (lat f) (lon f) /\
       (forall g, In g (f0 :: fs) ->
          d <= haversine_km (BODY_RADII_KM k) lat_ lon_ (lat g) (lon g))) /\
  BODY_RADII_KM mars = 33895 / 10 /\
  handleReverseSearch 1 1 "mars" mars_features =
    Some (feature_A, JFin (haversine_km (33895 / 10) 1 1 0 0)) /\
  handleReverseSearch (-4) (-4) "mars" mars_features =
    Some (feature_C, JFin (haversine_km (33895 / 10) (-4) (-4) (-5) (-5))).
Proof.
  split; [exact nearest_is_argmin|].
  split; [reflexivity|].
  split; [exact mars_nearest_1_1 | exact mars_nearest_m4_m4].
Qed.

End ReverseSearch.

(* ================================================================== *)
(** * Claims *)

Module Claims.

Import JsNum Geodesy Alignments Projection AlignmentFacts Datasets Tiles.
Local Open Scope Q_scope.

(** the pixel round trip of §8 with corrections disabled *)
Definition round_trip (tbl : string -> option AlignmentCorrection) (id : string)
    (body : PlanetaryBodyKey) (dims : PixelDimensions) (lat lon : num) : GeoCoordinate :=
  let ctx := default_context id body in
  let p := latLonToPixel tbl lat lon ctx dims no_corrections in
  pixelToLatLon tbl (pix_x p) (pix_y p) ctx dims no_corrections.

(** forward correction, then the inverse correction of its result *)
Definition forward_then_inverse (tbl : string -> option AlignmentCorrection) (id : string)
    (lat lon : num) (z : option num) : AlignmentResult * AlignmentResult :=
  let fwd := applyAlignmentCorrectionForward tbl
               {| datasetId := id; req_lat := lat; req_lon := lon; req_zoom := z |} in
  (fwd, applyAlignmentCorrectionInverse tbl
          {| datasetId := id; req_lat := res_lat fwd; req_lon := res_lon fwd; req_zoom := z |}).

(** a correction whose only content is the latitude band [0,1] shifting
    latitudes by 5 degrees *)
Definition band_correction : AlignmentCorrection :=
  {| lat_offset_deg := None; lon_offset_deg := None; pixel_offset := None;
     lat_scale := None; lon_scale := None;
     dynamic := Some {| zoom_levels := None;
                        lat_bands := Some [{| min_lat := Fin 0; max_lat := Fin 1;
                                              lb_lat_offset_deg := Some (Fin 5);
                                              lb_lon_offset_deg := None |}] |} |}.

(** a static affine correction: offsets (2, 3), latitude scale 2, pixel offset (4, -1) *)
Definition affine_correction : AlignmentCorrection :=
  {| lat_offset_deg := Some (Fin 2); lon_offset_deg := Some (Fin 3);
     pixel_offset := Some {| px := Fin 4; py := Fin (-1) |};
     lat_scale := Some (Fin 2); lon_scale := None; dynamic := None |}.

(** a zoom breakpoint with the same offset in every field *)
Definition breakpoint (zm off : Q) : AlignmentDynamicZoomEntry :=
  {| zoom := Fin zm; ze_lat_offset_deg := Some (Fin off); ze_lon_offset_deg := Some (Fin off);
     ze_pixel_offset := Some {| px := Fin off; py := Fin off |} |}.

(** breakpoints (zoom 6, offset 20) and (zoom 2, offset 10), listed unsorted *)
Definition zoom_correction : AlignmentCorrection :=
  {| lat_offset_deg := None; lon_offset_deg := None; pixel_offset := None;
     lat_scale := None; lon_scale := None;
     dynamic := Some {| zoom_levels := Some [breakpoint 6 20; breakpoint 2 10];
                        lat_bands := None |} |}.

(** two overlapping bands: [0,10] with offsets (1, 2) and [5,20] with offsets (3, 4) *)
Definition overlap_correction : AlignmentCorrection :=
  {| lat_offset_deg := None; lon_offset_deg := None; pixel_offset := None;
     lat_scale := None; lon_scale := None;
     dynamic := Some {| zoom_levels := None;
                        lat_bands := Some [{| min_lat := Fin 0; max_lat := Fin 10;
                                              lb_lat_offset_deg := Some (Fin 1);
                                              lb_lon_offset_deg := Some (Fin 2) |};
                                           {| min_lat := Fin 5; max_lat := Fin 20;
                                              lb_lat_offset_deg := Some (Fin 3);
                                              lb_lon_offset_deg := Some (Fin 4) |}] |} |}.

(** a dataset with its [yAxis] replaced *)
Definition with_yAxis (ds : DatasetMetadata) (ya : TileYAxis) : DatasetMetadata :=
  {| id := id ds; body := body ds; title := title ds; kind := kind ds;
     template := template ds; compatibilityKey := compatibilityKey ds;
     tiling := {| scheme := scheme (tiling ds); yAxis := ya; tileSize := tileSize (tiling ds);
                  minZoom := minZoom (tiling ds); maxZoom := maxZoom (tiling ds) |} |}.

(** the address a template yields for zoom [z], column [col] and row [row]:
    each of the placeholders [{z}], [{row}], [{col}], [{x}], [{y}] replaced *)
Definition fill_template (tpl : string) (z col row : Z) : string :=
  replace_all "{y}" (String_of row)
    (replace_all "{x}" (String_of col)
      (replace_all "{col}" (String_of col)
        (replace_all "{row}" (String_of row)
          (replace_all "{z}" (String_of z) tpl)))).

(** a north-down dataset served from NASA GIBS *)
Definition gibs_dataset : DatasetMetadata :=
  {| id := "moon:gibs_mosaic"; body := moon; title := "GIBS mosaic"; kind := Base;
     template := "https://gibs.earthdata.nasa.gov/wmts/epsg4326/best/{z}/{row}/{col}.jpg";
     compatibilityKey := TREK_COMPAT_KEY moon;
     tiling := {| scheme := Wmts; yAxis := NorthDown; tileSize := 256; minZoom := 0; maxZoom := 8 |} |}.

(** C1 (counterexample): on Mars, with no correction table, the date-line
    sample point (0, -180) on a 360x180 raster comes back with longitude
    [+180], not the original [-180]. *)
Lemma C1_counterexample :
  geo_lon (round_trip (fun _ => None) "mars:mars_mgs_mola" mars
             {| width := Fin 360; height := Fin 180 |} (Fin 0) (Fin (-180))) = Fin 180 /\
  ~ neqv (geo_lon (round_trip (fun _ => None) "mars:mars_mgs_mola" mars
             {| width := Fin 360; height := Fin 180 |} (Fin 0) (Fin (-180)))) (Fin (-180)).
Proof.
  split; [reflexivity|]. vm_compute. discriminate.
Qed.

(** C1 (amended): for every supported body with its default projection
    context and corrections disabled, every correction table, positive
    raster dimensions and every latitude in [-90,90], projecting (lat, lon)
    to pixels and back returns [lat], and returns [lon] for every longitude
    in (-180,180] (poles, equator, prime meridian and the date line written
    +180): exactly in this model's exact arithmetic, so to within rounding
    in floating point; the date line written [-180] comes back as [+180]. *)
Theorem C1_projection_round_trip
    (tbl : string -> option AlignmentCorrection) (id : string) (body : PlanetaryBodyKey)
    (W H lat lon : Q) :
  0 < W -> 0 < H -> -90 <= lat <= 90 ->
  exists la lo,
    round_trip tbl id body {| width := Fin W; height := Fin H |} (Fin lat) (Fin lon) =
      {| geo_lat := Fin la; geo_lon := Fin lo |} /\
    la == lat /\
    (-180 < lon <= 180 -> lo == lon) /\
    (lon == -180 -> lo == 180).
Proof.
  intros HW HH Hlat.
  destruct (pixel_round_trip_no_corrections tbl (default_context id body)
              {| width := Fin W; height := Fin H |} 0 0 W H lat lon)
    as [la [lo [E [Hla [Rlo Clo]]]]];
    [destruct body; reflexivity | reflexivity | reflexivity | reflexivity
    | exact HW | exact HH | exact Hlat |].
  exists la, lo. split; [exact E|]. split; [exact Hla|]. split.
  - intros Hlon. apply (cong_unique' lo lon (-180)); [lra | lra | exact Clo].
  - intros Hlon. apply (cong_unique' lo 180 (-180)); [lra | lra |].
    eapply cong_trans; [exact Clo|]. apply (cong_shift _ _ (-1)).
    change (inject_Z (-1)) with (-1). lra.
Qed.

Lemma C1_projection_round_trip_witness :
  exists la lo,
    round_trip (fun _ => None) "mars:mars_mgs_mola" mars
      {| width := Fin 1024; height := Fin 512 |} (Fin 90) (Fin 180) =
      {| geo_lat := Fin la; geo_lon := Fin lo |} /\
    la == 90 /\ (-180 < 180 <= 180 -> lo == 180) /\ (180 == -180 -> lo == 180).
Proof.
  apply (C1_projection_round_trip (fun _ => None) "mars:mars_mgs_mola" mars 1024 512 90 180);
    vm_compute; try split; discriminate.
Defined.

(** C2 (counterexample): converting [-180] to the east-180 convention
    yields [+180], not [-180], and the round trip through west-360 of the
    east-180 value [-180] comes back as [+180], a whole turn away. *)
Lemma C2_counterexample :
  convertLongitude (Fin (-180)) East180 East180 = Fin 180 /\
  ~ neqv (convertLongitude (convertLongitude (Fin (-180)) East180 West360) West360 East180)
         (Fin (-180)).
Proof.
  split; [reflexivity|]. vm_compute. discriminate.
Qed.

(** C2 (amended): for all conventions [c1], [c2] and every value [x]
    written in the range of [c1] (east-180: (-180,180]; east-360 and
    west-360: [0,360)), [convertLongitude (convertLongitude x c1 c2) c2 c1]
    equals [x] (exactly in this model's exact arithmetic, so to within
    rounding in floating point); every finite [x] comes back as the value
    of [c1]'s range denoting the same meridian, which differs from [x] when
    [x] lies outside that range; the date line [-180] and [+180] both
    canonicalise to the representative [+180], and [0] and [360] both to
    [0] in the 360 domain. *)
Theorem C2_convert_round_trip :
  (forall (c1 c2 : LongitudeConvention) (x : Q), in_domain c1 x ->
     exists y, convertLongitude (convertLongitude (Fin x) c1 c2) c2 c1 = Fin y /\ y == x) /\
  (forall (c1 c2 : LongitudeConvention) (x : Q),
     exists y, convertLongitude (convertLongitude (Fin x) c1 c2) c2 c1 = Fin y /\
       in_domain c1 y /\ cong y x /\ (~ in_domain c1 x -> ~ y == x)) /\
  convertLongitude (Fin (-180)) East180 East180 = Fin 180 /\
  convertLongitude (Fin 180) East180 East180 = Fin 180 /\
  neqv (convertLongitude (Fin 0) East360 East360) (Fin 0) /\
  neqv (convertLongitude (Fin 360) East360 East360) (Fin 0).
Proof.
  assert (RT : forall (c1 c2 : LongitudeConvention) (x : Q),
     exists y, convertLongitude (convertLongitude (Fin x) c1 c2) c2 c1 = Fin y /\
       in_domain c1 y /\ cong y x).
  { intros c1 c2 x.
    destruct (convertLongitude_spec x c1 c2) as [y [E [Ry Cy]]]. rewrite E.
    destruct (convertLongitude_spec y c2 c1) as [z [E2 [Rz Cz]]]. rewrite E2.
    exists z. split; [reflexivity|]. split; [exact Rz|].
    apply (direction_cancel c1). eapply cong_trans; eauto. }
  split; [|split; [|repeat split; reflexivity]].
  - intros c1 c2 x Hx. destruct (RT c1 c2 x) as [y [E [Ry Cy]]].
    exists y. split; [exact E|]. exact (in_domain_cong c1 y x Ry Hx Cy).
  - intros c1 c2 x. destruct (RT c1 c2 x) as [y [E [Ry Cy]]].
    exists y. split; [exact E|]. split; [exact Ry|]. split; [exact Cy|].
    intros Hn Heq. apply Hn. destruct c1; cbn [in_domain] in *; lra.
Qed.

(** the inverse of an affine step: [(x*s + o - o') / s] is [x] exactly
    when the two offsets agree *)
Lemma affine_inv_iff (x s o o' : Q) : ~ s == 0 -> ((x * s + o + - o') / s == x <-> o == o').
Proof.
  intros Hs. split; intros H.
  - assert (K : o - o' == ((x * s + o + - o') / s - x) * s) by (field; exact Hs).
    rewrite H in K. setoid_replace ((x - x) * s) with 0 in K by ring. lra.
  - rewrite <- H. field. exact Hs.
Qed.

(** C3 (counterexample): with a correction whose latitude band [0,1]
    shifts latitudes by 5 degrees, the forward correction of latitude 1/2 is
    11/2, which lies outside the band; the inverse resolves the offsets at
    11/2, finds no band, and returns 11/2 instead of 1/2. *)
Lemma C3_counterexample :
  neqv (res_lat (fst (forward_then_inverse (fun _ => Some band_correction) "moon:lro_wac_global"
                        (Fin (1 # 2)) (Fin 0) None))) (Fin (11 # 2)) /\
  neqv (res_lat (snd (forward_then_inverse (fun _ => Some band_correction) "moon:lro_wac_global"
                        (Fin (1 # 2)) (Fin 0) None))) (Fin (11 # 2)) /\
  ~ neqv (res_lat (snd (forward_then_inverse (fun _ => Some band_correction) "moon:lro_wac_global"
                          (Fin (1 # 2)) (Fin 0) None))) (Fin (1 # 2)).
Proof.
  split; [vm_compute; reflexivity|]. split; [vm_compute; reflexivity|].
  vm_compute. discriminate.
Qed.

(** C3 (amended): the forward correction of a finite (lat, lon) is
    (lat*s1 + a, lon*s2 + b), with [a], [b] the offsets resolved at [lat]
    and [s1], [s2] the scales, and it returns the pixel offsets
    separately.  For every input, the inverse applied to the forward
    result at the same zoom returns the negated pixel offsets.  The inverse
    resolves its offsets at the corrected latitude lat*s1 + a: for finite
    resolved offsets and finite nonzero scales it returns [lat] exactly
    when the latitude offset resolved there equals [a], and [lon] exactly
    when the longitude offset resolved there equals [b].  In particular,
    for a correction that declares no latitude band, it returns (lat, lon). *)
Theorem C3_alignment_round_trip (tbl : string -> option AlignmentCorrection) (id : string)
    (z : option num) :
  (forall lat lon : num,
     let '(fwd, inv) := forward_then_inverse tbl id lat lon z in
     pixelOffsetX inv = nopp (pixelOffsetX fwd) /\ pixelOffsetY inv = nopp (pixelOffsetY fwd)) /\
  (forall lat lon a b a' b' s1 s2 : Q,
     latOffset (resolveDynamicOffsets (tbl id) (Fin lat) z) = Fin a ->
     lonOffset (resolveDynamicOffsets (tbl id) (Fin lat) z) = Fin b ->
     field_or1 (tbl id) lat_scale = Fin s1 -> ~ s1 == 0 ->
     field_or1 (tbl id) lon_scale = Fin s2 -> ~ s2 == 0 ->
     latOffset (resolveDynamicOffsets (tbl id) (Fin (lat * s1 + a)) z) = Fin a' ->
     lonOffset (resolveDynamicOffsets (tbl id) (Fin (lat * s1 + a)) z) = Fin b' ->
     let '(fwd, inv) := forward_then_inverse tbl id (Fin lat) (Fin lon) z in
     res_lat fwd = Fin (lat * s1 + a) /\ res_lon fwd = Fin (lon * s2 + b) /\
     (neqv (res_lat inv) (Fin lat) <-> a == a') /\
     (neqv (res_lon inv) (Fin lon) <-> b == b')) /\
  (dyn_bands (tbl id) = None \/ dyn_bands (tbl id) = Some [] ->
   forall lat lon a b s1 s2 : Q,
     latOffset (resolveDynamicOffsets (tbl id) (Fin lat) z) = Fin a ->
     lonOffset (resolveDynamicOffsets (tbl id) (Fin lat) z) = Fin b ->
     field_or1 (tbl id) lat_scale = Fin s1 -> ~ s1 == 0 ->
     field_or1 (tbl id) lon_scale = Fin s2 -> ~ s2 == 0 ->
     let '(fwd, inv) := forward_then_inverse tbl id (Fin lat) (Fin lon) z in
     res_lat fwd = Fin (lat * s1 + a) /\ res_lon fwd = Fin (lon * s2 + b) /\
     neqv (res_lat inv) (Fin lat) /\ neqv (res_lon inv) (Fin lon) /\
     pixelOffsetX inv = nopp (pixelOffsetX fwd) /\ pixelOffsetY inv = nopp (pixelOffsetY fwd)).
Proof.
  split; [|split].
  - intros lat lon.
    unfold forward_then_inverse, applyAlignmentCorrectionForward, applyAlignmentCorrectionInverse,
      getAlignmentCorrection.
    cbn [datasetId req_lat req_lon req_zoom res_lat res_lon pixelOffsetX pixelOffsetY].
    split; f_equal; symmetry; apply resolve_pixel_lat.
  - intros lat lon a b a' b' s1 s2 Ha Hb Hs1 Hs1' Hs2 Hs2' Ha' Hb'.
    unfold forward_then_inverse, applyAlignmentCorrectionForward, applyAlignmentCorrectionInverse,
      getAlignmentCorrection.
    cbn [datasetId req_lat req_lon req_zoom res_lat res_lon pixelOffsetX pixelOffsetY].
    rewrite Ha, Hb, Hs1, Hs2, !nor_fin by assumption.
    rewrite !nmul_fin, !nadd_fin.
    rewrite Ha', Hb', !nsub_fin.
    rewrite (ndiv_fin _ s1 Hs1'), (ndiv_fin _ s2 Hs2').
    split; [reflexivity|]. split; [reflexivity|].
    cbn [neqv]. split; apply affine_inv_iff; assumption.
  - intros Hb lat lon a b s1 s2 Ha Hb' Hs1 Hs1' Hs2 Hs2'.
    unfold forward_then_inverse, applyAlignmentCorrectionForward, applyAlignmentCorrectionInverse,
      getAlignmentCorrection.
    cbn [datasetId req_lat req_lon req_zoom res_lat res_lon pixelOffsetX pixelOffsetY].
    erewrite (resolve_no_bands (tbl id) (nadd _ _) (Fin lat) z Hb).
    rewrite Ha, Hb', Hs1, Hs2, !nor_fin by assumption.
    rewrite !nmul_fin, !nadd_fin, !nsub_fin.
    rewrite (ndiv_fin _ s1 Hs1'), (ndiv_fin _ s2 Hs2').
    split; [reflexivity|]. split; [reflexivity|].
    split; [cbn [neqv]; field; exact Hs1'|].
    split; [cbn [neqv]; field; exact Hs2'|].
    split; reflexivity.
Qed.

Lemma C3_alignment_round_trip_witness :
  (let '(fwd, inv) := forward_then_inverse (fun _ => Some affine_correction) "mars:mars_mgs_mola"
                        (Fin 10) (Fin 20) (Some (Fin 3)) in
   res_lat fwd = Fin (10 * 2 + 2) /\ res_lon fwd = Fin (20 * 1 + 3) /\
   neqv (res_lat inv) (Fin 10) /\ neqv (res_lon inv) (Fin 20) /\
   pixelOffsetX inv = nopp (pixelOffsetX fwd) /\ pixelOffsetY inv = nopp (pixelOffsetY fwd)) /\
  (let '(fwd, inv) := forward_then_inverse (fun _ => Some band_correction) "moon:lro_wac_global"
                        (Fin (1 # 2)) (Fin 0) None in
   res_lat fwd = Fin ((1 # 2) * 1 + 5) /\ res_lon fwd = Fin (0 * 1 + 0) /\
   (neqv (res_lat inv) (Fin (1 # 2)) <-> 5 == 0) /\
   (neqv (res_lon inv) (Fin 0) <-> 0 == 0)).
Proof.
  split.
  - apply (proj2 (proj2 (C3_alignment_round_trip (fun _ => Some affine_correction)
             "mars:mars_mgs_mola" (Some (Fin 3)))) (or_introl eq_refl) 10 20 2 3 2 1);
      [reflexivity|reflexivity|reflexivity| |reflexivity|];
      vm_compute; discriminate.
  - apply (proj1 (proj2 (C3_alignment_round_trip (fun _ => Some band_correction)
             "moon:lro_wac_global" None)) (1 # 2) 0 5 0 0 0 1 1);
      [reflexivity|reflexivity|reflexivity| |reflexivity| |reflexivity|reflexivity];
      vm_compute; discriminate.
Defined.

(** C4: with breakpoints of finite zoom and finite (or missing) offsets,
    the resolver sorts them by zoom ascending (a stable permutation of the
    input) and, for each offset field independently and a missing field
    counting as 0, adds to the offset resolved without zoom: the first
    sorted breakpoint's value when the zoom is at or below every breakpoint,
    the last one's when it is above every breakpoint, and the linear
    interpolation between the consecutive breakpoints bracketing it
    otherwise. In particular breakpoints (zoom 2, offset 10) and (zoom 6,
    offset 20), even listed in the other order, resolve to 15 at zoom 4, to
    10 at every zoom up to 2 and to 20 at every zoom above 6. *)
Theorem C4_zoom_interpolation :
  (forall (c : option AlignmentCorrection) (lat : num) (z : Q)
          (e : AlignmentDynamicZoomEntry) (es : list AlignmentDynamicZoomEntry),
   dyn_zooms c = Some (e :: es) ->
   Forall entry_ok (e :: es) ->
   Permutation (sort_entries (e :: es)) (e :: es) /\
   Sorted zle (sort_entries (e :: es)) /\
   forall (f : OffsetField) (d : AlignmentDynamicZoomEntry),
   let s := sort_entries (e :: es) in
   let val x := fval (entry_field f x) in
   let base := resolved_field f (resolveDynamicOffsets c lat None) in
   let res := resolved_field f (resolveDynamicOffsets c lat (Some (Fin z))) in
   (Forall (fun x => z <= zq x) s -> neqv res (nadd base (Fin (val (hd d s))))) /\
   (Forall (fun x => zq x < z) s -> neqv res (nadd base (Fin (val (last s d))))) /\
   (forall pre a b post, s = pre ++ a :: b :: post -> zq a < z <= zq b ->
      neqv res (nadd base (Fin (val a + (z - zq a) / (zq b - zq a) * (val b - val a)))))) /\
  (forall (f : OffsetField) (lat : num),
   neqv (resolved_field f (resolveDynamicOffsets (Some zoom_correction) lat (Some (Fin 4)))) (Fin 15) /\
   (forall z, z <= 2 ->
      neqv (resolved_field f (resolveDynamicOffsets (Some zoom_correction) lat (Some (Fin z)))) (Fin 10)) /\
   (forall z, 6 < z ->
      neqv (resolved_field f (resolveDynamicOffsets (Some zoom_correction) lat (Some (Fin z)))) (Fin 20))).
Proof.
  split; [exact zoom_resolution|].
  intros f lat.
  assert (Hok : Forall entry_ok [breakpoint 6 20; breakpoint 2 10])
    by (repeat constructor; intros []; reflexivity).
  assert (Hsort : sort_entries [breakpoint 6 20; breakpoint 2 10] = [breakpoint 2 10; breakpoint 6 20])
    by reflexivity.
  assert (Hbase : resolved_field f (resolveDynamicOffsets (Some zoom_correction) lat None) = Fin 0)
    by (destruct f; reflexivity).
  assert (H : forall z, exists v,
     neqv (resolved_field f (resolveDynamicOffsets (Some zoom_correction) lat (Some (Fin z)))) (Fin v) /\
     ((z <= 2 -> v == 10) /\ (6 < z -> v == 20) /\ (z == 4 -> v == 15))).
  { intros z.
    destruct (zoom_resolution (Some zoom_correction) lat z (breakpoint 6 20) [breakpoint 2 10]
                eq_refl Hok) as [_ [_ R]].
    specialize (R f (breakpoint 2 10)). cbv zeta in R. rewrite Hsort, Hbase in R.
    destruct R as [Rb [Ra Rm]].
    change (zq (breakpoint 2 10)) with 2 in *. change (zq (breakpoint 6 20)) with 6 in *.
    destruct (Qlt_le_dec 2 z) as [H2|H2]; [destruct (Qlt_le_dec 6 z) as [H6|H6]|].
    - eexists. split; [apply Ra; repeat constructor; cbn; lra|].
      split; [intros; lra|]. split; [destruct f; reflexivity|intros; lra].
    - eexists. split; [apply (Rm [] (breakpoint 2 10) (breakpoint 6 20) []); [reflexivity|cbn [zq fq breakpoint zoom]; split; lra]|].
      split; [intros; lra|]. split; [intros; lra|].
      intros Hz. destruct f; cbn [fval entry_field breakpoint ze_lat_offset_deg ze_lon_offset_deg
                                  ze_pixel_offset pixel_x pixel_y option_map px py];
        rewrite Hz; reflexivity.
    - eexists. split; [apply Rb; repeat constructor; cbn; lra|].
      split; [destruct f; reflexivity|]. split; intros; lra. }
  split; [|split].
  - destruct (H 4) as [v [Hv [_ [_ H4]]]]. eapply neqv_trans; [exact Hv|]. apply H4. reflexivity.
  - intros z Hz. destruct (H z) as [v [Hv [H2 _]]]. eapply neqv_trans; [exact Hv|]. apply H2. exact Hz.
  - intros z Hz. destruct (H z) as [v [Hv [_ [H6 _]]]]. eapply neqv_trans; [exact Hv|]. apply H6. exact Hz.
Qed.

(** C5: for every correction whose bands have finite bounds and finite (or
    missing) offsets and every finite latitude, the offsets resolved
    without zoom are the static offsets plus the sum of the offsets of every
    band whose closed interval contains the latitude; in particular two
    overlapping bands both containing latitude 7 contribute the sum of their
    offsets, while latitude 2 only gets the first band's. *)
Theorem C5_band_summation :
  (forall (c : option AlignmentCorrection) (lat : Q),
   Forall band_ok (bands_of c) ->
   neqv (latOffset (resolveDynamicOffsets c (Fin lat) None))
        (nadd (field_or0 c lat_offset_deg) (Fin (band_total lb_lat_offset_deg lat (bands_of c)))) /\
   neqv (lonOffset (resolveDynamicOffsets c (Fin lat) None))
        (nadd (field_or0 c lon_offset_deg) (Fin (band_total lb_lon_offset_deg lat (bands_of c))))) /\
  neqv (latOffset (resolveDynamicOffsets (Some overlap_correction) (Fin 7) None)) (Fin (1 + 3)) /\
  neqv (lonOffset (resolveDynamicOffsets (Some overlap_correction) (Fin 7) None)) (Fin (2 + 4)) /\
  neqv (latOffset (resolveDynamicOffsets (Some overlap_correction) (Fin 2) None)) (Fin 1) /\
  neqv (lonOffset (resolveDynamicOffsets (Some overlap_correction) (Fin 2) None)) (Fin 2).
Proof.
  split.
  - intros c lat Hok. destruct (resolve_none c (Fin lat)) as [E1 E2]. rewrite E1, E2.
    apply fold_bands. exact Hok.
  - repeat split; vm_compute; reflexivity.
Qed.

(** C6: for each of the three tile URL builders (the two OpenSeadragon
    tile sources of the tile viewer and [createTileSource] of the planetary
    map), every level, column [x], row [y], template and minimum zoom, the
    address of column [x + 2^level] is the address of column [x], and rows
    [-1] and [2^level] yield the empty string, i.e. no tile. *)
Theorem C6_tile_wrap :
  (forall (tpl : string) (mz level : nat) (x y : Z),
   SingleLayer.getTileUrl tpl mz level (x + 2 ^ Z.of_nat level)%Z y =
     SingleLayer.getTileUrl tpl mz level x y /\
   SingleLayer.getTileUrl tpl mz level x (-1)%Z = ""%string /\
   SingleLayer.getTileUrl tpl mz level x (2 ^ Z.of_nat level)%Z = ""%string) /\
  (forall (tpl : string) (mz level : nat) (x y : Z),
   TemplateLayer.getTileUrl tpl mz level (x + 2 ^ Z.of_nat level)%Z y =
     TemplateLayer.getTileUrl tpl mz level x y /\
   TemplateLayer.getTileUrl tpl mz level x (-1)%Z = ""%string /\
   TemplateLayer.getTileUrl tpl mz level x (2 ^ Z.of_nat level)%Z = ""%string) /\
  (forall (ds : DatasetMetadata) (level : nat) (x y : Z),
   PlanetaryMap.getTileUrl ds level (x + 2 ^ Z.of_nat level)%Z y =
     PlanetaryMap.getTileUrl ds level x y /\
   PlanetaryMap.getTileUrl ds level x (-1)%Z = ""%string /\
   PlanetaryMap.getTileUrl ds level x (2 ^ Z.of_nat level)%Z = ""%string).
Proof.
  split; [|split]; intros;
    (split; [|split]);
    unfold SingleLayer.getTileUrl, TemplateLayer.getTileUrl, PlanetaryMap.getTileUrl; cbv zeta;
    try (rewrite wrap_column_period by apply pow2_pos; reflexivity);
    try reflexivity;
    rewrite Z.leb_refl, orb_true_r; reflexivity.
Qed.

(** C7 (counterexample): a dataset declared north-down whose template
    points at NASA GIBS gets its row flipped (level 1, row 0 is fetched as
    row 1), while a dataset declared south-up with a Trek template does not
    (level 1, row 0 is fetched as row 0, not as row 2 - 1 - 0 = 1). *)
Lemma C7_counterexample :
  yAxis (tiling gibs_dataset) = NorthDown /\
  PlanetaryMap.getTileUrl gibs_dataset 1 0%Z 0%Z =
    "https://gibs.earthdata.nasa.gov/wmts/epsg4326/best/1/1/0.jpg"%string /\
  yAxis (tiling (with_yAxis (hd gibs_dataset SOLAR_SYSTEM_DATASETS) SouthUp)) = SouthUp /\
  PlanetaryMap.getTileUrl (with_yAxis (hd gibs_dataset SOLAR_SYSTEM_DATASETS) SouthUp) 1 0%Z 0%Z =
    "https://trek.nasa.gov/tiles/Moon/EQ/LRO_WAC_Mosaic_Global_303ppd_v02/1.0.0/default/default028mm/1/0/0.jpg"%string.
Proof. repeat split; vm_compute; reflexivity. Qed.

(** C7 (amended): the [yAxis] field is never read; for every on-grid row
    [y] the planetary map and the template viewer fetch column
    [x mod 2^level] and row [2^z - 1 - y] (with [z = level + minZoom], the
    provider zoom, not the level) exactly when the template contains
    "gibs.earthdata.nasa.gov", and row [y] otherwise. *)
Theorem C7_row_flip (level : nat) (x y : Z) :
  (0 <= y < 2 ^ Z.of_nat level)%Z ->
  (forall (ds : DatasetMetadata),
   let z := Z.of_nat (level + minZoom (tiling ds)) in
   PlanetaryMap.getTileUrl ds level x y =
     fill_template (template ds) z (x mod 2 ^ Z.of_nat level)%Z
       (if includes (template ds) "gibs.earthdata.nasa.gov" then 2 ^ z - 1 - y else y)%Z /\
   forall ya, PlanetaryMap.getTileUrl (with_yAxis ds ya) level x y =
                PlanetaryMap.getTileUrl ds level x y) /\
  (forall (tpl : string) (mz : nat),
   let z := Z.of_nat (level + mz) in
   TemplateLayer.getTileUrl tpl mz level x y =
     fill_template tpl z (x mod 2 ^ Z.of_nat level)%Z
       (if includes tpl "gibs.earthdata.nasa.gov" then 2 ^ z - 1 - y else y)%Z).
Proof.
  intros Hy.
  assert (Hc : ((y <? 0) || (2 ^ Z.of_nat level <=? y))%Z = false).
  { apply orb_false_iff. split; [apply Z.ltb_ge | apply Z.leb_gt]; lia. }
  split.
  - intros ds z. split; [|intros ya; reflexivity].
    unfold PlanetaryMap.getTileUrl, fill_template. cbv zeta. rewrite Hc.
    rewrite wrap_column_mod by apply pow2_pos. reflexivity.
  - intros tpl mz z.
    unfold TemplateLayer.getTileUrl, fill_template. cbv zeta. rewrite Hc.
    rewrite wrap_column_mod by apply pow2_pos. reflexivity.
Qed.

Lemma C7_row_flip_witness :
  (forall (ds : DatasetMetadata),
   let z := Z.of_nat (1 + minZoom (tiling ds)) in
   PlanetaryMap.getTileUrl ds 1 3%Z 1%Z =
     fill_template (template ds) z (3 mod 2 ^ Z.of_nat 1)%Z
       (if includes (template ds) "gibs.earthdata.nasa.gov" then 2 ^ z - 1 - 1 else 1)%Z /\
   forall ya, PlanetaryMap.getTileUrl (with_yAxis ds ya) 1 3%Z 1%Z =
                PlanetaryMap.getTileUrl ds 1 3%Z 1%Z) /\
  (forall (tpl : string) (mz : nat),
   let z := Z.of_nat (1 + mz) in
   TemplateLayer.getTileUrl tpl mz 1 3%Z 1%Z =
     fill_template tpl z (3 mod 2 ^ Z.of_nat 1)%Z
       (if includes tpl "gibs.earthdata.nasa.gov" then 2 ^ z - 1 - 1 else 1)%Z).
Proof. apply (C7_row_flip 1 3%Z 1%Z). cbn. lia. Defined.

(** C10: [areDatasetsCompatible] is symmetric, every id of the registry is
    compatible with itself, and an id absent from the registry is
    compatible with nothing, on either side. *)
Theorem C10_compatibility :
  (forall a b, areDatasetsCompatible a b = areDatasetsCompatible b a) /\
  (forall a, (exists d, In d SOLAR_SYSTEM_DATASETS /\ id d = a) -> areDatasetsCompatible a a = true) /\
  (forall a b, (forall d, In d SOLAR_SYSTEM_DATASETS -> id d <> a) ->
     areDatasetsCompatible a b = false /\ areDatasetsCompatible b a = false).
Proof.
  split; [|split].
  - intros a b. unfold areDatasetsCompatible.
    destruct (getDatasetById a), (getDatasetById b); try reflexivity.
    apply String.eqb_sym.
  - intros a [d [Hin Hid]]. unfold areDatasetsCompatible.
    destruct (getDatasetById a) eqn:E; [apply String.eqb_refl|].
    unfold getDatasetById in E. apply (find_none _ _ E) in Hin.
    rewrite Hid, String.eqb_refl in Hin. discriminate Hin.
  - intros a b Habs.
    assert (E : getDatasetById a = None).
    { unfold getDatasetById. destruct (find _ _) as [d|] eqn:E; [|reflexivity].
      apply find_some in E as [Hin Hid]. apply String.eqb_eq in Hid.
      exfalso. exact (Habs d Hin Hid). }
    unfold areDatasetsCompatible. rewrite E.
    split; [reflexivity|]. destruct (getDatasetById b); reflexivity.
Qed.

(** C9 (counterexample): with the default Mars context and corrections
    disabled, a [NaN] latitude yields [v = NaN], and a [NaN] or infinite
    longitude yields [u = NaN] (and so a [NaN] pixel coordinate): the
    longitude does not degrade to [0] and [NaN] is propagated. *)
Lemma C9_counterexample :
  v (latLonToNormalized (fun _ => None) NaN (Fin 0)
       (default_context "mars:mars_mgs_mola" mars) no_corrections) = NaN /\
  u (latLonToNormalized (fun _ => None) (Fin 0) NaN
       (default_context "mars:mars_mgs_mola" mars) no_corrections) = NaN /\
  u (latLonToNormalized (fun _ => None) (Fin 0) PosInf
       (default_context "mars:mars_mgs_mola" mars) no_corrections) = NaN /\
  pix_x (latLonToPixel (fun _ => None) (Fin 0) NaN
       (default_context "mars:mars_mgs_mola" mars)
       {| width := Fin 360; height := Fin 180 |} no_corrections) = NaN.
Proof. repeat split; reflexivity. Qed.

(** C9 (amended): for every correction table, context, raster dimensions
    and options, a [NaN] latitude gives [v = NaN] and a [NaN] pixel row,
    and a non-finite longitude gives [u = NaN] and a [NaN] pixel column:
    [NaN] is propagated, not replaced.  A latitude of [+Infinity] or
    [-Infinity] is clamped (to the north pole [v = 0], to the south pole
    [v = 1], corrections disabled), and with corrections disabled and a
    finite prime meridian and central meridian, every finite latitude and
    longitude give finite [u] in [0,1) and [v] in [0,1], where [v] is that
    of the latitude clamped to [-90,90]. *)
Theorem C9_nonfinite_inputs
    (tbl : string -> option AlignmentCorrection) (ctx : ProjectionContext)
    (dims : PixelDimensions) (opts : option CoordinateTransformOptions) :
  (forall lon : num,
     v (latLonToNormalized tbl NaN lon ctx opts) = NaN /\
     pix_y (latLonToPixel tbl NaN lon ctx dims opts) = NaN) /\
  (forall lat lon : num, is_finite lon = false ->
     u (latLonToNormalized tbl lat lon ctx opts) = NaN /\
     pix_x (latLonToPixel tbl lat lon ctx dims opts) = NaN) /\
  (forall lon : num,
     neqv (v (latLonToNormalized tbl PosInf lon ctx no_corrections)) (Fin 0) /\
     neqv (v (latLonToNormalized tbl NegInf lon ctx no_corrections)) (Fin 1)) /\
  (forall p c lat lon : Q,
     primeMeridianOffsetDeg (projection ctx) = Fin p ->
     centralMeridianDeg (projection ctx) = Fin c ->
     exists a b,
       u (latLonToNormalized tbl (Fin lat) (Fin lon) ctx no_corrections) = Fin a /\
       v (latLonToNormalized tbl (Fin lat) (Fin lon) ctx no_corrections) = Fin b /\
       0 <= a < 1 /\ 0 <= b <= 1 /\
       (-90 <= lat <= 90 -> b == (90 - lat) / 180) /\
       (lat < -90 -> b == 1) /\ (90 < lat -> b == 0)).
Proof.
  split; [|split; [|split]].
  - intros lon. unfold latLonToPixel, latLonToNormalized.
    cbn [u v pix_x pix_y norm_pixelOffsetX norm_pixelOffsetY].
    destruct (opt_apply opts); split; reflexivity.
  - intros lat lon Hlon. unfold latLonToPixel, latLonToNormalized.
    cbn [u v pix_x pix_y norm_pixelOffsetX norm_pixelOffsetY].
    rewrite (wrap180_nonfinite lon Hlon).
    destruct (opt_apply opts); cbn [res_lon];
      [unfold applyAlignmentCorrectionForward; cbn [res_lon req_lon]|];
      split; reflexivity.
  - intros lon. unfold latLonToNormalized, no_corrections, opt_apply.
    cbn [applyCorrections u v res_lat]. split; vm_compute; reflexivity.
  - intros p c lat lon Hp Hc.
    unfold latLonToNormalized, no_corrections, opt_apply, opt_zoom.
    cbn [applyCorrections zoomLevel u v res_lat res_lon].
    rewrite Hp, Hc.
    destruct (clamp_any lat) as [cl [Ecl [Rcl [H1 [H2 H3]]]]]. rewrite Ecl.
    destruct (wrap180_spec lon) as [l1 [E1 _]]. rewrite E1. finarith.
    destruct (wrap180_spec (l1 + - p)) as [l2 [E2 _]]. rewrite E2. finarith.
    destruct (wrap180_spec (l2 + - c)) as [l3 [E3 _]]. rewrite E3.
    destruct (convertLongitude_spec l3 East180 East360) as [l4 [E4 [R4 _]]]. rewrite E4.
    cbn [in_domain] in R4. finarith.
    eexists; eexists; split; [reflexivity|]. split; [reflexivity|].
    split; [split|split; [split|]].
    + apply Qmult_le_0_compat; [lra|]. apply Qinv_le_0_compat. lra.
    + apply Qlt_shift_div_r; lra.
    + apply Qmult_le_0_compat; [lra|]. apply Qinv_le_0_compat. lra.
    + apply Qle_shift_div_r; lra.
    + split; [|split]; intros L.
      * rewrite (H1 L). reflexivity.
      * rewrite (H2 L). reflexivity.
      * rewrite (H3 L). reflexivity.
Qed.

End Claims.

(* ================================================================== *)
(** * Further properties of the code *)

Module Extras.

Import JsNum Geodesy Alignments Projection AlignmentFacts Datasets Tiles.
Local Open Scope Q_scope.

Lemma sign_cancel (d : Coordinates.LongitudeDirection) (a b : Q) :
  cong (Coordinates.sign d * a) (Coordinates.sign d * b) -> cong a b.
Proof.
  destruct d; cbn [Coordinates.sign]; intros H.
  - eapply cong_compat; [ | | exact H]; ring.
  - apply cong_opp in H. eapply cong_compat; [ | | exact H]; ring.
Qed.

(** The library's [wrapLongitude360] writes every finite value as the
    congruent value in [0,360) and its [wrapLongitude180] as the congruent
    value in [-180,180) (so [+180] becomes [-180]); both return non-finite
    values unchanged. *)
Theorem lib_wrap_ranges :
  (forall x : Q, exists y, Coordinates.wrapLongitude360 (Fin x) = Fin y /\ 0 <= y < 360 /\ cong y x) /\
  (forall x : Q, exists y, Coordinates.wrapLongitude180 (Fin x) = Fin y /\ -180 <= y < 180 /\ cong y x) /\
  neqv (Coordinates.wrapLongitude180 (Fin 180)) (Fin (-180)) /\
  (forall v : num, is_finite v = false ->
     Coordinates.wrapLongitude360 v = v /\ Coordinates.wrapLongitude180 v = v).
Proof.
  split; [exact Coordinates.coord_wrap360_spec|].
  split; [exact Coordinates.coord_wrap180_spec|].
  split; [reflexivity|].
  intros v Hv. unfold Coordinates.wrapLongitude360, Coordinates.wrapLongitude180.
  rewrite Hv. split; reflexivity.
Qed.

(** The library's [normalizeLongitude] returns, for every finite value and
    every convention (absent fields taken from the east/360 default), a
    canonical longitude in [-180,180) denoting the same meridian, with the
    sign flipped for a west-positive convention; non-finite values are
    returned unchanged. *)
Theorem lib_normalize_canonical :
  (forall (x : Q) (c : Coordinates.LongitudeConvention),
     exists y, Coordinates.normalizeLongitude (Fin x) c = Fin y /\ -180 <= y < 180 /\
       cong y (Coordinates.sign (Coordinates.merged_direction c) * x)) /\
  (forall (v : num) (c : Coordinates.LongitudeConvention), is_finite v = false ->
     Coordinates.normalizeLongitude v c = v).
Proof.
  split; [exact Coordinates.normalize_spec|].
  intros v c Hv. unfold Coordinates.normalizeLongitude. rewrite Hv. reflexivity.
Qed.

(** Denormalizing a normalized longitude with the same convention gives
    back the input, written in the convention's domain: the value in
    [0,360) (domain 360, the default) or in [-180,180) (domain 180) that
    denotes the same meridian. *)
Theorem lib_denormalize_normalize (x : Q) (c : Coordinates.LongitudeConvention) :
  exists y,
    Coordinates.denormalizeLongitude (Coordinates.normalizeLongitude (Fin x) c) c = Fin y /\
    Coordinates.in_dom (Coordinates.merged_domain c) y /\ cong y x.
Proof.
  destruct (Coordinates.normalize_spec x c) as [n [En [Rn Cn]]]. rewrite En.
  destruct (Coordinates.denormalize_spec n c) as [y [Ey [Ry Cy]]]. rewrite Ey.
  exists y. split; [reflexivity|]. split; [exact Ry|].
  apply (sign_cancel (Coordinates.merged_direction c)).
  eapply cong_trans; [exact Cy|]. exact Cn.
Qed.

(** Normalizing a denormalized canonical longitude with the same convention
    gives back the canonical value: the congruent value in [-180,180), equal
    to the input when the input lies in [-180,180). *)
Theorem lib_normalize_denormalize (x : Q) (c : Coordinates.LongitudeConvention) :
  exists y,
    Coordinates.normalizeLongitude (Coordinates.denormalizeLongitude (Fin x) c) c = Fin y /\
    -180 <= y < 180 /\ cong y x /\ (-180 <= x < 180 -> y == x).
Proof.
  destruct (Coordinates.denormalize_spec x c) as [d [Ed [Rd Cd]]]. rewrite Ed.
  destruct (Coordinates.normalize_spec d c) as [y [Ey [Ry Cy]]]. rewrite Ey.
  assert (C : cong y x) by (eapply cong_trans; [exact Cy|exact Cd]).
  exists y. split; [reflexivity|]. split; [exact Ry|]. split; [exact C|].
  intros Hx. apply (cong_unique y x (-180)); [lra|lra|exact C].
Qed.

(** [canonicalToDisplay] in the east-360 mode returns the value in [0,360)
    congruent to the canonical longitude plus 180 (a half-turn shift, so
    the canonical [0] displays as [180]); in the east-180 mode it returns
    the congruent value in [-180,180); non-finite values pass through. *)
Theorem lib_canonicalToDisplay :
  (forall x : Q, exists y,
     Coordinates.canonicalToDisplay (Fin x) Coordinates.mode_east360 = Fin y /\
     0 <= y < 360 /\ cong y (x + 180)) /\
  (forall x : Q, exists y,
     Coordinates.canonicalToDisplay (Fin x) Coordinates.mode_east180 = Fin y /\
     -180 <= y < 180 /\ cong y x) /\
  neqv (Coordinates.canonicalToDisplay (Fin 0) Coordinates.mode_east360) (Fin 180) /\
  (forall (v : num) (m : Coordinates.DisplayMode), is_finite v = false ->
     Coordinates.canonicalToDisplay v m = v).
Proof.
  split; [|split; [|split]].
  - intros x. unfold Coordinates.canonicalToDisplay.
    destruct (Coordinates.coord_wrap180_spec x) as [l [El [Rl Cl]]]. rewrite El, nadd_fin.
    destruct (Coordinates.coord_wrap360_spec (l + 180)) as [y [Ey [Ry Cy]]]. rewrite Ey.
    exists y. split; [reflexivity|]. split; [exact Ry|].
    eapply cong_trans; [exact Cy|]. apply cong_plus, Cl.
  - intros x. unfold Coordinates.canonicalToDisplay. apply Coordinates.coord_wrap180_spec.
  - reflexivity.
  - intros v m Hv. destruct v; [discriminate| | |]; destruct m; reflexivity.
Qed.

(** A [Pin] marker is placed, for every finite longitude, at a horizontal
    position in [0,100) percent of the map width, that position being the
    meridian's angle east of [-180] as a fraction of a turn; in particular
    [-180] and [+180] land at the same place. *)
Theorem pin_xPercent (lon : Q) :
  exists p, Coordinates.Pin_xPercent (Fin lon) = Fin p /\ 0 <= p < 100 /\
    cong (p * 360 / 100) (lon + 180).
Proof.
  unfold Coordinates.Pin_xPercent, Coordinates.canonicalToDisplay.
  destruct (Coordinates.coord_wrap180_spec lon) as [l1 [E1 [R1 C1]]]. rewrite E1.
  destruct (Coordinates.coord_wrap180_spec l1) as [l2 [E2 [R2 C2]]]. rewrite E2, nadd_fin.
  destruct (Coordinates.coord_wrap360_spec (l2 + 180)) as [y [Ey [Ry Cy]]]. rewrite Ey.
  rewrite ndiv_fin by lra. rewrite nmul_fin.
  exists (y / 360 * 100). split; [reflexivity|]. split.
  - split.
    + apply Qmult_le_0_compat; [|lra]. apply Qmult_le_0_compat; [lra|].
      apply Qinv_le_0_compat. lra.
    + assert (y / 360 < 1) by (apply Qlt_shift_div_r; lra). lra.
  - apply (cong_compat y _ (lon + 180)); [field | reflexivity |].
    eapply cong_trans; [exact Cy|]. apply cong_plus.
    eapply cong_trans; [exact C2|exact C1].
Qed.

(** Converting a finite longitude from [a] to [b] and then from [b] to [c]
    gives the same value as converting it from [a] to [c] directly. *)
Theorem convertLongitude_compose (x : Q) (a b c : LongitudeConvention) :
  exists y z,
    convertLongitude (convertLongitude (Fin x) a b) b c = Fin y /\
    convertLongitude (Fin x) a c = Fin z /\ y == z.
Proof.
  destruct (convertLongitude_spec x a b) as [m [Em [Rm Cm]]]. rewrite Em.
  destruct (convertLongitude_spec m b c) as [y [Ey [Ry Cy]]].
  destruct (convertLongitude_spec x a c) as [z [Ez [Rz Cz]]].
  exists y, z. split; [exact Ey|]. split; [exact Ez|].
  apply (in_domain_cong c); [exact Ry|exact Rz|].
  apply (direction_cancel c). eapply cong_trans; [exact Cy|].
  eapply cong_trans; [exact Cm|]. apply cong_sym, Cz.
Qed.


Lemma clamp_high (lat : Q) : 90 <= lat -> nmax (Fin (-90)) (nmin (Fin 90) (Fin lat)) = Fin 90.
Proof.
  intros H. unfold nmin, nmax, nlt; cbn [is_nan orb].
  rewrite (Qpos_bool_false (90 - lat)) by lra. rewrite Qpos_bool_true by lra. reflexivity.
Qed.

Lemma clamp_low (lat : Q) : lat <= -90 -> nmax (Fin (-90)) (nmin (Fin 90) (Fin lat)) = Fin (-90).
Proof.
  intros H. unfold nmin, nmax, nlt; cbn [is_nan orb].
  rewrite (Qpos_bool_true (90 - lat)) by lra. rewrite Qpos_bool_false by lra. reflexivity.
Qed.

(** Every latitude at or beyond a pole, including the infinities, is
    projected exactly as the pole itself, whatever the correction table,
    context, longitude and options: the clamp happens before any
    correction. *)
Theorem latitude_clamp_poles (tbl : string -> option AlignmentCorrection)
    (ctx : ProjectionContext) (dims : PixelDimensions)
    (opts : option CoordinateTransformOptions) (lon : num) :
  (forall lat : Q, 90 <= lat ->
     latLonToNormalized tbl (Fin lat) lon ctx opts = latLonToNormalized tbl (Fin 90) lon ctx opts /\
     latLonToPixel tbl (Fin lat) lon ctx dims opts = latLonToPixel tbl (Fin 90) lon ctx dims opts) /\
  latLonToNormalized tbl PosInf lon ctx opts = latLonToNormalized tbl (Fin 90) lon ctx opts /\
  latLonToPixel tbl PosInf lon ctx dims opts = latLonToPixel tbl (Fin 90) lon ctx dims opts /\
  (forall lat : Q, lat <= -90 ->
     latLonToNormalized tbl (Fin lat) lon ctx opts = latLonToNormalized tbl (Fin (-90)) lon ctx opts /\
     latLonToPixel tbl (Fin lat) lon ctx dims opts = latLonToPixel tbl (Fin (-90)) lon ctx dims opts) /\
  latLonToNormalized tbl NegInf lon ctx opts = latLonToNormalized tbl (Fin (-90)) lon ctx opts /\
  latLonToPixel tbl NegInf lon ctx dims opts = latLonToPixel tbl (Fin (-90)) lon ctx dims opts.
Proof.
  assert (N : forall lat lat', nmax (Fin (-90)) (nmin (Fin 90) lat) = nmax (Fin (-90)) (nmin (Fin 90) lat') ->
            latLonToNormalized tbl lat lon ctx opts = latLonToNormalized tbl lat' lon ctx opts).
  { intros lat lat' E. unfold latLonToNormalized. rewrite E. reflexivity. }
  assert (P : forall lat lat', latLonToNormalized tbl lat lon ctx opts = latLonToNormalized tbl lat' lon ctx opts ->
            latLonToPixel tbl lat lon ctx dims opts = latLonToPixel tbl lat' lon ctx dims opts).
  { intros lat lat' E. unfold latLonToPixel. rewrite E. reflexivity. }
  assert (Hp : latLonToNormalized tbl PosInf lon ctx opts = latLonToNormalized tbl (Fin 90) lon ctx opts)
    by (apply N; rewrite (clamp_high 90) by lra; reflexivity).
  assert (Hn : latLonToNormalized tbl NegInf lon ctx opts = latLonToNormalized tbl (Fin (-90)) lon ctx opts)
    by (apply N; rewrite (clamp_low (-90)) by lra; reflexivity).
  split; [|split; [exact Hp|split; [exact (P _ _ Hp)|split; [|split; [exact Hn|exact (P _ _ Hn)]]]]].
  - intros lat H. assert (E := N (Fin lat) (Fin 90)).
    rewrite clamp_high, (clamp_high 90) in E by lra.
    specialize (E eq_refl). split; [exact E | exact (P _ _ E)].
  - intros lat H. assert (E := N (Fin lat) (Fin (-90))).
    rewrite clamp_low, (clamp_low (-90)) in E by lra.
    specialize (E eq_refl). split; [exact E | exact (P _ _ E)].
Qed.

(** With corrections disabled, [pixelToLatLon] reads a pixel row [y] of a
    raster of height [H] as the latitude [90 - 180 y / H] (in [-90,90] for
    rows inside the raster), and every finite column [x] of a raster of
    width [W] as a longitude in the range of the target convention denoting
    the meridian [360 x / W] east of the central meridian (shifted by the
    prime-meridian offset). *)
Theorem pixelToLatLon_no_corrections (tbl : string -> option AlignmentCorrection)
    (ctx : ProjectionContext) (opts : option CoordinateTransformOptions)
    (p c W H x y : Q) :
  opt_apply opts = false ->
  primeMeridianOffsetDeg (projection ctx) = Fin p ->
  centralMeridianDeg (projection ctx) = Fin c ->
  0 < W -> 0 < H ->
  exists la lo,
    pixelToLatLon tbl (Fin x) (Fin y) ctx {| width := Fin W; height := Fin H |} opts =
      {| geo_lat := Fin la; geo_lon := Fin lo |} /\
    la == 90 - 180 * y / H /\ (0 <= y <= H -> -90 <= la <= 90) /\
    in_domain (opt_target opts) lo /\
    cong (direction (opt_target opts) * lo) (360 * x / W + c + p).
Proof.
  intros Ha Hp Hc HW HH. unfold pixelToLatLon. rewrite Ha, Hp, Hc. cbn [negb width height].
  finarith.
  destruct (convertLongitude_spec (x / W * 360) East360 East180) as [l1 [E1 [R1 C1]]].
  rewrite E1, nadd_fin.
  destruct (wrap180_spec (l1 + c)) as [l2 [E2 [R2 C2]]]. rewrite E2, nadd_fin.
  destruct (wrap180_spec (l2 + p)) as [l3 [E3 [R3 C3]]]. rewrite E3.
  destruct (convertLongitude_spec l3 East180 (opt_target opts)) as [l4 [E4 [R4 C4]]]. rewrite E4.
  cbn [direction] in C1. finarith.
  eexists; eexists; split; [reflexivity|].
  split; [field; lra|]. split.
  - intros Hy. assert (0 <= y / H <= 1).
    { split; [apply Qmult_le_0_compat; [lra|apply Qinv_le_0_compat; lra]|].
      apply Qle_shift_div_r; lra. }
    split; lra.
  - split; [exact R4|].
    eapply cong_trans; [exact C4|].
    cbn [direction]. apply (cong_compat l3 _ (360 * x / W + c + p) _); [ring|reflexivity|].
    eapply cong_trans; [exact C3|]. apply cong_plus.
    eapply cong_trans; [exact C2|]. apply cong_plus.
    refine (cong_compat _ _ _ _ _ _ C1); [ring | field; lra].
Qed.

Lemma pixelToLatLon_no_corrections_witness :
  exists la lo,
    pixelToLatLon (fun _ => None) (Fin 512) (Fin 128) (default_context "mars:mars_mgs_mola" mars)
      {| width := Fin 1024; height := Fin 512 |} no_corrections =
      {| geo_lat := Fin la; geo_lon := Fin lo |} /\
    la == 90 - 180 * 128 / 512 /\ (0 <= 128 <= 512 -> -90 <= la <= 90) /\
    in_domain (opt_target no_corrections) lo /\
    cong (direction (opt_target no_corrections) * lo) (360 * 512 / 1024 + 0 + 0).
Proof.
  apply (pixelToLatLon_no_corrections (fun _ => None) (default_context "mars:mars_mgs_mola" mars)
           no_corrections 0 0 1024 512 512 128); reflexivity.
Defined.

(** A dataset without an entry in the correction table is left unchanged by
    both the forward and the inverse correction (every latitude and
    longitude, finite or not, and any zoom), with zero pixel offsets. *)
Theorem alignment_absent_identity (tbl : string -> option AlignmentCorrection)
    (id : string) (lat lon : num) (z : option num) :
  tbl id = None ->
  let req := {| datasetId := id; req_lat := lat; req_lon := lon; req_zoom := z |} in
  neqv (res_lat (applyAlignmentCorrectionForward tbl req)) lat /\
  neqv (res_lon (applyAlignmentCorrectionForward tbl req)) lon /\
  pixelOffsetX (applyAlignmentCorrectionForward tbl req) = Fin 0 /\
  pixelOffsetY (applyAlignmentCorrectionForward tbl req) = Fin 0 /\
  neqv (res_lat (applyAlignmentCorrectionInverse tbl req)) lat /\
  neqv (res_lon (applyAlignmentCorrectionInverse tbl req)) lon /\
  neqv (pixelOffsetX (applyAlignmentCorrectionInverse tbl req)) (Fin 0) /\
  neqv (pixelOffsetY (applyAlignmentCorrectionInverse tbl req)) (Fin 0).
Proof.
  intros Hn req. subst req. unfold applyAlignmentCorrectionForward, applyAlignmentCorrectionInverse,
    getAlignmentCorrection. cbn [datasetId req_lat req_lon req_zoom]. rewrite Hn.
  assert (R : forall l, resolveDynamicOffsets None l z =
                {| latOffset := Fin 0; lonOffset := Fin 0; offPixelX := Fin 0; offPixelY := Fin 0 |})
    by (intros l; destruct z; reflexivity).
  rewrite !R. cbn [field_or1 res_lat res_lon pixelOffsetX pixelOffsetY latOffset lonOffset
                   offPixelX offPixelY].
  destruct lat, lon; repeat split; cbn; field.
Qed.

Lemma alignment_absent_identity_witness :
  let req := {| datasetId := "moon:lro_wac_global"; req_lat := Fin 12; req_lon := PosInf;
                req_zoom := Some (Fin 3) |} in
  neqv (res_lat (applyAlignmentCorrectionForward (fun _ => None) req)) (Fin 12) /\
  neqv (res_lon (applyAlignmentCorrectionForward (fun _ => None) req)) PosInf /\
  pixelOffsetX (applyAlignmentCorrectionForward (fun _ => None) req) = Fin 0 /\
  pixelOffsetY (applyAlignmentCorrectionForward (fun _ => None) req) = Fin 0 /\
  neqv (res_lat (applyAlignmentCorrectionInverse (fun _ => None) req)) (Fin 12) /\
  neqv (res_lon (applyAlignmentCorrectionInverse (fun _ => None) req)) PosInf /\
  neqv (pixelOffsetX (applyAlignmentCorrectionInverse (fun _ => None) req)) (Fin 0) /\
  neqv (pixelOffsetY (applyAlignmentCorrectionInverse (fun _ => None) req)) (Fin 0).
Proof.
  exact (alignment_absent_identity (fun _ => None) "moon:lro_wac_global" (Fin 12) PosInf
           (Some (Fin 3)) eq_refl).
Defined.

(** The pixel offsets of a correction depend only on the dataset and the
    zoom, never on the position (latitude bands shift only latitude and
    longitude), and the inverse correction's pixel offsets are the negation
    of the forward ones. *)
Theorem alignment_pixel_offsets (tbl : string -> option AlignmentCorrection)
    (id : string) (lat lon lat' lon' : num) (z : option num) :
  let req := {| datasetId := id; req_lat := lat; req_lon := lon; req_zoom := z |} in
  let req' := {| datasetId := id; req_lat := lat'; req_lon := lon'; req_zoom := z |} in
  pixelOffsetX (applyAlignmentCorrectionForward tbl req) =
    pixelOffsetX (applyAlignmentCorrectionForward tbl req') /\
  pixelOffsetY (applyAlignmentCorrectionForward tbl req) =
    pixelOffsetY (applyAlignmentCorrectionForward tbl req') /\
  pixelOffsetX (applyAlignmentCorrectionInverse tbl req) =
    nopp (pixelOffsetX (applyAlignmentCorrectionForward tbl req)) /\
  pixelOffsetY (applyAlignmentCorrectionInverse tbl req) =
    nopp (pixelOffsetY (applyAlignmentCorrectionForward tbl req)).
Proof.
  intros req req'. subst req req'. unfold applyAlignmentCorrectionForward, applyAlignmentCorrectionInverse.
  cbn [datasetId req_lat req_lon req_zoom pixelOffsetX pixelOffsetY].
  destruct (resolve_pixel_lat (getAlignmentCorrection tbl id) lat lat' z) as [Ex Ey].
  split; [exact Ex|]. split; [exact Ey|]. split; reflexivity.
Qed.


(** *** The dataset registry *)

Lemma map_eq_in {A B : Type} (f g : A -> B) (l : list A) :
  map f l = map g l -> forall a, In a l -> f a = g a.
Proof.
  induction l as [|x l IH]; cbn; intros E a H; [contradiction|].
  injection E as E1 E2. destruct H as [<-|H]; [exact E1 | exact (IH E2 a H)].
Qed.

Lemma registry_lookup :
  map (fun d => getDatasetById (id d)) SOLAR_SYSTEM_DATASETS = map Some SOLAR_SYSTEM_DATASETS.
Proof. vm_compute. reflexivity. Qed.

Lemma registry_keys :
  map compatibilityKey SOLAR_SYSTEM_DATASETS =
  map (fun d => TREK_COMPAT_KEY (body d)) SOLAR_SYSTEM_DATASETS.
Proof. vm_compute. reflexivity. Qed.

Lemma registry_no_gibs :
  map (fun d => Tiles.includes (template d) "gibs.earthdata.nasa.gov"%string) SOLAR_SYSTEM_DATASETS =
  map (fun _ => false) SOLAR_SYSTEM_DATASETS.
Proof. vm_compute. reflexivity. Qed.

Lemma TREK_COMPAT_KEY_inj (b1 b2 : PlanetaryBodyKey) :
  TREK_COMPAT_KEY b1 = TREK_COMPAT_KEY b2 -> b1 = b2.
Proof. destruct b1, b2; intros H; try reflexivity; vm_compute in H; discriminate H. Qed.

Lemma PlanetaryBodyKey_eqb_iff (a b : PlanetaryBodyKey) : PlanetaryBodyKey_eqb a b = true <-> a = b.
Proof. destruct a, b; vm_compute; split; intros; congruence. Qed.

Lemma getDatasetById_some (i : string) (d : DatasetMetadata) :
  getDatasetById i = Some d -> In d SOLAR_SYSTEM_DATASETS /\ id d = i.
Proof.
  unfold getDatasetById. intros H. apply find_some in H as [H1 H2].
  split; [exact H1 | apply String.eqb_eq, H2].
Qed.

(** Looking a dataset up by its own id gives that dataset back (the ids of
    the registry are distinct), and a lookup that succeeds returns a
    registered dataset carrying the requested id. *)
Theorem datasets_lookup :
  (forall d, In d SOLAR_SYSTEM_DATASETS -> getDatasetById (id d) = Some d) /\
  (forall i d, getDatasetById i = Some d -> In d SOLAR_SYSTEM_DATASETS /\ id d = i).
Proof.
  split; [exact (map_eq_in _ _ _ registry_lookup) | exact getDatasetById_some].
Qed.

(** Two ids are compatible exactly when both are registered and the two
    datasets belong to the same body: every registered dataset carries its
    body's compatibility key, and distinct bodies have distinct keys. *)
Theorem areDatasetsCompatible_same_body (a b : string) :
  areDatasetsCompatible a b = true <->
  exists da db, getDatasetById a = Some da /\ getDatasetById b = Some db /\ body da = body db.
Proof.
  unfold areDatasetsCompatible.
  destruct (getDatasetById a) as [da|] eqn:Ea; destruct (getDatasetById b) as [db|] eqn:Eb.
  - apply getDatasetById_some in Ea as [Ia _]. apply getDatasetById_some in Eb as [Ib _].
    rewrite String.eqb_eq, (map_eq_in _ _ _ registry_keys da Ia),
      (map_eq_in _ _ _ registry_keys db Ib).
    split.
    + intros H. exists da, db. split; [reflexivity|]. split; [reflexivity|].
      exact (TREK_COMPAT_KEY_inj _ _ H).
    + intros (da' & db' & H1 & H2 & H3). injection H1 as <-. injection H2 as <-.
      rewrite H3. reflexivity.
  - split; [discriminate | intros (da' & db' & _ & H & _); discriminate H].
  - split; [discriminate | intros (da' & db' & H & _); discriminate H].
  - split; [discriminate | intros (da' & db' & H & _); discriminate H].
Qed.

(** [getDatasetsForBody b] lists exactly the registered datasets of body
    [b]; any two of them are compatible; the list is empty for Ceres and
    Vesta, which have no dataset, and non-empty for the other bodies. *)
Theorem getDatasetsForBody_spec (b : PlanetaryBodyKey) :
  (forall d, In d (getDatasetsForBody b) <-> In d SOLAR_SYSTEM_DATASETS /\ body d = b) /\
  (forall d1 d2, In d1 (getDatasetsForBody b) -> In d2 (getDatasetsForBody b) ->
     areDatasetsCompatible (id d1) (id d2) = true) /\
  (getDatasetsForBody b = [] <-> b = ceres \/ b = vesta).
Proof.
  assert (M : forall d, In d (getDatasetsForBody b) <-> In d SOLAR_SYSTEM_DATASETS /\ body d = b).
  { intros d. unfold getDatasetsForBody. rewrite filter_In, PlanetaryBodyKey_eqb_iff. reflexivity. }
  split; [exact M|]. split.
  - intros d1 d2 H1 H2. apply M in H1 as [I1 B1]. apply M in H2 as [I2 B2].
    apply areDatasetsCompatible_same_body. exists d1, d2.
    split; [exact (map_eq_in _ _ _ registry_lookup d1 I1)|].
    split; [exact (map_eq_in _ _ _ registry_lookup d2 I2)|]. congruence.
  - destruct b; split; intros H;
      try (destruct H as [H|H]; discriminate H);
      try (vm_compute in H; discriminate H);
      try (left; reflexivity); try (right; reflexivity); vm_compute; reflexivity.
Qed.

(** No registered dataset's template names the GIBS host, so for every
    registered dataset the row written into a tile URL is the requested row
    [y] itself, never the flipped [2^z - 1 - y]; the column is [x] wrapped
    into [[0, 2^level)]. *)
Theorem registered_tiles_unflipped (d : DatasetMetadata) (level : nat) (x y : Z) :
  In d SOLAR_SYSTEM_DATASETS -> (0 <= y < 2 ^ Z.of_nat level)%Z ->
  let z := Z.of_nat (level + minZoom (tiling d)) in
  let col := (x mod 2 ^ Z.of_nat level)%Z in
  Tiles.PlanetaryMap.getTileUrl d level x y =
    Tiles.replace_all "{y}" (Tiles.String_of y)
      (Tiles.replace_all "{x}" (Tiles.String_of col)
        (Tiles.replace_all "{col}" (Tiles.String_of col)
          (Tiles.replace_all "{row}" (Tiles.String_of y)
            (Tiles.replace_all "{z}" (Tiles.String_of z) (template d))))).
Proof.
  intros I Hy z col. unfold Tiles.PlanetaryMap.getTileUrl. fold z.
  rewrite (map_eq_in _ _ _ registry_no_gibs d I).
  rewrite Tiles.wrap_column_mod by apply Tiles.pow2_pos.
  replace ((y <? 0) || (2 ^ Z.of_nat level <=? y))%Z with false
    by (symmetry; apply orb_false_iff; split; [apply Z.ltb_ge | apply Z.leb_gt]; lia).
  reflexivity.
Qed.

Lemma registered_tiles_unflipped_witness :
  match SOLAR_SYSTEM_DATASETS with
  | d :: _ =>
      In d SOLAR_SYSTEM_DATASETS /\ (0 <= 2 < 2 ^ Z.of_nat 3)%Z /\
      Tiles.PlanetaryMap.getTileUrl d 3 (-1) 2 =
        Tiles.replace_all "{y}" (Tiles.String_of 2)
          (Tiles.replace_all "{x}" (Tiles.String_of (-1 mod 2 ^ Z.of_nat 3))
            (Tiles.replace_all "{col}" (Tiles.String_of (-1 mod 2 ^ Z.of_nat 3))
              (Tiles.replace_all "{row}" (Tiles.String_of 2)
                (Tiles.replace_all "{z}" (Tiles.String_of (Z.of_nat (3 + minZoom (tiling d))))
                   (template d)))))
  | [] => False
  end.
Proof.
  cbv beta iota delta [SOLAR_SYSTEM_DATASETS].
  split; [left; reflexivity|]. split; [lia|].
  apply (registered_tiles_unflipped _ 3 (-1) 2); [left; reflexivity | lia].
Defined.

(** [normalizeLongitude] of [geodesy.ts] (a conversion from a convention to
    itself) writes a finite longitude in the convention's range, as a value
    denoting the same meridian, and normalizing that value again leaves it
    unchanged. *)
Theorem geodesy_normalizeLongitude_props (x : Q) (c : LongitudeConvention) :
  exists n n', normalizeLongitude (Fin x) c = Fin n /\ in_domain c n /\ cong n x /\
               normalizeLongitude (Fin n) c = Fin n' /\ n' == n.
Proof.
  unfold normalizeLongitude.
  destruct (convertLongitude_spec x c c) as [n [En [Rn Cn]]].
  destruct (convertLongitude_spec n c c) as [n' [En' [Rn' Cn']]].
  exists n, n'. split; [exact En|]. split; [exact Rn|]. split; [exact (direction_cancel c _ _ Cn)|].
  split; [exact En'|]. apply (in_domain_cong c); [exact Rn'|exact Rn|exact (direction_cancel c _ _ Cn')].
Qed.

(** [convertLongitude] depends on a finite longitude only up to whole turns:
    moving the input by [360 k] gives the same result; an infinite or NaN
    input gives NaN for every pair of conventions. *)
Theorem convertLongitude_periodic_nonfinite :
  (forall (x : Q) (k : Z) (a b : LongitudeConvention),
     exists y y', convertLongitude (Fin (x + 360 * inject_Z k)) a b = Fin y /\
                  convertLongitude (Fin x) a b = Fin y' /\ y == y') /\
  (forall a b : LongitudeConvention,
     convertLongitude NaN a b = NaN /\ convertLongitude PosInf a b = NaN /\
     convertLongitude NegInf a b = NaN).
Proof.
  split.
  - intros x k a b.
    destruct (convertLongitude_spec (x + 360 * inject_Z k) a b) as [y [Ey [Ry Cy]]].
    destruct (convertLongitude_spec x a b) as [y' [Ey' [Ry' Cy']]].
    exists y, y'. split; [exact Ey|]. split; [exact Ey'|].
    apply (in_domain_cong b); [exact Ry|exact Ry'|]. apply (direction_cancel b).
    eapply cong_trans; [exact Cy|]. eapply cong_trans; [|apply cong_sym, Cy'].
    destruct a; cbn [direction].
    + apply (cong_shift _ _ k). ring.
    + apply (cong_shift _ _ k). ring.
    + apply (cong_shift _ _ (- k)). rewrite inject_Z_opp. ring.
  - intros a b. destruct a, b; (split; [|split]); reflexivity.
Qed.

End Extras.

(* ------------------------------------------------------------------ *)
(** ** Further properties of the reverse search and the search helpers *)

Module SearchExtras.

Import Reals Lra ReverseSearch.
Local Open Scope R_scope.

Lemma atan2_range (y x : R) : 0 <= y -> 0 <= x -> 0 <= atan2 y x <= PI / 2.
Proof.
  intros Hy Hx. pose proof PI_RGT_0. unfold atan2.
  destruct (Rlt_dec 0 x) as [Px|Nx].
  - assert (D : 0 <= y / x) by (unfold Rdiv; apply Rmult_le_pos; [lra | left; apply Rinv_0_lt_compat; lra]).
    destruct (atan_bound (y / x)) as [_ B]. split; [|lra].
    destruct (Rle_lt_or_eq_dec _ _ D) as [Lt|Eq].
    + rewrite <- atan_0. left. apply atan_increasing. exact Lt.
    + rewrite <- Eq, atan_0. lra.
  - destruct (Rlt_dec x 0); [lra|].
    destruct (Rlt_dec 0 y); [lra|]. destruct (Rlt_dec y 0); lra.
Qed.

Lemma hav_c_range (a : R) : 0 <= hav_c a <= PI.
Proof.
  unfold hav_c. pose proof (atan2_range (sqrt a) (sqrt (1 - a)) (sqrt_pos _) (sqrt_pos _)). lra.
Qed.

Lemma hav_c_0 : hav_c 0 = 0.
Proof.
  unfold hav_c. rewrite Rminus_0_r, sqrt_0, sqrt_1. unfold atan2.
  destruct (Rlt_dec 0 1); [|lra]. unfold Rdiv. rewrite Rmult_0_l, atan_0. ring.
Qed.

Lemma hav_a_self (la lo : R) : hav_a la lo la lo = 0.
Proof.
  unfold hav_a. cbv zeta. rewrite !Rminus_diag.
  replace (0 * PI / 180 / 2) with 0 by field. rewrite sin_0. ring.
Qed.

Lemma hav_a_sym (a b c d : R) : hav_a a b c d = hav_a c d a b.
Proof.
  unfold hav_a. cbv zeta.
  replace ((a - c) * PI / 180 / 2) with (- ((c - a) * PI / 180 / 2)) by field.
  replace ((b - d) * PI / 180 / 2) with (- ((d - b) * PI / 180 / 2)) by field.
  rewrite !sin_sqr_neg. ring.
Qed.

Lemma hav_a_lon_shift (a b c d : R) (k : Z) : hav_a a b c (d + 360 * IZR k) = hav_a a b c d.
Proof.
  unfold hav_a. cbv zeta.
  replace ((d + 360 * IZR k - b) * PI / 180 / 2) with ((d - b) * PI / 180 / 2 + IZR k * PI) by field.
  rewrite sin_sqr_shift. reflexivity.
Qed.

Lemma body_radius_pos (body : string) : 0 < body_radius body.
Proof. unfold body_radius. destruct (body_key_of body) as [[]| |]; cbn [BODY_RADII_KM]; lra. Qed.

(** the closure's distance, for any body string that is not an inherited member *)
Lemma calculateDistance_any (body : string) (lat1 lon1 lat2 lon2 : R) :
  body_key_of body <> Inherited ->
  calculateDistance body lat1 lon1 lat2 lon2 = JFin (haversine_km (body_radius body) lat1 lon1 lat2 lon2).
Proof.
  intros Hi. unfold calculateDistance, haversine_km, hav_c, body_radius.
  destruct (body_key_of body) as [k| |]; [| contradiction Hi; reflexivity |];
    cbv beta iota zeta; rewrite hav_a_normalized by (try destruct k; reflexivity); reflexivity.
Qed.

(** for an inherited member the radius is not a number: every distance is NaN *)
Lemma calculateDistance_nan (body : string) (lat1 lon1 lat2 lon2 : R) :
  body_key_of body = Inherited -> calculateDistance body lat1 lon1 lat2 lon2 = JNaN.
Proof. intros Hi. unfold calculateDistance. rewrite Hi. reflexivity. Qed.

(** the distance the closure computes to a feature, when it is a number *)
Definition feature_distance (body : string) (la lo : R) (g : PlanetFeature) : R :=
  haversine_km (body_radius body) la lo (lat g) (lon g).

Lemma helpers_haversine (a b c d : R) :
  SearchHelpers.calculateDistance a b c d = haversine_km 3390 a b c d.
Proof.
  unfold SearchHelpers.calculateDistance, haversine_km, hav_a. cbv zeta.
  assert (Ha : forall (s1 c1 c2 s2 : R),
             s1 * s1 + c1 * c2 * s2 * s2 = s1 ^ 2 + c1 * c2 * s2 ^ 2) by (intros; ring).
  rewrite Ha. reflexivity.
Qed.

Lemma helpers_range (a b c d : R) : 0 <= SearchHelpers.calculateDistance a b c d <= 3390 * PI.
Proof.
  rewrite helpers_haversine. unfold haversine_km. pose proof (hav_c_range (hav_a a b c d)). lra.
Qed.

Lemma helpers_self (a b : R) : SearchHelpers.calculateDistance a b a b = 0.
Proof. rewrite helpers_haversine. unfold haversine_km. rewrite hav_a_self, hav_c_0. ring. Qed.

(** the loop keeps the first feature of least distance *)
Lemma fold_first_min (dist : PlanetFeature -> jsnum) (dr : PlanetFeature -> R)
    (Hd : forall g, dist g = JFin (dr g)) (l : list PlanetFeature) :
  forall f,
  let '(f', d') :=
    fold_left (fun '(nearestFeature, minDistance) feature =>
                 if jlt (dist feature) minDistance then (feature, dist feature)
                 else (nearestFeature, minDistance)) l (f, dist f) in
  d' = JFin (dr f') /\
  ((f' = f /\ forall g, In g l -> dr f <= dr g) \/
   (exists pre post, l = pre ++ f' :: post /\ dr f' < dr f /\
      (forall g, In g pre -> dr f' < dr g) /\ (forall g, In g post -> dr f' <= dr g))).
Proof.
  induction l as [|x l IH]; intros f; cbn [fold_left].
  - split; [apply Hd|]. left. split; [reflexivity|intros g []].
  - destruct (jlt (dist x) (dist f)) eqn:J; rewrite !Hd in J;
      [apply jlt_fin in J as Hlt|apply jlt_fin_false in J as Hge].
    + specialize (IH x). destruct (fold_left _ l (x, dist x)) as [f' d'].
      destruct IH as [E [[-> Hall] | (pre & post & Hl & Hlt' & Hpre & Hpost)]];
        split; try exact E; right.
      * exists [], l. split; [reflexivity|]. split; [exact Hlt|].
        split; [intros g []|exact Hall].
      * exists (x :: pre), post. split; [rewrite Hl; reflexivity|]. split; [lra|].
        split; [intros g [<-|Hg]; [lra|exact (Hpre g Hg)]|exact Hpost].
    + specialize (IH f). destruct (fold_left _ l (f, dist f)) as [f' d'].
      destruct IH as [E [[-> Hall] | (pre & post & Hl & Hlt' & Hpre & Hpost)]];
        split; try exact E.
      * left. split; [reflexivity|]. intros g [<-|Hg]; [lra|exact (Hall g Hg)].
      * right. exists (x :: pre), post. split; [rewrite Hl; reflexivity|]. split; [exact Hlt'|].
        split; [intros g [<-|Hg]; [lra|exact (Hpre g Hg)]|exact Hpost].
Qed.

(** The search of [handleReverseSearch] returns nothing exactly when no
    feature is loaded.  For a body whose name is not a member inherited
    from [Object.prototype], it returns a feature [f] with its haversine
    distance (a number) such that every feature listed before [f] is
    strictly farther and every feature after it is at least as far: of
    several features at the least distance, the first listed one wins.
    For an inherited member such as [constructor] or [toString] every
    distance is NaN, no comparison succeeds, and the first feature is
    returned with distance NaN. *)
Theorem handleReverseSearch_first_minimum (la lo : R) (body : string)
    (features : list PlanetFeature) :
  (handleReverseSearch la lo body features = None <-> features = []) /\
  (body_key_of body <> Inherited ->
   forall f d, handleReverseSearch la lo body features = Some (f, d) ->
     d = JFin (feature_distance body la lo f) /\
     exists pre post, features = pre ++ f :: post /\
       (forall g, In g pre -> feature_distance body la lo f < feature_distance body la lo g) /\
       (forall g, In g post -> feature_distance body la lo f <= feature_distance body la lo g)) /\
  (body_key_of body = Inherited ->
   forall f0 fs, features = f0 :: fs -> handleReverseSearch la lo body features = Some (f0, JNaN)).
Proof.
  split.
  { destruct features; split; intros H; (reflexivity || discriminate H). }
  split.
  - intros Hi f d. destruct features as [|f0 fs]; [intros H; discriminate H|].
    pose proof (fold_first_min (fun g => calculateDistance body la lo (lat g) (lon g))
                  (feature_distance body la lo)
                  (fun g => calculateDistance_any body la lo (lat g) (lon g) Hi) fs f0) as H.
    cbv beta in H. unfold handleReverseSearch. cbv zeta. cbn [fold_left].
    match goal with
    | |- context [if ?c then ?p else ?p] => replace (if c then p else p) with p by (destruct c; reflexivity)
    end.
    destruct (fold_left _ fs _) as [f' d'].
    intros E. injection E as <- <-.
    destruct H as [E [[-> Hall] | (pre & post & Hl & Hlt & Hpre & Hpost)]];
      split; try exact E.
    + exists [], fs. split; [reflexivity|]. split; [intros g []|exact Hall].
    + exists (f0 :: pre), post. split; [rewrite Hl; reflexivity|].
      split; [intros g [<-|Hg]; [exact Hlt|exact (Hpre g Hg)]|exact Hpost].
  - intros Hi f0 fs ->. unfold handleReverseSearch. cbv zeta.
    rewrite (calculateDistance_nan body la lo (lat f0) (lon f0) Hi).
    pose proof (fold_nan (fun g => calculateDistance body la lo (lat g) (lon g))
                  (fun g => calculateDistance_nan body la lo (lat g) (lon g) Hi) (f0 :: fs) f0) as N.
    cbv beta in N. rewrite N. reflexivity.
Qed.

(** For a body whose name is not a member inherited from
    [Object.prototype], the distance returned by the search is a number,
    never negative and never more than half a great circle of the radius
    used for the body ([pi] times [BODY_RADII_KM] of the body, or of
    [unknown] for an unlisted name), and it is 0 whenever a loaded feature
    lies exactly at the query point; for an inherited member it is NaN. *)
Theorem handleReverseSearch_distance_bounds (la lo : R) (body : string)
    (features : list PlanetFeature) :
  match handleReverseSearch la lo body features with
  | None => features = []
  | Some (f, d) =>
      (body_key_of body = Inherited -> d = JNaN) /\
      (body_key_of body <> Inherited ->
       exists r, d = JFin r /\ 0 <= r <= PI * body_radius body /\
         ((exists g, In g features /\ lat g = la /\ lon g = lo) -> r = 0))
  end.
Proof.
  destruct features as [|f0 fs]; [reflexivity|].
  assert (Hcase : body_key_of body = Inherited \/ body_key_of body <> Inherited)
    by (destruct (body_key_of body); [right; discriminate|left; reflexivity|right; discriminate]).
  destruct Hcase as [Hi|Hi].
  - unfold handleReverseSearch. cbv zeta.
    rewrite (calculateDistance_nan body la lo (lat f0) (lon f0) Hi).
    pose proof (fold_nan (fun g => calculateDistance body la lo (lat g) (lon g))
                  (fun g => calculateDistance_nan body la lo (lat g) (lon g) Hi) (f0 :: fs) f0) as N.
    cbv beta in N. rewrite N. cbv beta iota.
    split; [intros _; reflexivity|intros Hi'; contradiction (Hi' Hi)].
  - pose proof (nearest_spec (fun g => calculateDistance body la lo (lat g) (lon g))
                  (feature_distance body la lo)
                  (fun g => calculateDistance_any body la lo (lat g) (lon g) Hi) f0 fs) as H.
    cbv beta in H. unfold handleReverseSearch. cbv zeta.
    destruct (fold_left _ (f0 :: fs) _) as [f d].
    destruct H as [_ [E Hmin]].
    split; [intros Hi'; contradiction (Hi Hi')|intros _].
    exists (feature_distance body la lo f). split; [exact E|].
    pose proof (body_radius_pos body) as Rp.
    assert (B : 0 <= feature_distance body la lo f <= PI * body_radius body).
    { unfold feature_distance, haversine_km.
      pose proof (hav_c_range (hav_a la lo (lat f) (lon f))) as [C1 C2].
      split; [apply Rmult_le_pos; lra|]. rewrite Rmult_comm. apply Rmult_le_compat_r; lra. }
    split; [exact B|].
    intros (g & Hg & Hla & Hlo). specialize (Hmin g Hg).
    unfold feature_distance, haversine_km in *.
    rewrite Hla, Hlo, hav_a_self, hav_c_0 in Hmin. lra.
Qed.

(** The [calculateDistance] of the search helpers is the haversine distance
    on a sphere of the fixed radius 3390 km (for every body); it is
    symmetric, between 0 and [3390 pi], 0 from a point to itself, and
    unchanged when a longitude is moved by a whole number of turns. *)
Theorem helpers_calculateDistance_props :
  (forall a b c d, SearchHelpers.calculateDistance a b c d = haversine_km 3390 a b c d) /\
  (forall a b c d, SearchHelpers.calculateDistance a b c d = SearchHelpers.calculateDistance c d a b) /\
  (forall a b c d, 0 <= SearchHelpers.calculateDistance a b c d <= 3390 * PI) /\
  (forall a b, SearchHelpers.calculateDistance a b a b = 0) /\
  (forall a b c d (k : Z),
     SearchHelpers.calculateDistance a b c (d + 360 * IZR k) = SearchHelpers.calculateDistance a b c d).
Proof.
  split; [exact helpers_haversine|]. split.
  { intros a b c d. rewrite !helpers_haversine. unfold haversine_km. rewrite hav_a_sym. reflexivity. }
  split; [exact helpers_range|]. split; [exact helpers_self|].
  intros a b c d k. rewrite !helpers_haversine. unfold haversine_km. rewrite hav_a_lon_shift.
  reflexivity.
Qed.

(** The proximity filter keeps the reference feature itself whenever it is
    a candidate and [km] is absent or not negative; a negative [km] keeps
    nothing; an absent or zero [km] keeps exactly the candidates within
    1000 km of the reference. *)
Theorem proximity_filter_props (cs : list PlanetFeature) (ref : PlanetFeature) (km : option R) :
  (In ref cs -> (forall k, km = Some k -> 0 <= k) -> In ref (SearchHelpers.proximity_filter cs ref km)) /\
  (forall k, km = Some k -> k < 0 -> SearchHelpers.proximity_filter cs ref km = []) /\
  (km = None \/ km = Some 0 ->
   forall f, In f (SearchHelpers.proximity_filter cs ref km) <->
             In f cs /\ SearchHelpers.calculateDistance (lat f) (lon f) (lat ref) (lon ref) <= 1000).
Proof.
  unfold SearchHelpers.proximity_filter. split; [|split].
  - intros Hin Hk. apply filter_In. split; [exact Hin|].
    rewrite helpers_self.
    destruct km as [k|]; [destruct (Req_dec_T k 0)|];
      (destruct (Rle_dec 0 _) as [_|N]; [reflexivity|]);
      try (specialize (Hk k eq_refl)); lra.
  - intros k -> Hk. destruct (Req_dec_T k 0) as [|_]; [lra|].
    induction cs as [|c cs IH]; [reflexivity|]. cbn [filter].
    destruct (Rle_dec _ k) as [L|_]; [|exact IH].
    pose proof (helpers_range (lat c) (lon c) (lat ref) (lon ref)). lra.
  - intros Hk f. rewrite filter_In.
    assert (M : (match km with
                 | Some k => if Req_dec_T k 0 then 1000 else k
                 | None => 1000 end) = 1000).
    { destruct Hk as [->| ->]; [reflexivity|]. destruct (Req_dec_T 0 0); [reflexivity|lra]. }
    rewrite M. destruct (Rle_dec _ 1000); split; intros [H1 H2]; split; auto; try discriminate; lra.
Qed.

End SearchExtras.
